(** * The xv6 buffer cache with hashed buckets (kernel/bio.c)

    A shallow embedding of [binit], [bget], [bread], [bwrite], [brelse],
    [bpin] and [bunpin], and the properties of the cache design that follow
    from them.

    Layout of the development:
    - the data model: [buf], the [cache] (slot array, bucket lists and locks);
    - the code, one definition per C function, lock operations included;
    - the system of callers: a call of [bread] may park in [acquiresleep],
      so a run is a sequence of [event]s over a [sys];
    - a finer model of [bget], one step per lock-delimited region, used to
      examine what two overlapping calls can do;
    - invariants and the theorems. *)

From stdpp Require Import base numbers list strings.

Open Scope Z_scope.

(** ** Constants and machine integers *)

(** [#define N 13] *)
Definition N : Z := 13.

(** [(uint)-1], the initial value of the local [time] in [bget]. *)
Definition UINT_MAX : Z := 4294967295.

(** Arithmetic on [uint] wraps modulo 2^32. *)
Definition wrap32 (z : Z) : Z := z mod 4294967296.

(** [blockno % N], the bucket a block number hashes to. *)
Definition shard (blockno : Z) : nat := Z.to_nat (blockno mod N).

Arguments wrap32 : simpl never.
Arguments shard : simpl never.

(** ** Data model *)

(** Modelled from the spec: buf.h, which declares [struct buf], is not among
    the sources.  The fields are those bio.c uses: [valid] is an [int];
    [dev], [blockno], [refcnt] and [time] are [uint] (the use count and the
    recency stamp of the spec); [lock] is the sleep-lock (the exclusive lock
    of the spec), [Some pid] when process [pid] holds it; [data] is the
    block.  The [next] link is not a field here: the chain
    [bucket[k].head -> next -> ... -> 0] is kept as the list of slot indices
    [heads c !! k]. *)
Record buf : Type := Buf {
  valid : Z;
  dev : Z;
  blockno : Z;
  lock : option nat;
  refcnt : Z;
  time : Z;
  data : list Z
}.

Definition set_valid (v : Z) (b : buf) : buf :=
  Buf v (dev b) (blockno b) (lock b) (refcnt b) (time b) (data b).
Definition set_blockno (v : Z) (b : buf) : buf :=
  Buf (valid b) (dev b) v (lock b) (refcnt b) (time b) (data b).
Definition set_lock (v : option nat) (b : buf) : buf :=
  Buf (valid b) (dev b) (blockno b) v (refcnt b) (time b) (data b).
Definition set_refcnt (v : Z) (b : buf) : buf :=
  Buf (valid b) (dev b) (blockno b) (lock b) v (time b) (data b).
Definition set_time (v : Z) (b : buf) : buf :=
  Buf (valid b) (dev b) (blockno b) (lock b) (refcnt b) v (data b).
Definition set_data (v : list Z) (b : buf) : buf :=
  Buf (valid b) (dev b) (blockno b) (lock b) (refcnt b) (time b) v.

(** Calls of [virtio_disk_rw(b, write)], in order. *)
Inductive io_event : Type :=
| DiskRead (i : nat) (dev blockno : Z)
| DiskWrite (i : nat) (dev blockno : Z) (contents : list Z).

(** The two anonymous structs [bcache] and [bucket[N]], the disk behind
    [virtio_disk_rw], and the record of disk transfers.  [bufs] is the array
    [bcache.buf[NBUF]]; a [struct buf *] is an index into it.  A spinlock is
    [Some pid] when [pid] holds it. *)
Record cache : Type := Cache {
  bcache_lock : option nat;
  bufs : list buf;
  bucket_lock : list (option nat);
  heads : list (list nat);
  disk : list (Z * Z * list Z);
  io : list io_event
}.

Definition set_bcache_lock (v : option nat) (c : cache) : cache :=
  Cache v (bufs c) (bucket_lock c) (heads c) (disk c) (io c).
Definition set_bufs (v : list buf) (c : cache) : cache :=
  Cache (bcache_lock c) v (bucket_lock c) (heads c) (disk c) (io c).
Definition set_bucket_lock (v : list (option nat)) (c : cache) : cache :=
  Cache (bcache_lock c) (bufs c) v (heads c) (disk c) (io c).
Definition set_heads (v : list (list nat)) (c : cache) : cache :=
  Cache (bcache_lock c) (bufs c) (bucket_lock c) v (disk c) (io c).

(** [b->refcnt++], [b->refcnt--] and [b->time = ticks]. *)
Definition refcnt_inc (b : buf) : buf := set_refcnt (wrap32 (refcnt b + 1)) b.
Definition refcnt_dec (b : buf) : buf := set_refcnt (wrap32 (refcnt b - 1)) b.

(** [b->field = ...] through a slot index. *)
Definition upd (i : nat) (f : buf → buf) (c : cache) : cache :=
  set_bufs (alter f i (bufs c)) c.

(** ** Outcomes of a call *)

Inductive lockname : Type :=
| Bcache
| Bucket (k : nat)
| Sleeplock (i : nat).

(** A call returns ([Ok]), ends in [panic(msg)], follows a null or wild
    pointer ([Fault]), stands before a lock that is held ([Waits]), or has
    used up its [goto]s ([OutOfFuel]). *)
Inductive result (A : Type) : Type :=
| Ok (a : A)
| Panic (msg : string)
| Fault
| Waits (l : lockname)
| OutOfFuel.
Arguments Ok {A} a.
Arguments Panic {A} msg.
Arguments Fault {A}.
Arguments Waits {A} l.
Arguments OutOfFuel {A}.

#[global] Instance result_bind : MBind result := λ A B f r,
  match r with
  | Ok a => f a
  | Panic m => Panic m
  | Fault => Fault
  | Waits l => Waits l
  | OutOfFuel => OutOfFuel
  end.

(** ** Locks *)

(** Modelled from the spec: spinlock.c is not among the sources.  [acquire]
    takes a free lock; on a held lock the caller cannot go on ([Waits])
    until the holder releases it, and never if the holder is the caller
    itself (the self-deadlock of the spec). *)
Definition acquire (l : lockname) (pid : nat) (c : cache) : result cache :=
  match l with
  | Bcache =>
      match bcache_lock c with
      | None => Ok (set_bcache_lock (Some pid) c)
      | Some _ => Waits Bcache
      end
  | Bucket k =>
      match bucket_lock c !! k with
      | Some None => Ok (set_bucket_lock (<[k := Some pid]> (bucket_lock c)) c)
      | Some (Some _) => Waits (Bucket k)
      | None => Fault
      end
  | Sleeplock i =>
      match bufs c !! i with
      | Some b =>
          match lock b with
          | None => Ok (upd i (set_lock (Some pid)) c)
          | Some _ => Waits (Sleeplock i)
          end
      | None => Fault
      end
  end.

Definition release (l : lockname) (c : cache) : cache :=
  match l with
  | Bcache => set_bcache_lock None c
  | Bucket k => set_bucket_lock (<[k := None]> (bucket_lock c)) c
  | Sleeplock i => upd i (set_lock None) c
  end.

(** Modelled from the spec: sleeplock.c is not among the sources.  The
    exclusive lock of a slot is held by at most one caller;
    [holdingsleep] asks whether that caller is [pid]. *)
Definition holdingsleep (pid : nat) (b : buf) : bool :=
  match lock b with
  | Some p => Nat.eqb p pid
  | None => false
  end.

Definition acquiresleep (pid : nat) (i : nat) (c : cache) : result cache :=
  acquire (Sleeplock i) pid c.

Definition releasesleep (i : nat) (c : cache) : cache :=
  release (Sleeplock i) c.

(** ** Device I/O *)

Fixpoint disk_lookup (d : list (Z * Z * list Z)) (dv bn : Z) : list Z :=
  match d with
  | [] => []
  | (dv', bn', x) :: d' =>
      if (dv' =? dv) && (bn' =? bn) then x else disk_lookup d' dv bn
  end.

(** Modelled from the spec: virtio_disk.c is not among the sources.
    [virtio_disk_rw(b, 0)] fills the slot's contents from the device,
    [virtio_disk_rw(b, 1)] stores them; both are recorded in [io]. *)
Definition virtio_disk_rw (i : nat) (write : bool) (c : cache) : result cache :=
  match bufs c !! i with
  | None => Fault
  | Some b =>
      if write then
        Ok (Cache (bcache_lock c) (bufs c) (bucket_lock c) (heads c)
              ((dev b, blockno b, data b) :: disk c)
              (io c ++ [DiskWrite i (dev b) (blockno b) (data b)]))
      else
        Ok (Cache (bcache_lock c)
              (alter (set_data (disk_lookup (disk c) (dev b) (blockno b))) i (bufs c))
              (bucket_lock c) (heads c) (disk c)
              (io c ++ [DiskRead i (dev b) (blockno b)]))
  end.

(** ** binit *)

(** Static storage is zero-initialised.  [NBUF] is defined in param.h, which
    is not among the sources: it is a parameter here. *)
Definition zero_buf : buf := Buf 0 0 0 None 0 0 [].

Definition zeroed (NBUF : nat) : cache :=
  Cache None (replicate NBUF zero_buf) (replicate (Z.to_nat N) None)
        (replicate (Z.to_nat N) []) [] [].

(** [i->next = bucket[j].head; bucket[j].head = i;] *)
Definition push_head (k : nat) (i : nat) (c : cache) : cache :=
  set_heads (alter (cons i) k (heads c)) c.

(** Lines 52-59: the loop over the [n] slots from index [i] on, with the
    running bucket number [j]. *)
Fixpoint binit_loop (n : nat) (i : nat) (j : Z) (c : cache) : cache :=
  match n with
  | O => c
  | S n' =>
      binit_loop n' (S i) ((j + 1) mod N)
        (push_head (Z.to_nat j) i (upd i (set_blockno j) c))
  end.

Definition binit (NBUF : nat) : cache := binit_loop NBUF 0 0 (zeroed NBUF).

(** ** bget *)

Inductive scan_result : Type :=
| Hit (i : nat)
| Miss (time : Z) (b : option nat)
| Wild.

(** Lines 75-89: the walk through [bucket[no]]'s chain.  [tm] and [b] are the
    locals [time] and [b]. *)
Fixpoint scan_bucket (bs : list buf) (dv bn : Z) (l : list nat)
    (tm : Z) (b : option nat) : scan_result :=
  match l with
  | [] => Miss tm b
  | i :: l' =>
      match bs !! i with
      | None => Wild
      | Some x =>
          if (dev x =? dv) && (blockno x =? bn) then Hit i
          else if (refcnt x =? 0) && (time x <? tm)
               then scan_bucket bs dv bn l' (time x) (Some i)
               else scan_bucket bs dv bn l' tm b
      end
  end.

(** Lines 105-110: the walk over the whole array, [i] being the index of the
    first slot of [bs]. *)
Fixpoint scan_all (bs : list buf) (i : nat) (tm : Z) (b : option nat)
    : Z * option nat :=
  match bs with
  | [] => (tm, b)
  | x :: bs' =>
      if (refcnt x =? 0) && (time x <? tm)
      then scan_all bs' (S i) (time x) (Some i)
      else scan_all bs' (S i) tm b
  end.

(** Lines 123-130: take [b] out of a chain.  When [b] is not on the chain the
    walk [for(p = head; p != b; p = p->next)] runs through the null link. *)
Fixpoint unlink (b : nat) (l : list nat) : option (list nat) :=
  match l with
  | [] => None
  | p :: l' => if Nat.eqb p b then Some l' else cons p <$> unlink b l'
  end.

(** Lines 94-97 and 137-140. *)
Definition claim (dv bn : Z) (b : buf) : buf :=
  Buf 0 dv bn (lock b) 1 (time b) (data b).

Definition chain (k : nat) (c : cache) : result (list nat) :=
  match heads c !! k with
  | Some l => Ok l
  | None => Fault
  end.

(** Lines 123-141, entered with the three locks held. *)
Definition migrate (dv bn : Z) (no no2 b : nat) (c : cache) : result (cache * nat) :=
  l2 ← chain no2 c;
  match unlink b l2 with
  | None => Fault
  | Some l2' =>
      let c := set_heads (<[no2 := l2']> (heads c)) c in
      let c := release (Bucket no2) c in
      l ← chain no c;
      let c := set_heads (<[no := b :: l]> (heads c)) c in
      let c := release Bcache c in
      let c := upd b (claim dv bn) c in
      let c := release (Bucket no) c in
      Ok (c, b)
  end.

(** [b->refcnt] read through a slot index. *)
Definition refcnt_at (b : nat) (c : cache) : result Z :=
  match bufs c !! b with
  | Some x => Ok (refcnt x)
  | None => Fault
  end.

Definition blockno_at (b : nat) (c : cache) : result Z :=
  match bufs c !! b with
  | Some x => Ok (blockno x)
  | None => Fault
  end.

(** Lines 104-146: the label [globalfind] and what follows.  [fuel] is the
    number of times [goto globalfind] may still be taken. *)
Fixpoint globalfind (fuel : nat) (pid : nat) (dv bn : Z) (tm : Z)
    (b : option nat) (c : cache) : result (cache * nat) :=
  match scan_all (bufs c) 0 tm b with
  | (_, None) => Panic "bget: no buffers"
  | (_, Some b) =>
      bno ← blockno_at b c;
      let no2 := shard bno in
      c ← acquire (Bucket no2) pid c;
      r ← refcnt_at b c;
      if negb (r =? 0)
      then
        let c := release (Bucket no2) c in
        match fuel with
        | O => OutOfFuel
        | S fuel' => globalfind fuel' pid dv bn UINT_MAX (Some b) c
        end
      else migrate dv bn (shard bn) no2 b c
  end.

(** [bget] up to, and without, its final [acquiresleep]. *)
Definition bget_locked (fuel : nat) (pid : nat) (dv bn : Z) (c : cache)
    : result (cache * nat) :=
  let no := shard bn in
  c ← acquire (Bucket no) pid c;
  l ← chain no c;
  match scan_bucket (bufs c) dv bn l UINT_MAX None with
  | Wild => Fault
  | Hit i =>
      let c := upd i refcnt_inc c in
      Ok (release (Bucket no) c, i)
  | Miss _ (Some b) =>
      let c := upd b (claim dv bn) c in
      Ok (release (Bucket no) c, b)
  | Miss tm None =>
      c ← acquire Bcache pid c;
      globalfind fuel pid dv bn tm None c
  end.

Definition bget (fuel : nat) (pid : nat) (dv bn : Z) (c : cache)
    : result (cache * nat) :=
  '(c, i) ← bget_locked fuel pid dv bn c;
  c ← acquiresleep pid i c;
  Ok (c, i).

(** ** bread, bwrite, brelse, bpin, bunpin *)

(** Lines 156-161. *)
Definition bread_tail (i : nat) (c : cache) : result (cache * nat) :=
  match bufs c !! i with
  | None => Fault
  | Some b =>
      if valid b =? 0 then
        c ← virtio_disk_rw i false c;
        Ok (upd i (set_valid 1) c, i)
      else Ok (c, i)
  end.

Definition bread (fuel : nat) (pid : nat) (dv bn : Z) (c : cache)
    : result (cache * nat) :=
  '(c, i) ← bget fuel pid dv bn c;
  bread_tail i c.

Definition bwrite (pid : nat) (i : nat) (c : cache) : result cache :=
  match bufs c !! i with
  | None => Fault
  | Some b =>
      if negb (holdingsleep pid b) then Panic "bwrite"
      else virtio_disk_rw i true c
  end.

(** Lines 186-190. *)
Definition stamp (ticks : Z) (b : buf) : buf :=
  if refcnt b =? 0 then set_time ticks b else b.

Definition brelse (pid : nat) (i : nat) (ticks : Z) (c : cache) : result cache :=
  match bufs c !! i with
  | None => Fault
  | Some b =>
      if negb (holdingsleep pid b) then Panic "brelse"
      else
        let c := releasesleep i c in
        let no := shard (blockno b) in
        c ← acquire (Bucket no) pid c;
        let c := upd i refcnt_dec c in
        let c := upd i (stamp ticks) c in
        Ok (release (Bucket no) c)
  end.

Definition bpin (pid : nat) (i : nat) (c : cache) : result cache :=
  match bufs c !! i with
  | None => Fault
  | Some b =>
      let no := shard (blockno b) in
      c ← acquire (Bucket no) pid c;
      let c := upd i refcnt_inc c in
      Ok (release (Bucket no) c)
  end.

Definition bunpin (pid : nat) (i : nat) (c : cache) : result cache :=
  match bufs c !! i with
  | None => Fault
  | Some b =>
      let no := shard (blockno b) in
      c ← acquire (Bucket no) pid c;
      let c := upd i refcnt_dec c in
      Ok (release (Bucket no) c)
  end.


(** The slot after lines 156-160: filled from the disk and marked valid. *)
Definition filled (d : list (Z * Z * list Z)) (b : buf) : buf :=
  set_valid 1 (set_data (disk_lookup d (dev b) (blockno b)) b).

(** ** Callers *)

(** The cache together with the calls of [bread] that are parked in
    [acquiresleep]: [(pid, i)] is process [pid] waiting for slot [i]. *)
Record sys : Type := Sys {
  mem : cache;
  sleepers : list (nat * nat)
}.

Definition boot (NBUF : nat) : sys := Sys (binit NBUF) [].

Definition same_sleeper (x y : nat * nat) : bool :=
  Nat.eqb x.1 y.1 && Nat.eqb x.2 y.2.

Fixpoint unsleep (x : nat * nat) (l : list (nat * nat)) : option (list (nat * nat)) :=
  match l with
  | [] => None
  | y :: l' => if same_sleeper x y then Some l' else cons y <$> unsleep x l'
  end.

(** What callers do.  A [bread] is a [Fetch] (everything up to
    [acquiresleep]) followed, once the slot's sleep-lock is free, by a [Wake]
    (the lock is taken and [bread] runs to its end). *)
Inductive event : Type :=
| Fetch (pid : nat) (dv bn : Z)
| Wake (pid : nat) (i : nat)
| Flush (pid : nat) (i : nat)
| Release (pid : nat) (i : nat) (ticks : Z)
| Pin (pid : nat) (i : nat)
| Unpin (pid : nat) (i : nat).

Inductive step : sys → event → sys → Prop :=
| step_fetch fuel pid dv bn s c i :
    bget_locked fuel pid dv bn (mem s) = Ok (c, i) →
    step s (Fetch pid dv bn) (Sys c ((pid, i) :: sleepers s))
| step_wake pid i s sl c c' :
    unsleep (pid, i) (sleepers s) = Some sl →
    acquiresleep pid i (mem s) = Ok c →
    bread_tail i c = Ok (c', i) →
    step s (Wake pid i) (Sys c' sl)
| step_flush pid i s c :
    bwrite pid i (mem s) = Ok c →
    step s (Flush pid i) (Sys c (sleepers s))
| step_release pid i ticks s c :
    brelse pid i ticks (mem s) = Ok c →
    step s (Release pid i ticks) (Sys c (sleepers s))
| step_pin pid i s c :
    bpin pid i (mem s) = Ok c →
    step s (Pin pid i) (Sys c (sleepers s))
| step_unpin pid i s c :
    bunpin pid i (mem s) = Ok c →
    step s (Unpin pid i) (Sys c (sleepers s)).

(** States the cache can be in after [binit] and any calls whatsoever. *)
Inductive reachable (NBUF : nat) : sys → Prop :=
| reach_boot : reachable NBUF (boot NBUF)
| reach_step s e s' : reachable NBUF s → step s e s' → reachable NBUF s'.

(** References to slot [i] that come from [bread]: the holder of the
    sleep-lock and the callers parked on it. *)
Definition waiting (i : nat) (sl : list (nat * nat)) : Z :=
  Z.of_nat (length (filter (λ x, x.2 = i) sl)).

Definition fetch_refs (s : sys) (i : nat) : Z :=
  match bufs (mem s) !! i with
  | Some b => (match lock b with Some _ => 1 | None => 0 end)
              + waiting i (sleepers s)
  | None => 0
  end.

(** The caller's side of the interface: a use count is never driven to
    [UINT_MAX] references, [bpin] is applied to a slot that is in use, and
    [bunpin] only undoes an earlier [bpin]. *)
Definition obeys (e : event) (s : sys) : Prop :=
  match e with
  | Fetch _ _ _ => Forall (λ b, refcnt b < UINT_MAX) (bufs (mem s))
  | Pin _ i => ∃ b, bufs (mem s) !! i = Some b ∧ 0 < refcnt b < UINT_MAX
  | Unpin _ i => ∃ b, bufs (mem s) !! i = Some b ∧ fetch_refs s i < refcnt b
  | _ => True
  end.

(** States reached when every call respects [obeys]. *)
Inductive well_behaved (NBUF : nat) : sys → Prop :=
| wb_boot : well_behaved NBUF (boot NBUF)
| wb_step s e s' :
    well_behaved NBUF s → obeys e s → step s e s' → well_behaved NBUF s'.

(** The same as a function, for running concrete scenarios: the state after
    the event, when the event can happen and the call returns.  A [Fetch]
    is run without taking [goto globalfind]. *)
Definition exec (e : event) (s : sys) : option sys :=
  match e with
  | Fetch pid dv bn =>
      match bget_locked 0 pid dv bn (mem s) with
      | Ok (c, i) => Some (Sys c ((pid, i) :: sleepers s))
      | _ => None
      end
  | Wake pid i =>
      match unsleep (pid, i) (sleepers s) with
      | Some sl =>
          match acquiresleep pid i (mem s) with
          | Ok c =>
              match bread_tail i c with
              | Ok (c', _) => Some (Sys c' sl)
              | _ => None
              end
          | _ => None
          end
      | None => None
      end
  | Flush pid i =>
      match bwrite pid i (mem s) with
      | Ok c => Some (Sys c (sleepers s))
      | _ => None
      end
  | Release pid i ticks =>
      match brelse pid i ticks (mem s) with
      | Ok c => Some (Sys c (sleepers s))
      | _ => None
      end
  | Pin pid i =>
      match bpin pid i (mem s) with
      | Ok c => Some (Sys c (sleepers s))
      | _ => None
      end
  | Unpin pid i =>
      match bunpin pid i (mem s) with
      | Ok c => Some (Sys c (sleepers s))
      | _ => None
      end
  end.

Definition obeysb (e : event) (s : sys) : bool :=
  match e with
  | Fetch _ _ _ => forallb (λ b, refcnt b <? UINT_MAX) (bufs (mem s))
  | Pin _ i =>
      match bufs (mem s) !! i with
      | Some b => (0 <? refcnt b) && (refcnt b <? UINT_MAX)
      | None => false
      end
  | Unpin _ i =>
      match bufs (mem s) !! i with
      | Some b => fetch_refs s i <? refcnt b
      | None => false
      end
  | _ => true
  end.

(** A run of events from [s]; with [check], only while the callers obey. *)
Fixpoint run (check : bool) (es : list event) (s : sys) : option sys :=
  match es with
  | [] => Some s
  | e :: es' =>
      if check && negb (obeysb e s) then None
      else s' ← exec e s; run check es' s'
  end.

(** ** Overlapping calls of [bget] *)

(** Where a call of [bget] stands.  The code is cut at its lock operations:
    a call moves from one point to the next in one step, and other calls may
    move in between. *)
Inductive pc : Type :=
| AtEntry      (* line 72: about to acquire(&bucket[no].lock) *)
| InBucket     (* lines 75-101, up to the release or to line 103 *)
| AtPool       (* line 103: about to acquire(&bcache.lock) *)
| InPool       (* lines 104-114: the walk over the array, then [no2] *)
| AtSource     (* line 115: about to acquire(&bucket[no2].lock) *)
| InSource     (* lines 116-131 *)
| AtLink       (* lines 133-135 *)
| AtClaim      (* lines 137-141 *)
| AtSleep      (* [acquiresleep], lines 81, 99 and 142 *)
| Returned
| Panicked
| Faulted.

(** A call in progress: its caller, its arguments and its locals. *)
Record call : Type := Call {
  c_pid : nat;
  c_dev : Z;
  c_blockno : Z;
  c_time : Z;
  c_b : option nat;
  c_no2 : nat;
  c_pc : pc
}.

Definition start (pid : nat) (dv bn : Z) : call :=
  Call pid dv bn UINT_MAX None 0 AtEntry.

Definition goto (p : pc) (k : call) : call :=
  Call (c_pid k) (c_dev k) (c_blockno k) (c_time k) (c_b k) (c_no2 k) p.

Definition with_b (tm : Z) (b : option nat) (k : call) : call :=
  Call (c_pid k) (c_dev k) (c_blockno k) tm b (c_no2 k) (c_pc k).

Definition with_no2 (no2 : nat) (k : call) : call :=
  Call (c_pid k) (c_dev k) (c_blockno k) (c_time k) (c_b k) no2 (c_pc k).

(** A lock operation inside a step: [None] when the lock is held, and the
    call does not move. *)
Definition try_acquire (l : lockname) (p : pc) (k : call) (c : cache)
    : option (call * cache) :=
  match acquire l (c_pid k) c with
  | Ok c' => Some (goto p k, c')
  | Waits _ => None
  | _ => Some (goto Faulted k, c)
  end.

(** One step of a call.  [None]: the call waits for a lock, or is over. *)
Definition bget_step (k : call) (c : cache) : option (call * cache) :=
  let no := shard (c_blockno k) in
  match c_pc k with
  | AtEntry => try_acquire (Bucket no) InBucket k c
  | InBucket =>
      match chain no c with
      | Ok l =>
          match scan_bucket (bufs c) (c_dev k) (c_blockno k) l (c_time k) (c_b k) with
          | Wild => Some (goto Faulted k, c)
          | Hit i =>
              Some (goto AtSleep (with_b (c_time k) (Some i) k),
                    release (Bucket no) (upd i refcnt_inc c))
          | Miss tm (Some b) =>
              Some (goto AtSleep (with_b tm (Some b) k),
                    release (Bucket no)
                      (upd b (claim (c_dev k) (c_blockno k)) c))
          | Miss tm None => Some (goto AtPool (with_b tm None k), c)
          end
      | _ => Some (goto Faulted k, c)
      end
  | AtPool => try_acquire Bcache InPool k c
  | InPool =>
      match scan_all (bufs c) 0 (c_time k) (c_b k) with
      | (_, None) => Some (goto Panicked k, c)
      | (tm, Some b) =>
          match blockno_at b c with
          | Ok bno =>
              Some (goto AtSource (with_no2 (shard bno) (with_b tm (Some b) k)), c)
          | _ => Some (goto Faulted k, c)
          end
      end
  | AtSource => try_acquire (Bucket (c_no2 k)) InSource k c
  | InSource =>
      match c_b k with
      | None => Some (goto Faulted k, c)
      | Some b =>
          match refcnt_at b c with
          | Ok r =>
              if negb (r =? 0)
              then Some (goto InPool (with_b UINT_MAX (Some b) k),
                         release (Bucket (c_no2 k)) c)
              else
                match chain (c_no2 k) c with
                | Ok l2 =>
                    match unlink b l2 with
                    | Some l2' =>
                        Some (goto AtLink k,
                              release (Bucket (c_no2 k))
                                (set_heads (<[c_no2 k := l2']> (heads c)) c))
                    | None => Some (goto Faulted k, c)
                    end
                | _ => Some (goto Faulted k, c)
                end
          | _ => Some (goto Faulted k, c)
          end
      end
  | AtLink =>
      match c_b k, chain no c with
      | Some b, Ok l =>
          Some (goto AtClaim k,
                release Bcache (set_heads (<[no := b :: l]> (heads c)) c))
      | _, _ => Some (goto Faulted k, c)
      end
  | AtClaim =>
      match c_b k with
      | Some b =>
          Some (goto AtSleep k,
                release (Bucket no) (upd b (claim (c_dev k) (c_blockno k)) c))
      | None => Some (goto Faulted k, c)
      end
  | AtSleep =>
      match c_b k with
      | Some b => try_acquire (Sleeplock b) Returned k c
      | None => Some (goto Faulted k, c)
      end
  | Returned | Panicked | Faulted => None
  end.

(** Several calls over one cache; a schedule names, step by step, the call
    that moves. *)
Fixpoint schedule (sch : list nat) (ks : list call) (c : cache)
    : option (list call * cache) :=
  match sch with
  | [] => Some (ks, c)
  | t :: sch' =>
      match ks !! t with
      | None => None
      | Some k =>
          match bget_step k c with
          | None => None
          | Some (k', c') => schedule sch' (<[t := k']> ks) c'
          end
      end
  end.

(** A call that runs alone, for at most [n] steps. *)
Fixpoint alone (n : nat) (k : call) (c : cache) : call * cache :=
  match n with
  | O => (k, c)
  | S n' =>
      match bget_step k c with
      | None => (k, c)
      | Some (k', c') => alone n' k' c'
      end
  end.

(** ** Invariants *)

Definition same_id (x y : buf) : Prop := dev x = dev y ∧ blockno x = blockno y.

Definition is_id (dv bn : Z) (x : buf) : Prop := dev x = dv ∧ blockno x = bn.

(** No spinlock is held between calls. *)
Definition quiescent (c : cache) : Prop :=
  bcache_lock c = None ∧ bucket_lock c = replicate (Z.to_nat N) None.

(** Every slot is on exactly one chain, the one its block number hashes to. *)
Record linked (c : cache) : Prop := {
  linked_len : length (heads c) = Z.to_nat N;
  linked_nodup : ∀ k l, heads c !! k = Some l → NoDup l;
  linked_shard : ∀ k l i, heads c !! k = Some l → i ∈ l →
                   ∃ b, bufs c !! i = Some b ∧ shard (blockno b) = k;
  linked_all : ∀ i b, bufs c !! i = Some b →
                 ∃ l, heads c !! shard (blockno b) = Some l ∧ i ∈ l
}.

(** [before l i j]: slot [i] occurs on the chain [l] ahead of slot [j]. *)
Fixpoint before (l : list nat) (i j : nat) : Prop :=
  match l with
  | [] => False
  | a :: l' => (a = i ∧ j ∈ l') ∨ before l' i j
  end.

(** On a chain, a slot that follows another slot of the same identity is not
    in use. *)
Definition first_live (bs : list buf) (l : list nat) : Prop :=
  ∀ i j x y, before l i j → bs !! i = Some x → bs !! j = Some y →
    same_id x y → refcnt y = 0.

Definition chains_first_live (c : cache) : Prop :=
  ∀ k l, heads c !! k = Some l → first_live (bufs c) l.

(** Use counts are in range and cover the references held through [bread]. *)
Definition counted (s : sys) : Prop :=
  ∀ i b, bufs (mem s) !! i = Some b →
    0 ≤ refcnt b < 4294967296 ∧ fetch_refs s i ≤ refcnt b.

(** What holds of the chains and locks in every state between calls. *)
Definition struct_inv (c : cache) : Prop := quiescent c ∧ linked c.

(** What holds in every state reached by well-behaved callers. *)
Record wb_inv (s : sys) : Prop := {
  wb_struct : struct_inv (mem s);
  wb_first_live : chains_first_live (mem s);
  wb_counted : counted s
}.

(** The state of the chains inside the loop of [binit], when the slots below
    index [n] have been linked. *)
Record linked_below (n : nat) (c : cache) : Prop := {
  below_len : length (heads c) = Z.to_nat N;
  below_nodup : ∀ k l, heads c !! k = Some l → NoDup l;
  below_shard : ∀ k l i, heads c !! k = Some l → i ∈ l →
                  (i < n)%nat ∧ ∃ b, bufs c !! i = Some b ∧ shard (blockno b) = k;
  below_all : ∀ i b, (i < n)%nat → bufs c !! i = Some b →
                ∃ l, heads c !! shard (blockno b) = Some l ∧ i ∈ l
}.

(** A slot that was never used: what [binit] leaves apart from [blockno]. *)
Definition fresh (b : buf) : Prop :=
  valid b = 0 ∧ dev b = 0 ∧ lock b = None ∧ refcnt b = 0 ∧ time b = 0.

(** Slots in use have pairwise distinct identities. *)
Definition distinct_in_use (c : cache) : Prop :=
  ∀ i j x y, bufs c !! i = Some x → bufs c !! j = Some y → i ≠ j →
    0 < refcnt x → 0 < refcnt y → ¬ same_id x y.

(** ** The cases of [bget] *)

Definition relinked (no no2 b : nat) (l l2 : list nat) (c : cache) : cache :=
  set_heads (<[no := b :: l]> (<[no2 := l2]> (heads c))) c.

Inductive bget_case (dv bn : Z) (c : cache) : result (cache * nat) → Prop :=
| case_hit i l1 l2 x :
    heads c !! shard bn = Some (l1 ++ i :: l2) →
    bufs c !! i = Some x →
    is_id dv bn x →
    (∀ j y, j ∈ l1 → bufs c !! j = Some y → ¬ is_id dv bn y) →
    bget_case dv bn c (Ok (upd i refcnt_inc c, i))
| case_local b x l1 l2 :
    heads c !! shard bn = Some (l1 ++ b :: l2) →
    (∀ j y, j ∈ l1 ++ b :: l2 → bufs c !! j = Some y → ¬ is_id dv bn y) →
    bufs c !! b = Some x →
    refcnt x = 0 →
    time x < UINT_MAX →
    (∀ j y, j ∈ l1 → bufs c !! j = Some y → refcnt y = 0 → time x < time y) →
    (∀ j y, j ∈ l2 → bufs c !! j = Some y → refcnt y = 0 → time x ≤ time y) →
    bget_case dv bn c (Ok (upd b (claim dv bn) c, b))
| case_global b x l l1 l2 :
    heads c !! shard bn = Some l →
    (∀ j y, j ∈ l → bufs c !! j = Some y → ¬ is_id dv bn y) →
    (∀ j y, j ∈ l → bufs c !! j = Some y → refcnt y = 0 → UINT_MAX ≤ time y) →
    bufs c !! b = Some x →
    refcnt x = 0 →
    time x < UINT_MAX →
    shard (blockno x) ≠ shard bn →
    heads c !! shard (blockno x) = Some (l1 ++ b :: l2) →
    (∀ j y, bufs c !! j = Some y → refcnt y = 0 →
       time x ≤ time y ∧ ((j < b)%nat → time x < time y)) →
    bget_case dv bn c
      (Ok (upd b (claim dv bn)
             (relinked (shard bn) (shard (blockno x)) b l (l1 ++ l2) c), b))
| case_panic l :
    heads c !! shard bn = Some l →
    (∀ j y, j ∈ l → bufs c !! j = Some y → ¬ is_id dv bn y) →
    (∀ j y, bufs c !! j = Some y → refcnt y = 0 → UINT_MAX ≤ time y) →
    bget_case dv bn c (Panic "bget: no buffers").

(** ** A block that stays cached *)

(** Slot [i] caches block [(dv, bn)]. *)
Definition holds (dv bn : Z) (i : nat) (c : cache) : Prop :=
  ∃ x, bufs c !! i = Some x ∧ is_id dv bn x.

Definition holdsb (dv bn : Z) (i : nat) (c : cache) : bool :=
  match bufs c !! i with
  | Some x => (dev x =? dv) && (blockno x =? bn)
  | None => false
  end.

(** Slot [i] is the slot the walk of [bget] finds for [(dv, bn)]: it is on
    the chain of the block's bucket and no slot ahead of it has this
    identity. *)
Definition first_match (dv bn : Z) (i : nat) (c : cache) : Prop :=
  ∃ l x, heads c !! shard bn = Some l ∧ i ∈ l ∧ bufs c !! i = Some x
    ∧ is_id dv bn x
    ∧ ∀ p z, before l p i → bufs c !! p = Some z → ¬ is_id dv bn z.

(** Calls other than a [bget] that recycles change neither the chains nor
    any identity. *)
Definition same_ids (c c' : cache) : Prop :=
  heads c' = heads c
  ∧ ∀ j, (λ b, (dev b, blockno b)) <$> bufs c' !! j
         = (λ b, (dev b, blockno b)) <$> bufs c !! j.

(** A run during which slot [i] is never given another identity than
    [(dv, bn)]: no eviction of that block. *)
Inductive keeps (dv bn : Z) (i : nat) : sys → sys → Prop :=
| keeps_refl s : keeps dv bn i s s
| keeps_step s s' s'' e :
    keeps dv bn i s s' → step s' e s'' → holds dv bn i (mem s'') →
    keeps dv bn i s s''.

Fixpoint keeps_run (dv bn : Z) (i : nat) (es : list event) (s : sys)
    : option sys :=
  match es with
  | [] => Some s
  | e :: es' =>
      s' ← exec e s;
      if holdsb dv bn i (mem s') then keeps_run dv bn i es' s' else None
  end.

(** ** Fetching without releasing *)

(** A series of [bread] calls, each given as (pid, device, block number),
    none of them followed by [brelse].  Returned with the final cache: the
    use count each returned slot had before its call. *)
Fixpoint bread_all (fuel : nat) (reqs : list (nat * Z * Z)) (c : cache)
    : result (cache * list Z) :=
  match reqs with
  | [] => Ok (c, [])
  | (pid, dv, bn) :: reqs' =>
      '(c', i) ← bread fuel pid dv bn c;
      prior ← refcnt_at i c;
      '(c'', ps) ← bread_all fuel reqs' c';
      Ok (c'', prior :: ps)
  end.

Definition ident (r : nat * Z * Z) : Z * Z := (r.1.2, r.2).

Definition count_free (bs : list buf) : nat :=
  length (filter (λ b, refcnt b = 0) bs).

(** A slot during such a series: never used so far, or in use for one of
    the blocks fetched. *)
Definition slot_ok (fetched : list (Z * Z)) (b : buf) : Prop :=
  (refcnt b = 0 ∧ time b = 0 ∧ lock b = None)
  ∨ (refcnt b ≠ 0 ∧ (dev b, blockno b) ∈ fetched).

Record filling (fetched : list (Z * Z)) (c : cache) : Prop := {
  filling_struct : struct_inv c;
  filling_slots : Forall (slot_ok fetched) (bufs c);
  filling_count : (count_free (bufs c) + length fetched = length (bufs c))%nat
}.

(** ** Concrete scenarios *)

(** Two blocks fetched by two processes from a cache of two slots. *)
Definition two_held : list event :=
  [Fetch 1 0 5; Wake 1 0; Fetch 2 0 18; Wake 2 1].

(** The slot as [brelse] leaves it. *)
Definition released (ticks : Z) (b : buf) : buf :=
  Buf (valid b) (dev b) (blockno b) None (wrap32 (refcnt b - 1))
      (if wrap32 (refcnt b - 1) =? 0 then ticks else time b) (data b).

(** Block 5 of device 0 fetched by process 1, released at tick 7, then a
    block of another bucket fetched and released by process 3. *)
Definition fetch_5 : list event := [Fetch 1 0 5].
Definition then_release : list event :=
  [Release 1 0 7; Fetch 3 0 19; Wake 3 1; Release 3 1 8].

(** The states of that scenario, followed by a second fetch of block 5 by
    process 2. *)
Definition again_1 : sys := default (boot 2) (run true fetch_5 (boot 2)).
Definition again_3 : sys := default again_1 (exec (Wake 1 0) again_1).
Definition again_4 : sys :=
  default again_3 (keeps_run 0 5 0 then_release again_3).
Definition again_5 : sys := default again_4 (exec (Fetch 2 0 5) again_4).
Definition again_7 : sys := default again_5 (exec (Wake 2 0) again_5).

(** Two slots, each fetched and released once, slot 0 at tick 5 and slot 1
    at tick 9. *)
Definition two_released : result cache :=
  '(c, i) ← bread 0 1 0 0 (binit 2);
  c ← brelse 1 i 5 c;
  '(c, j) ← bread 0 1 0 1 c;
  brelse 1 j 9 c.

(** One slot, fetched once and released when the tick counter reads
    [UINT_MAX]. *)
Definition released_at_max : result cache :=
  '(c, i) ← bread 0 1 0 0 (binit 1);
  brelse 1 i UINT_MAX c.

(** One slot, fetched and pinned, then released at tick 5: the pin is the
    last reference left. *)
Definition pinned_only : list event :=
  [Fetch 1 0 0; Wake 1 0; Pin 1 0; Release 1 0 5].

(** Thirty slots, twenty-nine of them held: blocks 0 to 28 of device 1,
    fetched by processes 1 to 29 and not released. *)
Definition held_29 : result (cache * list Z) :=
  bread_all 0 (map (λ k, (S k, 1, Z.of_nat k)) (seq 0 29)) (binit 30).

(** Two calls that overlap: process 101 fetches block 30 (bucket 4) and
    process 102 block 29 (bucket 3) of device 1. *)
Definition racing : list call := [start 101 1 30; start 102 1 29].

(** Call 0 runs until it has taken the free slot off the chain of bucket 3
    (six steps, to line 131); call 1 enters bucket 3 and finds nothing
    (two steps, to line 103); call 0 links the slot into bucket 4 and
    releases [bcache.lock] (line 135); call 1 takes [bcache.lock] and walks
    the array (lines 103-114). *)
Definition race_schedule : list nat :=
  [0; 0; 0; 0; 0; 0; 1; 1; 0; 1; 1]%nat.

(** After that, call 0 stores the identity, releases the lock of bucket 4
    (line 141) and takes the sleep-lock. *)
Definition race_to_the_end : list nat := race_schedule ++ [0; 0]%nat.

(** Two calls that overlap on the last free slot: process 101 misses on
    block 30 of device 1 (bucket 4) while process 102 fetches block 3 of
    device 0, the block which that slot still caches. *)
Definition retrying : list call := [start 101 1 30; start 102 0 3].

(** Call 0 runs to line 114: its walk over the array has picked the free
    slot.  Call 1 finds its block in bucket 3, takes a reference (line 79)
    and returns.  Call 0 takes the lock of bucket 3, sees the reference at
    line 116 and goes back to [globalfind]. *)
Definition retry_schedule : list nat := [0; 0; 0; 0; 1; 1; 1; 0; 0]%nat.

(** Call 0 once around: the walk (lines 105-114), the lock of the bucket
    (line 115), the test and the [goto] (lines 116-120). *)
Definition once_around : list nat := [0; 0; 0]%nat.

(** ** Further notions *)

(** The bucket number the loop of [binit] has reached at slot [m], having
    started at slot [i] with bucket number [j]. *)
Definition bucket_at (i : nat) (j : Z) (m : nat) : Z :=
  (j + Z.of_nat m - Z.of_nat i) mod N.

(** Pins of slot [i] that are still outstanding after the calls [es] (the
    latest first): calls of [bpin] less calls of [bunpin]. *)
Fixpoint net_pins (i : nat) (es : list event) : Z :=
  match es with
  | [] => 0
  | Pin _ j :: es' => net_pins i es' + (if decide (j = i) then 1 else 0)
  | Unpin _ j :: es' => net_pins i es' - (if decide (j = i) then 1 else 0)
  | _ :: es' => net_pins i es'
  end.

(** A well-behaved run together with the calls made, the latest first. *)
Inductive traced (NBUF : nat) : list event → sys → Prop :=
| traced_boot : traced NBUF [] (boot NBUF)
| traced_step es s e s' :
    traced NBUF es s → obeys e s → step s e s' → traced NBUF (e :: es) s'.

(** The walk through the chain of [bn]'s bucket settles on slot [i] with no
    need of the pool: a hit, whose reference is counted, or a miss that
    takes the chain's oldest free slot; [f] is what [bget] then does to the
    slot. *)
Definition served_locally (dv bn : Z) (c : cache) (i : nat) (f : buf → buf)
    : Prop :=
  ∃ l, heads c !! shard bn = Some l ∧
    ((scan_bucket (bufs c) dv bn l UINT_MAX None = Hit i ∧ f = refcnt_inc)
     ∨ (∃ tm, scan_bucket (bufs c) dv bn l UINT_MAX None = Miss tm (Some i)
              ∧ f = claim dv bn)).

(** The six ways in which the two steps of call 0 and the two steps of
    call 1 can follow each other. *)
Definition two_by_two : list (list nat) :=
  [[0; 0; 1; 1]; [0; 1; 0; 1]; [0; 1; 1; 0];
   [1; 0; 0; 1]; [1; 0; 1; 0]; [1; 1; 0; 0]]%nat.

(** Two slots, both held: the state after [two_held]. *)
Definition held_state : sys := default (boot 2) (run true two_held (boot 2)).

(** That state after process 1 has released slot 0 at tick 9, and after
    process 2 has written slot 1 to the disk. *)
Definition held_then_released : sys :=
  default held_state (exec (Release 1 0 9) held_state).
Definition held_then_flushed : sys :=
  default held_state (exec (Flush 2 1) held_state).

(** Two slots, each fetched and released once: the state after
    [two_released]. *)
Definition recycled_state : cache :=
  match two_released with Ok c => c | _ => binit 2 end.

(** Block 5 of device 0 fetched from a cache of two slots, before and after
    the wake-up that reads it from the disk. *)
Definition fetched_5 : sys := default (boot 2) (exec (Fetch 1 0 5) (boot 2)).
Definition woken_5 : sys := default fetched_5 (exec (Wake 1 0) fetched_5).

(** A well-behaved run from one state to another in which process [pid]
    is not woken on slot [i]. *)
Inductive parked (pid i : nat) : sys → sys → Prop :=
| parked_refl s : parked pid i s s
| parked_step s s' s'' e :
    parked pid i s s' → obeys e s' → e ≠ Wake pid i → step s' e s'' →
    parked pid i s s''.

(** Process 2 asks for block 5 while process 1 holds it, is parked, and is
    woken after process 1 has released the block at tick 7. *)
Definition parked_1 : sys := default woken_5 (exec (Fetch 2 0 5) woken_5).
Definition parked_2 : sys := default parked_1 (exec (Release 1 0 7) parked_1).
Definition parked_3 : sys := default parked_2 (exec (Wake 2 0) parked_2).

(** * Proofs *)

(** ** The scans *)

Lemma is_id_test dv bn x :
  (dev x =? dv) && (blockno x =? bn) = true ↔ is_id dv bn x.
Proof. unfold is_id. rewrite andb_true_iff, !Z.eqb_eq. tauto. Qed.

Lemma free_test x tm :
  (refcnt x =? 0) && (time x <? tm) = true ↔ refcnt x = 0 ∧ time x < tm.
Proof. rewrite andb_true_iff, Z.eqb_eq, Z.ltb_lt. tauto. Qed.

Lemma scan_bucket_hit bs dv bn l : ∀ tm b i,
  scan_bucket bs dv bn l tm b = Hit i →
  ∃ l1 l2 x, l = l1 ++ i :: l2 ∧ bs !! i = Some x ∧ is_id dv bn x ∧
    ∀ j y, j ∈ l1 → bs !! j = Some y → ¬ is_id dv bn y.
Proof.
  induction l as [|a l IH]; intros tm b i H; simpl in H; [discriminate|].
  destruct (bs !! a) as [x|] eqn:Ha; [|discriminate].
  destruct ((dev x =? dv) && (blockno x =? bn)) eqn:Hid.
  - injection H as <-. exists [], l, x. split; [done|]. split; [done|].
    split; [by apply is_id_test|]. intros j y Hj. by apply elem_of_nil in Hj.
  - assert (¬ is_id dv bn x) as Hx
      by (rewrite <- is_id_test; congruence).
    assert (∃ tm' b', scan_bucket bs dv bn l tm' b' = Hit i) as (tm' & b' & H').
    { destruct ((refcnt x =? 0) && (time x <? tm)); eauto. }
    destruct (IH _ _ _ H') as (l1 & l2 & z & -> & Hz & Hzid & Hbefore).
    exists (a :: l1), l2, z. split_and!; try done.
    intros j y Hj Hy. apply elem_of_cons in Hj as [->|Hj]; [congruence|eauto].
Qed.

Lemma scan_bucket_miss bs dv bn l : ∀ tm b tm' b',
  scan_bucket bs dv bn l tm b = Miss tm' b' →
  ∀ j, j ∈ l → ∃ y, bs !! j = Some y ∧ ¬ is_id dv bn y.
Proof.
  induction l as [|a l IH]; intros tm b tm' b' H j Hj; simpl in H.
  { by apply elem_of_nil in Hj. }
  destruct (bs !! a) as [x|] eqn:Ha; [|discriminate].
  destruct ((dev x =? dv) && (blockno x =? bn)) eqn:Hid; [discriminate|].
  apply elem_of_cons in Hj as [->|Hj].
  - exists x. split; [done|]. rewrite <- is_id_test. congruence.
  - destruct ((refcnt x =? 0) && (time x <? tm)); eauto.
Qed.

Lemma scan_bucket_not_wild bs dv bn l : ∀ tm b,
  (∀ j, j ∈ l → is_Some (bs !! j)) →
  scan_bucket bs dv bn l tm b ≠ Wild.
Proof.
  induction l as [|a l IH]; intros tm b Hl; simpl; [done|].
  destruct (Hl a) as [x ->]; [by left|].
  assert (∀ j, j ∈ l → is_Some (bs !! j)) by (intros; apply Hl; by right).
  destruct ((dev x =? dv) && (blockno x =? bn)); [done|].
  destruct ((refcnt x =? 0) && (time x <? tm)); eauto.
Qed.

(** The candidate the bucket walk ends with: either the one it started with,
    nothing on the chain being free and older, or the first slot of the chain
    that is free and has the least [time]. *)
Lemma scan_bucket_lru bs dv bn l : ∀ tm b tm' b',
  scan_bucket bs dv bn l tm b = Miss tm' b' →
  (b' = b ∧ tm' = tm ∧
     ∀ j y, j ∈ l → bs !! j = Some y → refcnt y = 0 → tm ≤ time y)
  ∨ (∃ c x l1 l2, b' = Some c ∧ l = l1 ++ c :: l2 ∧ bs !! c = Some x ∧
       refcnt x = 0 ∧ time x = tm' ∧ tm' < tm ∧
       (∀ j y, j ∈ l1 → bs !! j = Some y → refcnt y = 0 → tm' < time y) ∧
       (∀ j y, j ∈ l2 → bs !! j = Some y → refcnt y = 0 → tm' ≤ time y)).
Proof.
  induction l as [|a l IH]; intros tm b tm' b' H; simpl in H.
  { injection H as <- <-. left. split_and!; try done.
    intros j y Hj. by apply elem_of_nil in Hj. }
  destruct (bs !! a) as [x|] eqn:Ha; [|discriminate].
  destruct ((dev x =? dv) && (blockno x =? bn)) eqn:Hid; [discriminate|].
  destruct ((refcnt x =? 0) && (time x <? tm)) eqn:Hfree.
  - apply free_test in Hfree as [Hr Ht].
    destruct (IH _ _ _ _ H) as [(-> & -> & Hrest)|
      (c & z & l1 & l2 & -> & -> & Hc & Hcr & Hct & Hlt & Hb & Ha')].
    + right. exists a, x, [], l. split_and!; try done.
      intros j y Hj. by apply elem_of_nil in Hj.
    + right. exists c, z, (a :: l1), l2. split_and!; try done; [lia|].
      intros j y Hj Hy Hyr. apply elem_of_cons in Hj as [->|Hj]; [|eauto].
      assert (y = x) as -> by congruence. lia.
  - assert (refcnt x = 0 → tm ≤ time x) as Hx.
    { intros Hr. destruct (Z.lt_ge_cases (time x) tm) as [Hlt|]; [|done].
      assert ((refcnt x =? 0) && (time x <? tm) = true) by (by apply free_test).
      congruence. }
    destruct (IH _ _ _ _ H) as [(-> & -> & Hrest)|
      (c & z & l1 & l2 & -> & -> & Hc & Hcr & Hct & Hlt & Hb & Ha')].
    + left. split_and!; try done. intros j y Hj Hy Hyr.
      apply elem_of_cons in Hj as [->|Hj]; [|eauto].
      assert (y = x) as -> by congruence. auto.
    + right. exists c, z, (a :: l1), l2. split_and!; try done.
      intros j y Hj Hy Hyr. apply elem_of_cons in Hj as [->|Hj]; [|eauto].
      assert (y = x) as -> by congruence. specialize (Hx Hyr). lia.
Qed.

(** The same for the walk over the array. *)
Lemma scan_all_lru bs : ∀ i0 tm b tm' b',
  scan_all bs i0 tm b = (tm', b') →
  (b' = b ∧ tm' = tm ∧
     ∀ j y, bs !! j = Some y → refcnt y = 0 → tm ≤ time y)
  ∨ (∃ c x, b' = Some (i0 + c)%nat ∧ bs !! c = Some x ∧
       refcnt x = 0 ∧ time x = tm' ∧ tm' < tm ∧
       ∀ j y, bs !! j = Some y → refcnt y = 0 →
         tm' ≤ time y ∧ ((j < c)%nat → tm' < time y)).
Proof.
  induction bs as [|x bs IH]; intros i0 tm b tm' b' H; simpl in H.
  { injection H as <- <-. left. split_and!; try done. }
  destruct ((refcnt x =? 0) && (time x <? tm)) eqn:Hfree.
  - apply free_test in Hfree as [Hr Ht].
    destruct (IH _ _ _ _ _ H) as [(-> & -> & Hrest)|
      (c & z & -> & Hc & Hcr & Hct & Hlt & Hmin)].
    + right. exists 0%nat, x. rewrite Nat.add_0_r. split_and!; try done.
      intros j y Hy Hyr. destruct j as [|j]; simpl in Hy.
      * injection Hy as <-. split; lia.
      * split; [eauto|lia].
    + right. exists (S c), z. replace (i0 + S c)%nat with (S i0 + c)%nat by lia.
      split_and!; try done; [lia|].
      intros j y Hy Hyr. destruct j as [|j]; simpl in Hy.
      * injection Hy as <-. split; lia.
      * destruct (Hmin j y Hy Hyr) as [H1 H2]. split; [done|].
        intros Hj. apply H2. lia.
  - assert (refcnt x = 0 → tm ≤ time x) as Hx.
    { intros Hr. destruct (Z.lt_ge_cases (time x) tm) as [Hlt|]; [|done].
      assert ((refcnt x =? 0) && (time x <? tm) = true) by (by apply free_test).
      congruence. }
    destruct (IH _ _ _ _ _ H) as [(-> & -> & Hrest)|
      (c & z & -> & Hc & Hcr & Hct & Hlt & Hmin)].
    + left. split_and!; try done. intros j y Hy Hyr.
      destruct j as [|j]; simpl in Hy; [injection Hy as <-; auto|eauto].
    + right. exists (S c), z. replace (i0 + S c)%nat with (S i0 + c)%nat by lia.
      split_and!; try done.
      intros j y Hy Hyr. destruct j as [|j]; simpl in Hy.
      * injection Hy as <-. specialize (Hx Hyr). split; lia.
      * destruct (Hmin j y Hy Hyr) as [H1 H2]. split; [done|].
        intros Hj. apply H2. lia.
Qed.

Lemma unlink_Some b l l' :
  unlink b l = Some l' →
  ∃ l1 l2, l = l1 ++ b :: l2 ∧ l' = l1 ++ l2 ∧ b ∉ l1.
Proof.
  revert l'. induction l as [|p l IH]; intros l' H; simpl in H; [discriminate|].
  destruct (Nat.eqb p b) eqn:Hpb.
  - apply Nat.eqb_eq in Hpb as ->. injection H as <-.
    exists [], l. split_and!; try done. apply not_elem_of_nil.
  - apply Nat.eqb_neq in Hpb.
    destruct (unlink b l) as [l0|]; [|discriminate]. injection H as <-.
    destruct (IH _ eq_refl) as (l1 & l2 & -> & -> & Hb).
    exists (p :: l1), l2. split_and!; try done.
    rewrite not_elem_of_cons. auto.
Qed.

Lemma unlink_elem b l : b ∈ l → is_Some (unlink b l).
Proof.
  induction l as [|p l IH]; intros H; [by apply elem_of_nil in H|]. simpl.
  destruct (Nat.eqb p b) eqn:Hpb; [eauto|].
  apply Nat.eqb_neq in Hpb. apply elem_of_cons in H as [->|H]; [done|].
  destruct (IH H) as [l' ->]. eauto.
Qed.

(** ** Locks in a call that runs alone *)

Lemma bind_Ok {A B} (a : A) (f : A → result B) : (Ok a ≫= f) = f a.
Proof. reflexivity. Qed.

Lemma shard_lt bn : (shard bn < Z.to_nat N)%nat.
Proof.
  unfold shard, N. pose proof (Z.mod_pos_bound bn 13). lia.
Qed.

Lemma quiescent_bucket c k :
  quiescent c → (k < Z.to_nat N)%nat → bucket_lock c !! k = Some None.
Proof. intros [_ ->] Hk. by apply lookup_replicate_2. Qed.

Lemma locks_restore_1 (p : nat) n k :
  <[k:=None]> (<[k:=Some p]> (replicate n None)) = replicate n None.
Proof. by rewrite list_insert_insert_eq, insert_replicate. Qed.

Lemma locks_restore_2 (p : nat) n k k' :
  k ≠ k' →
  <[k:=None]> (<[k':=None]> (<[k':=Some p]> (<[k:=Some p]> (replicate n None))))
  = replicate n None.
Proof.
  intros Hk. rewrite list_insert_insert_eq.
  rewrite (list_insert_insert_ne _ k' k) by done.
  by rewrite list_insert_insert_eq, !insert_replicate.
Qed.

Lemma acquire_bucket_ok c k pid :
  bucket_lock c !! k = Some None →
  acquire (Bucket k) pid c
  = Ok (set_bucket_lock (<[k := Some pid]> (bucket_lock c)) c).
Proof. intros H. unfold acquire. by rewrite H. Qed.

Lemma acquire_bcache_ok c pid :
  bcache_lock c = None →
  acquire Bcache pid c = Ok (set_bcache_lock (Some pid) c).
Proof. intros H. unfold acquire. by rewrite H. Qed.

Lemma globalfind_eq fuel pid dv bn tm b c :
  globalfind fuel pid dv bn tm b c =
  match scan_all (bufs c) 0 tm b with
  | (_, None) => Panic "bget: no buffers"
  | (_, Some b) =>
      bno ← blockno_at b c;
      let no2 := shard bno in
      c ← acquire (Bucket no2) pid c;
      r ← refcnt_at b c;
      if negb (r =? 0)
      then
        let c := release (Bucket no2) c in
        match fuel with
        | O => OutOfFuel
        | S fuel' => globalfind fuel' pid dv bn UINT_MAX (Some b) c
        end
      else migrate dv bn (shard bn) no2 b c
  end.
Proof. by destruct fuel. Qed.

(** ** What [bget] does, case by case *)

Lemma cache_ext c1 c2 :
  bcache_lock c1 = bcache_lock c2 → bufs c1 = bufs c2 →
  bucket_lock c1 = bucket_lock c2 → heads c1 = heads c2 →
  disk c1 = disk c2 → io c1 = io c2 → c1 = c2.
Proof. destruct c1, c2. cbn. by intros -> -> -> -> -> ->. Qed.

(** Field by field, through the updates. *)
Ltac fields :=
  cbn [bcache_lock bufs bucket_lock heads disk io
       set_bcache_lock set_bufs set_bucket_lock set_heads
       upd release releasesleep].

Lemma cache_eta c :
  Cache (bcache_lock c) (bufs c) (bucket_lock c) (heads c) (disk c) (io c) = c.
Proof. by destruct c. Qed.

Lemma bget_locked_cases fuel pid dv bn c :
  quiescent c → linked c →
  bget_case dv bn c (bget_locked fuel pid dv bn c).
Proof.
  intros Hq Hl. pose proof (shard_lt bn) as Hno.
  destruct (lookup_lt_is_Some_2 (heads c) (shard bn)) as [l Hchain].
  { by rewrite (linked_len _ Hl). }
  unfold bget_locked.
  rewrite acquire_bucket_ok by (by apply quiescent_bucket).
  rewrite bind_Ok. unfold chain at 1. cbn [heads set_bucket_lock].
  rewrite Hchain, bind_Ok. cbn [bufs set_bucket_lock].
  destruct (scan_bucket (bufs c) dv bn l UINT_MAX None) as [i|tm b|] eqn:Hscan.
  - (* the block is cached *)
    destruct (scan_bucket_hit _ _ _ _ _ _ _ Hscan)
      as (l1 & l2 & x & -> & Hx & Hid & Hbefore).
    replace (release _ _) with (upd i refcnt_inc c).
    { by eapply case_hit. }
    destruct Hq as [Hq1 Hq2]. apply cache_ext; fields; try done.
    by rewrite Hq2, locks_restore_1.
  - pose proof (scan_bucket_miss _ _ _ _ _ _ _ _ Hscan) as Hnoid.
    destruct (scan_bucket_lru _ _ _ _ _ _ _ _ Hscan)
      as [(-> & -> & Hnone)|
          (b0 & x & l1 & l2 & -> & -> & Hx & Hxr & <- & Hlt & Hb & Ha)].
    + (* nothing to recycle on the chain: the global walk *)
      destruct Hq as [Hq1 Hq2].
      rewrite acquire_bcache_ok, bind_Ok by done.
      rewrite globalfind_eq. cbn [bufs set_bcache_lock set_bucket_lock].
      destruct (scan_all (bufs c) 0 UINT_MAX None) as [tm' b'] eqn:Hall.
      destruct (scan_all_lru _ _ _ _ _ _ Hall)
        as [(-> & -> & Hallnone)|(b0 & x & -> & Hx & Hxr & <- & Hlt & Hmin)].
      { eapply case_panic; eauto.
        intros j y Hj Hy. destruct (Hnoid j Hj) as (y' & Hy' & Hn). congruence. }
      cbn [Nat.add].
      destruct (linked_all _ Hl _ _ Hx) as (l2 & Hl2 & Hb0).
      assert (shard (blockno x) ≠ shard bn) as Hne.
      { intros Heq. rewrite Heq, Hchain in Hl2. injection Hl2 as <-.
        specialize (Hnone _ _ Hb0 Hx Hxr). lia. }
      unfold blockno_at. cbn [bufs set_bcache_lock set_bucket_lock].
      rewrite Hx, bind_Ok. cbv zeta.
      rewrite acquire_bucket_ok.
      2:{ cbn [bucket_lock set_bcache_lock set_bucket_lock].
          rewrite list_lookup_insert_ne by done.
          rewrite Hq2. apply lookup_replicate_2, shard_lt. }
      rewrite bind_Ok. unfold refcnt_at.
      cbn [bufs set_bcache_lock set_bucket_lock].
      rewrite Hx, bind_Ok, Hxr. cbn [Z.eqb negb].
      unfold migrate, chain.
      cbn [heads bufs bucket_lock set_bcache_lock set_bucket_lock].
      rewrite Hl2, bind_Ok.
      destruct (unlink_elem _ _ Hb0) as [l2' Hun]. rewrite Hun.
      destruct (unlink_Some _ _ _ Hun) as (l1a & l1b & -> & -> & Hnotin).
      cbn [release set_heads heads bufs bucket_lock set_bcache_lock
           set_bucket_lock].
      rewrite list_lookup_insert_ne by done. rewrite Hchain, bind_Ok.
      match goal with |- bget_case _ _ _ (Ok (?c', _)) =>
        replace c' with
          (upd b0 (claim dv bn)
             (relinked (shard bn) (shard (blockno x)) b0 l (l1a ++ l1b) c))
      end.
      { eapply case_global; eauto.
        intros j y Hj Hy. destruct (Hnoid j Hj) as (y' & Hy' & Hn). congruence. }
      apply cache_ext; unfold relinked; fields; try done.
      by rewrite Hq2, locks_restore_2.
    + (* a slot of the chain is recycled *)
      replace (release _ _) with (upd b0 (claim dv bn) c).
      { eapply case_local; eauto.
        intros j y Hj Hy. destruct (Hnoid j Hj) as (y' & Hy' & Hn). congruence. }
      destruct Hq as [Hq1 Hq2]. apply cache_ext; fields; try done.
      by rewrite Hq2, locks_restore_1.
  - exfalso. eapply scan_bucket_not_wild; [|exact Hscan].
    intros j Hj. destruct (linked_shard _ Hl _ _ _ Hchain Hj) as (y & -> & _).
    eauto.
Qed.

(** ** The other calls, run alone *)

Lemma upd_upd i f g c : upd i f (upd i g c) = upd i (f ∘ g) c.
Proof.
  unfold upd, set_bufs. cbn. by rewrite list_alter_alter_eq.
Qed.

Lemma brelse_eq pid i ticks c b :
  quiescent c → bufs c !! i = Some b →
  brelse pid i ticks c =
  if holdingsleep pid b
  then Ok (upd i (stamp ticks ∘ refcnt_dec ∘ set_lock None) c)
  else Panic "brelse".
Proof.
  intros Hq Hb. unfold brelse. rewrite Hb.
  destruct (holdingsleep pid b); [|done]. cbn [negb].
  rewrite acquire_bucket_ok
    by (apply (quiescent_bucket (releasesleep i c)); [done|apply shard_lt]).
  rewrite bind_Ok. destruct Hq as [Hq1 Hq2].
  f_equal. apply cache_ext; fields; try done.
  - by rewrite !list_alter_alter_eq.
  - by rewrite Hq2, locks_restore_1.
Qed.

Lemma bpin_eq pid i c b :
  quiescent c → bufs c !! i = Some b →
  bpin pid i c = Ok (upd i refcnt_inc c).
Proof.
  intros Hq Hb. unfold bpin. rewrite Hb.
  rewrite acquire_bucket_ok by (apply quiescent_bucket; [done|apply shard_lt]).
  rewrite bind_Ok. destruct Hq as [Hq1 Hq2].
  f_equal. apply cache_ext; fields; try done.
  by rewrite Hq2, locks_restore_1.
Qed.

Lemma bunpin_eq pid i c b :
  quiescent c → bufs c !! i = Some b →
  bunpin pid i c = Ok (upd i refcnt_dec c).
Proof.
  intros Hq Hb. unfold bunpin. rewrite Hb.
  rewrite acquire_bucket_ok by (apply quiescent_bucket; [done|apply shard_lt]).
  rewrite bind_Ok. destruct Hq as [Hq1 Hq2].
  f_equal. apply cache_ext; fields; try done.
  by rewrite Hq2, locks_restore_1.
Qed.

Lemma bwrite_eq pid i c b :
  bufs c !! i = Some b →
  bwrite pid i c =
  if holdingsleep pid b
  then Ok (Cache (bcache_lock c) (bufs c) (bucket_lock c) (heads c)
             ((dev b, blockno b, data b) :: disk c)
             (io c ++ [DiskWrite i (dev b) (blockno b) (data b)]))
  else Panic "bwrite".
Proof.
  intros Hb. unfold bwrite, virtio_disk_rw. rewrite Hb.
  by destruct (holdingsleep pid b).
Qed.

Lemma acquiresleep_eq pid i c b :
  bufs c !! i = Some b →
  acquiresleep pid i c =
  match lock b with
  | None => Ok (upd i (set_lock (Some pid)) c)
  | Some _ => Waits (Sleeplock i)
  end.
Proof. intros Hb. unfold acquiresleep, acquire. by rewrite Hb. Qed.

Lemma bread_tail_eq i c b :
  bufs c !! i = Some b →
  bread_tail i c =
  if valid b =? 0
  then Ok (Cache (bcache_lock c) (alter (filled (disk c)) i (bufs c))
             (bucket_lock c) (heads c) (disk c)
             (io c ++ [DiskRead i (dev b) (blockno b)]), i)
  else Ok (c, i).
Proof.
  intros Hb. unfold bread_tail, virtio_disk_rw. rewrite Hb.
  destruct (valid b =? 0); [|done]. rewrite bind_Ok.
  unfold upd, set_bufs. cbn. rewrite list_alter_alter_eq.
  do 2 f_equal. f_equal. apply list_alter_ext; [|done].
  intros x Hx. assert (x = b) as -> by congruence. done.
Qed.

(** ** Order on a chain *)

Lemma before_elem l i j : before l i j → i ∈ l ∧ j ∈ l.
Proof.
  induction l as [|a l IH]; simpl; [done|].
  intros [[-> Hj]|H].
  - split; [by left|by right].
  - destruct (IH H). split; by right.
Qed.

Lemma before_neq l i j : NoDup l → before l i j → i ≠ j.
Proof.
  induction l as [|a l IH]; simpl; [done|].
  intros Hnd [[-> Hj]|H].
  - apply NoDup_cons in Hnd as [Ha _]. intros ->. done.
  - apply NoDup_cons in Hnd as [_ Hnd]. auto.
Qed.

Lemma before_app_drop l1 l2 b i j :
  before (l1 ++ l2) i j → before (l1 ++ b :: l2) i j.
Proof.
  induction l1 as [|a l1 IH]; simpl.
  - intros H. by right.
  - intros [[-> Hj]|H]; [left|right; auto].
    split; [done|]. apply elem_of_app in Hj as [Hj|Hj]; apply elem_of_app.
    + by left.
    + right. by right.
Qed.

Lemma before_split l1 l2 i p :
  NoDup (l1 ++ i :: l2) → before (l1 ++ i :: l2) p i → p ∈ l1.
Proof.
  induction l1 as [|a l1 IH]; simpl.
  - intros Hnd [[-> Hj]|H].
    + apply NoDup_cons in Hnd as [Hi _]. done.
    + apply NoDup_cons in Hnd as [Hi _]. apply before_elem in H as [_ H]. done.
  - intros Hnd [[-> Hj]|H]; [by left|].
    apply NoDup_cons in Hnd as [_ Hnd]. right. auto.
Qed.

(** ** The chains partition the slots *)

Lemma linked_unique c k k' l l' i :
  linked c → heads c !! k = Some l → i ∈ l →
  heads c !! k' = Some l' → i ∈ l' → k = k' ∧ l = l'.
Proof.
  intros Hl Hk Hi Hk' Hi'.
  destruct (linked_shard _ Hl _ _ _ Hk Hi) as (b & Hb & <-).
  destruct (linked_shard _ Hl _ _ _ Hk' Hi') as (b' & Hb' & <-).
  assert (b' = b) as -> by congruence. split; [done|congruence].
Qed.

Lemma linked_ext c c' :
  heads c' = heads c →
  (∀ i, blockno <$> bufs c' !! i = blockno <$> bufs c !! i) →
  linked c → linked c'.
Proof.
  intros Hh Hb [H1 H2 H3 H4]. split; rewrite ?Hh; try done.
  - intros k l i Hk Hi. destruct (H3 _ _ _ Hk Hi) as (b & Hbi & Hs).
    specialize (Hb i). rewrite Hbi in Hb.
    destruct (bufs c' !! i) as [b'|]; [|done]. injection Hb as Hb.
    exists b'. split; [done|congruence].
  - intros i b' Hb'. specialize (Hb i). rewrite Hb' in Hb.
    destruct (bufs c !! i) as [b|] eqn:Hbi; [|done]. injection Hb as Hb.
    rewrite Hb. eauto.
Qed.

Lemma lookup_upd i j f c :
  bufs (upd i f c) !! j
  = if decide (i = j) then f <$> bufs c !! j else bufs c !! j.
Proof.
  unfold upd. cbn. destruct (decide (i = j)) as [->|Hne].
  - apply list_lookup_alter_eq.
  - by apply list_lookup_alter_ne.
Qed.

Lemma struct_upd i f c :
  (∀ x, blockno (f x) = blockno x) → struct_inv c → struct_inv (upd i f c).
Proof.
  intros Hf [Hq Hl]. split; [done|].
  eapply linked_ext; [| |exact Hl]; [done|].
  intros j. rewrite lookup_upd. destruct (decide (i = j)); [|done].
  destruct (bufs c !! j); [|done]. cbn. by rewrite Hf.
Qed.

Lemma linked_claim_local dv bn b l c :
  linked c → heads c !! shard bn = Some l → b ∈ l →
  linked (upd b (claim dv bn) c).
Proof.
  intros Hl Hchain Hb. pose proof Hl as [H1 H2 H3 H4]. split; try done.
  - intros k l' i Hk Hi. rewrite lookup_upd.
    destruct (H3 _ _ _ Hk Hi) as (x & Hx & Hs).
    destruct (decide (b = i)) as [->|Hne]; [|eauto].
    rewrite Hx. cbn. eexists. split; [done|]. cbn.
    by destruct (linked_unique _ _ _ _ _ _ Hl Hchain Hb Hk Hi).
  - intros i x. rewrite lookup_upd.
    destruct (decide (b = i)) as [->|Hne]; [|eauto].
    destruct (bufs c !! i) as [y|]; [|done]. cbn. intros [= <-]. cbn. eauto.
Qed.

Lemma linked_claim_global dv bn b x l l1 l2 c :
  linked c →
  heads c !! shard bn = Some l →
  bufs c !! b = Some x →
  shard (blockno x) ≠ shard bn →
  heads c !! shard (blockno x) = Some (l1 ++ b :: l2) →
  linked (upd b (claim dv bn)
            (relinked (shard bn) (shard (blockno x)) b l (l1 ++ l2) c)).
Proof.
  intros Hl Hchain Hx Hne Hsrc. pose proof Hl as [H1 H2 H3 H4].
  set (no := shard bn) in *. set (no2 := shard (blockno x)) in *.
  assert (b ∉ l) as Hbl.
  { intros Hb. assert (b ∈ l1 ++ b :: l2) as Hb'
      by (apply elem_of_app; right; by left).
    by destruct (linked_unique _ _ _ _ _ _ Hl Hchain Hb Hsrc Hb'). }
  pose proof (H2 _ _ Hsrc) as Hnd.
  apply NoDup_app in Hnd as (Hnd1 & Hnd12 & Hnd2).
  apply NoDup_cons in Hnd2 as [Hb2 Hnd2].
  assert (b ∉ l1 ++ l2) as Hb12.
  { rewrite elem_of_app. intros [Hb|Hb]; [|done].
    apply (Hnd12 _ Hb). by left. }
  assert (∀ k l', <[no := b :: l]> (<[no2 := l1 ++ l2]> (heads c)) !! k = Some l' →
            (k = no ∧ l' = b :: l) ∨ (k = no2 ∧ l' = l1 ++ l2)
            ∨ (k ≠ no ∧ k ≠ no2 ∧ heads c !! k = Some l')) as Hcases.
  { intros k l' Hk. destruct (decide (k = no)) as [->|Hk1].
    - rewrite list_lookup_insert_eq in Hk
        by (rewrite length_insert, H1; apply shard_lt).
      left. split; congruence.
    - rewrite list_lookup_insert_ne in Hk by done.
      destruct (decide (k = no2)) as [->|Hk2].
      + rewrite list_lookup_insert_eq in Hk by (rewrite H1; apply shard_lt).
        right; left. split; congruence.
      + rewrite list_lookup_insert_ne in Hk by done. auto. }
  split.
  - cbn. by rewrite !length_insert.
  - intros k l' Hk. destruct (Hcases _ _ Hk) as
      [[-> ->]|[[-> ->]|(_ & _ & Hold)]]; [| |eauto].
    + apply NoDup_cons. split; [done|eauto].
    + apply NoDup_app. split_and!; try done.
      intros i Hi Hi'. apply (Hnd12 _ Hi). by right.
  - intros k l' i Hk Hi. rewrite lookup_upd.
    destruct (decide (b = i)) as [<-|Hbi].
    + cbn. rewrite Hx. cbn. eexists. split; [done|]. cbn.
      destruct (Hcases _ _ Hk) as [[-> ->]|[[-> ->]|(Hk1 & Hk2 & Hold)]];
        try done.
      by destruct (linked_unique _ _ _ _ _ _ Hl Hold Hi Hsrc
                     ltac:(apply elem_of_app; right; by left)).
    + cbn. destruct (Hcases _ _ Hk) as [[-> ->]|[[-> ->]|(Hk1 & Hk2 & Hold)]].
      * apply elem_of_cons in Hi as [->|Hi]; [done|]. eauto.
      * apply (H3 _ (l1 ++ b :: l2)); [done|].
        apply elem_of_app in Hi as [Hi|Hi]; apply elem_of_app; [by left|].
        right. by right.
      * eauto.
  - intros i y. rewrite lookup_upd.
    unfold upd, relinked, set_heads, set_bufs. cbn [heads bufs].
    destruct (decide (b = i)) as [<-|Hbi].
    + rewrite Hx. cbn. intros [= <-]. cbn. exists (b :: l).
      split; [|by left].
      apply list_lookup_insert_eq. rewrite length_insert, H1. apply shard_lt.
    + intros Hy. destruct (H4 _ _ Hy) as (l' & Hl' & Hi).
      destruct (decide (shard (blockno y) = no)) as [Hk1|Hk1].
      * rewrite Hk1 in *. exists (b :: l).
        rewrite list_lookup_insert_eq
          by (rewrite length_insert, H1; apply shard_lt).
        split; [done|]. right. congruence.
      * rewrite list_lookup_insert_ne by done.
        destruct (decide (shard (blockno y) = no2)) as [Hk2|Hk2].
        -- rewrite Hk2 in *. exists (l1 ++ l2).
           rewrite list_lookup_insert_eq by (rewrite H1; apply shard_lt).
           split; [done|]. assert (l' = l1 ++ b :: l2) as -> by congruence.
           apply elem_of_app in Hi as [Hi|Hi]; apply elem_of_app; [by left|].
           apply elem_of_cons in Hi as [->|Hi]; [done|by right].
        -- rewrite list_lookup_insert_ne by done. eauto.
Qed.

Lemma bget_locked_struct fuel pid dv bn c c' i :
  struct_inv c → bget_locked fuel pid dv bn c = Ok (c', i) → struct_inv c'.
Proof.
  intros [Hq Hl] H. pose proof (bget_locked_cases fuel pid dv bn c Hq Hl) as Hc.
  rewrite H in Hc. inversion Hc; subst.
  - by apply struct_upd.
  - split; [done|]. eapply linked_claim_local; eauto.
    apply elem_of_app. right. by left.
  - split; [done|]. by eapply linked_claim_global.
Qed.

(** ** binit *)

Lemma binit_loop_bufs n : ∀ i j c,
  length (bufs (binit_loop n i j c)) = length (bufs c)
  ∧ bucket_lock (binit_loop n i j c) = bucket_lock c
  ∧ bcache_lock (binit_loop n i j c) = bcache_lock c
  ∧ (Forall fresh (bufs c) → Forall fresh (bufs (binit_loop n i j c))).
Proof.
  induction n as [|n IH]; intros i j c; simpl; [done|].
  destruct (IH (S i) ((j + 1) mod N)
              (push_head (Z.to_nat j) i (upd i (set_blockno j) c)))
    as (H1 & H2 & H3 & H4).
  rewrite H1, H2, H3. unfold push_head, upd. cbn. rewrite length_alter.
  split_and!; try done. intros Hf. apply H4. cbn.
  apply Forall_lookup. intros m b. rewrite list_lookup_alter.
  destruct (decide (i = m)) as [->|Hne].
  - destruct (bufs c !! m) as [x|] eqn:Hx; [|done]. cbn. intros [= <-].
    by apply (Forall_lookup_1 _ _ _ _ Hf Hx).
  - intros Hb. by apply (Forall_lookup_1 _ _ _ _ Hf Hb).
Qed.

Lemma shard_small j : 0 ≤ j < N → shard j = Z.to_nat j.
Proof. intros Hj. unfold shard. by rewrite Z.mod_small. Qed.

Lemma linked_below_step i j c :
  0 ≤ j < N → (i < length (bufs c))%nat →
  linked_below i c →
  linked_below (S i) (push_head (Z.to_nat j) i (upd i (set_blockno j) c)).
Proof.
  intros Hj Hi [H1 H2 H3 H4].
  assert (Z.to_nat j < length (heads c))%nat as Hjlen by (rewrite H1; unfold N in *; lia).
  destruct (lookup_lt_is_Some_2 _ _ Hjlen) as [lj Hlj].
  destruct (lookup_lt_is_Some_2 _ _ Hi) as [x Hx].
  assert (∀ k l, alter (cons i) (Z.to_nat j) (heads c) !! k = Some l →
            (k = Z.to_nat j ∧ l = i :: lj)
            ∨ (k ≠ Z.to_nat j ∧ heads c !! k = Some l)) as Hcases.
  { intros k l. rewrite list_lookup_alter.
    destruct (decide (Z.to_nat j = k)) as [<-|Hne]; [|auto].
    rewrite Hlj. cbn. intros [= <-]. auto. }
  assert (∀ k l, heads c !! k = Some l → i ∉ l) as Hfresh.
  { intros k l Hk Hil. destruct (H3 _ _ _ Hk Hil) as [? _]. lia. }
  split.
  - cbn. by rewrite length_alter.
  - cbn. intros k l Hk. destruct (Hcases _ _ Hk) as [[-> ->]|[_ Hold]]; [|eauto].
    apply NoDup_cons. split; eauto.
  - cbn [heads bufs push_head upd set_heads set_bufs]. intros k l m Hk Hm.
    rewrite list_lookup_alter.
    destruct (Hcases _ _ Hk) as [[-> ->]|[Hne Hold]].
    + apply elem_of_cons in Hm as [->|Hm].
      * split; [lia|]. rewrite decide_True by done. rewrite Hx. cbn.
        eexists. split; [done|]. cbn. by apply shard_small.
      * destruct (H3 _ _ _ Hlj Hm) as (Hlt & b & Hb & Hs).
        split; [lia|]. rewrite decide_False by lia. eauto.
    + destruct (H3 _ _ _ Hold Hm) as (Hlt & b & Hb & Hs).
      split; [lia|]. rewrite decide_False by lia. eauto.
  - cbn [heads bufs push_head upd set_heads set_bufs]. intros m b Hm.
    rewrite !list_lookup_alter.
    destruct (decide (i = m)) as [<-|Hne].
    + rewrite Hx. cbn. intros [= <-]. cbn. rewrite shard_small by done.
      rewrite decide_True by done. rewrite Hlj. cbn.
      eexists. split; [done|]. by left.
    + intros Hb. destruct (H4 m b ltac:(lia) Hb) as (l & Hl & Hml).
      destruct (decide (Z.to_nat j = shard (blockno b))) as [Heq|Hneq].
      * rewrite <- Heq in *. rewrite Hl. cbn. eexists. split; [done|].
        by right.
      * eauto.
Qed.

Lemma binit_loop_linked n : ∀ i j c,
  0 ≤ j < N → (i + n = length (bufs c))%nat →
  linked_below i c → linked_below (i + n) (binit_loop n i j c).
Proof.
  induction n as [|n IH]; intros i j c Hj Hlen Hb; simpl.
  { by rewrite Nat.add_0_r. }
  replace (i + S n)%nat with (S i + n)%nat by lia.
  apply IH.
  - apply Z.mod_pos_bound. done.
  - unfold push_head, upd. cbn. rewrite length_alter. lia.
  - apply linked_below_step; [done|lia|done].
Qed.

Lemma binit_struct NBUF : struct_inv (binit NBUF).
Proof.
  unfold binit.
  destruct (binit_loop_bufs NBUF 0 0 (zeroed NBUF)) as (Hlen & Hbl & Hcl & _).
  assert (linked_below (0 + NBUF) (binit_loop NBUF 0 0 (zeroed NBUF))) as Hb.
  { apply binit_loop_linked; [done|cbn; by rewrite length_replicate|].
    split; cbn.
    - by rewrite length_replicate.
    - intros k l Hk. apply lookup_replicate in Hk as [-> _]. constructor.
    - intros k l i Hk Hi. apply lookup_replicate in Hk as [-> _].
      by apply elem_of_nil in Hi.
    - intros i b Hi. lia. }
  destruct Hb as [H1 H2 H3 H4]. split.
  - split; [by rewrite Hcl|by rewrite Hbl].
  - split; try done.
    + intros k l i Hk Hi. by destruct (H3 _ _ _ Hk Hi).
    + intros i b Hi. apply H4; [|done]. apply lookup_lt_Some in Hi.
      rewrite Hlen in Hi. cbn in Hi. rewrite length_replicate in Hi. lia.
Qed.

Lemma binit_fresh NBUF : Forall fresh (bufs (binit NBUF)).
Proof.
  unfold binit. apply binit_loop_bufs. cbn.
  apply Forall_replicate. by unfold fresh.
Qed.

Lemma binit_length NBUF : length (bufs (binit NBUF)) = NBUF.
Proof.
  unfold binit. destruct (binit_loop_bufs NBUF 0 0 (zeroed NBUF)) as [-> _].
  cbn. apply length_replicate.
Qed.

(** ** Inversion of successful calls *)

Lemma brelse_Ok pid i ticks c c' :
  quiescent c → brelse pid i ticks c = Ok c' →
  ∃ b, bufs c !! i = Some b ∧ holdingsleep pid b = true ∧
       c' = upd i (stamp ticks ∘ refcnt_dec ∘ set_lock None) c.
Proof.
  intros Hq H. destruct (bufs c !! i) as [b|] eqn:Hb.
  - rewrite (brelse_eq _ _ _ _ _ Hq Hb) in H.
    destruct (holdingsleep pid b) eqn:Hh; [|done]. injection H as <-. eauto.
  - unfold brelse in H. by rewrite Hb in H.
Qed.

Lemma bpin_Ok pid i c c' :
  quiescent c → bpin pid i c = Ok c' →
  ∃ b, bufs c !! i = Some b ∧ c' = upd i refcnt_inc c.
Proof.
  intros Hq H. destruct (bufs c !! i) as [b|] eqn:Hb.
  - rewrite (bpin_eq _ _ _ _ Hq Hb) in H. injection H as <-. eauto.
  - unfold bpin in H. by rewrite Hb in H.
Qed.

Lemma bunpin_Ok pid i c c' :
  quiescent c → bunpin pid i c = Ok c' →
  ∃ b, bufs c !! i = Some b ∧ c' = upd i refcnt_dec c.
Proof.
  intros Hq H. destruct (bufs c !! i) as [b|] eqn:Hb.
  - rewrite (bunpin_eq _ _ _ _ Hq Hb) in H. injection H as <-. eauto.
  - unfold bunpin in H. by rewrite Hb in H.
Qed.

Lemma bwrite_Ok pid i c c' :
  bwrite pid i c = Ok c' →
  ∃ b, bufs c !! i = Some b ∧ holdingsleep pid b = true ∧
       bufs c' = bufs c ∧ heads c' = heads c ∧
       bucket_lock c' = bucket_lock c ∧ bcache_lock c' = bcache_lock c.
Proof.
  intros H. destruct (bufs c !! i) as [b|] eqn:Hb.
  - rewrite (bwrite_eq _ _ _ _ Hb) in H.
    destruct (holdingsleep pid b) eqn:Hh; [|done]. injection H as <-.
    exists b. by split_and!.
  - unfold bwrite in H. by rewrite Hb in H.
Qed.

Lemma acquiresleep_Ok pid i c c' :
  acquiresleep pid i c = Ok c' →
  ∃ b, bufs c !! i = Some b ∧ lock b = None ∧
       c' = upd i (set_lock (Some pid)) c.
Proof.
  intros H. destruct (bufs c !! i) as [b|] eqn:Hb.
  - rewrite (acquiresleep_eq _ _ _ _ Hb) in H.
    destruct (lock b) eqn:Hlk; [done|]. injection H as <-. eauto.
  - unfold acquiresleep, acquire in H. by rewrite Hb in H.
Qed.

Lemma bread_tail_Ok i c c' j :
  bread_tail i c = Ok (c', j) →
  j = i ∧ ∃ b, bufs c !! i = Some b ∧
    ((valid b = 0 ∧
      c' = Cache (bcache_lock c) (alter (filled (disk c)) i (bufs c))
             (bucket_lock c) (heads c) (disk c)
             (io c ++ [DiskRead i (dev b) (blockno b)]))
     ∨ (valid b ≠ 0 ∧ c' = c)).
Proof.
  intros H. destruct (bufs c !! i) as [b|] eqn:Hb.
  - rewrite (bread_tail_eq _ _ _ Hb) in H.
    destruct (valid b =? 0) eqn:Hv; injection H as <- <-; split; try done;
      exists b; split; try done.
    + left. split; [by apply Z.eqb_eq|done].
    + right. split; [by apply Z.eqb_neq|done].
  - unfold bread_tail in H. by rewrite Hb in H.
Qed.

(** ** The structure of the chains is an invariant of every run *)

Lemma step_struct s e s' :
  struct_inv (mem s) → step s e s' → struct_inv (mem s').
Proof.
  intros Hs Hstep. pose proof Hs as [Hq Hl].
  destruct Hstep as [fuel pid dv bn s c i H|pid i s sl c c' Hsl Ha Ht|
    pid i s c H|pid i ticks s c H|pid i s c H|pid i s c H]; cbn.
  - by eapply bget_locked_struct.
  - apply acquiresleep_Ok in Ha as (b & Hb & Hfree & ->).
    assert (struct_inv (upd i (set_lock (Some pid)) (mem s))) as Hs1
      by (by apply struct_upd).
    apply bread_tail_Ok in Ht as (_ & b' & Hb' & [[Hv ->]|[Hv ->]]); [|done].
    destruct Hs1 as [Hq1 Hl1]. split; [done|].
    eapply linked_ext; [| |exact Hl1]; [done|]. intros j. cbn.
    rewrite !list_lookup_alter. destruct (decide (i = j)) as [->|]; [|done].
    rewrite decide_True by done. by destruct (bufs (mem s) !! j).
  - apply bwrite_Ok in H as (b & Hb & Hh & H1 & H2 & H3 & H4).
    split; [destruct Hq; split; congruence|].
    eapply linked_ext; [| |exact Hl]; [done|]. intros j. by rewrite H1.
  - apply brelse_Ok in H as (b & Hb & Hh & ->); [|done].
    apply struct_upd; [|done]. intros x. unfold stamp. cbn.
    by destruct (_ =? 0).
  - apply bpin_Ok in H as (b & Hb & ->); [|done]. by apply struct_upd.
  - apply bunpin_Ok in H as (b & Hb & ->); [|done]. by apply struct_upd.
Qed.

Lemma reachable_struct NBUF s : reachable NBUF s → struct_inv (mem s).
Proof.
  induction 1 as [|s e s' _ IH Hstep]; [apply binit_struct|].
  by eapply step_struct.
Qed.

(** ** Shadowed slots are free: preservation *)

Lemma before_total l i j :
  i ∈ l → j ∈ l → i ≠ j → before l i j ∨ before l j i.
Proof.
  induction l as [|a l IH]; intros Hi Hj Hne; [by apply elem_of_nil in Hi|].
  apply elem_of_cons in Hi as [->|Hi]; apply elem_of_cons in Hj as [->|Hj];
    simpl; try done; auto.
  destruct (IH Hi Hj Hne); auto.
Qed.

Lemma same_id_sym x y : same_id x y → same_id y x.
Proof. intros [? ?]. split; congruence. Qed.

Lemma same_id_trans x y z : same_id x y → same_id y z → same_id x z.
Proof. intros [? ?] [? ?]. split; congruence. Qed.

Lemma no_shadow c i x :
  chains_first_live c → bufs c !! i = Some x → refcnt x ≠ 0 →
  ∀ k l p z, heads c !! k = Some l → before l p i →
    bufs c !! p = Some z → ¬ same_id z x.
Proof.
  intros Hfl Hx Hr k l p z Hk Hb Hz Hid.
  apply Hr. by eapply (Hfl k l Hk p i z x).
Qed.

Lemma no_shadow_hit c dv bn i x l1 l2 :
  linked c →
  heads c !! shard bn = Some (l1 ++ i :: l2) →
  bufs c !! i = Some x → is_id dv bn x →
  (∀ j y, j ∈ l1 → bufs c !! j = Some y → ¬ is_id dv bn y) →
  ∀ k l p z, heads c !! k = Some l → before l p i →
    bufs c !! p = Some z → ¬ same_id z x.
Proof.
  intros Hl Hchain Hx Hid Hbefore k l p z Hk Hb Hz Hsame.
  pose proof (before_elem _ _ _ Hb) as [_ Hil].
  assert (i ∈ l1 ++ i :: l2) as Hi by (apply elem_of_app; right; by left).
  destruct (linked_unique _ _ _ _ _ _ Hl Hk Hil Hchain Hi) as [-> ->].
  apply before_split in Hb; [|by eapply linked_nodup].
  apply (Hbefore _ _ Hb Hz). destruct Hid, Hsame. split; congruence.
Qed.

Lemma first_live_upd c i f x :
  linked c → chains_first_live c →
  bufs c !! i = Some x → same_id (f x) x →
  (refcnt (f x) = 0 ∨
   ∀ k l p z, heads c !! k = Some l → before l p i →
     bufs c !! p = Some z → ¬ same_id z x) →
  chains_first_live (upd i f c).
Proof.
  intros Hl Hfl Hx Hf Hsh k l Hk p q x' y' Hb. cbn in Hk.
  pose proof (before_neq _ _ _ (linked_nodup _ Hl _ _ Hk) Hb) as Hpq.
  rewrite !lookup_upd. destruct (decide (i = q)) as [<-|Hq].
  - rewrite decide_False by done. rewrite Hx. cbn.
    intros Hp [= <-] Hsame. destruct Hsh as [H0|Hsh]; [done|].
    exfalso. eapply Hsh; eauto. by eapply same_id_trans.
  - intros Hp Hy Hsame. destruct (decide (i = p)) as [<-|Hp'].
    + rewrite Hx in Hp. cbn in Hp. injection Hp as <-.
      eapply (Hfl k l Hk i q x y'); eauto.
      eapply same_id_trans; [|done]. by apply same_id_sym.
    + by eapply (Hfl k l Hk p q x' y').
Qed.

Lemma first_live_claim_local c dv bn b l :
  linked c → chains_first_live c →
  heads c !! shard bn = Some l → b ∈ l →
  (∀ j y, j ∈ l → bufs c !! j = Some y → ¬ is_id dv bn y) →
  chains_first_live (upd b (claim dv bn) c).
Proof.
  intros Hl Hfl Hchain Hbl Hnoid k l' Hk p q x' y' Hb. cbn in Hk.
  pose proof (before_neq _ _ _ (linked_nodup _ Hl _ _ Hk) Hb) as Hpq.
  pose proof (before_elem _ _ _ Hb) as [Hp Hq].
  rewrite !lookup_upd. destruct (decide (b = q)) as [<-|Hbq].
  - rewrite decide_False by done.
    destruct (linked_unique _ _ _ _ _ _ Hl Hk Hq Hchain Hbl) as [-> ->].
    destruct (bufs c !! b) as [x|]; [|done]. cbn.
    intros Hp' [= <-] [Hd Hn]. cbn in Hd, Hn. exfalso.
    by apply (Hnoid _ _ Hp Hp').
  - destruct (decide (b = p)) as [<-|Hbp].
    + destruct (linked_unique _ _ _ _ _ _ Hl Hk Hp Hchain Hbl) as [-> ->].
      destruct (bufs c !! b) as [x|]; [|done]. cbn.
      intros [= <-] Hy [Hd Hn]. cbn in Hd, Hn. exfalso.
      by apply (Hnoid _ _ Hq Hy).
    + intros Hx Hy. by eapply (Hfl k l' Hk p q).
Qed.

Lemma relinked_lookup c no no2 b l l2 k l' :
  length (heads c) = Z.to_nat N →
  (no < Z.to_nat N)%nat → (no2 < Z.to_nat N)%nat →
  heads (relinked no no2 b l l2 c) !! k = Some l' →
  (k = no ∧ l' = b :: l) ∨ (k = no2 ∧ k ≠ no ∧ l' = l2)
  ∨ (k ≠ no ∧ k ≠ no2 ∧ heads c !! k = Some l').
Proof.
  intros Hlen Hno Hno2. unfold relinked. cbn. intros Hk.
  destruct (decide (k = no)) as [->|Hk1].
  - rewrite list_lookup_insert_eq in Hk by (rewrite length_insert; lia).
    left. split; congruence.
  - rewrite list_lookup_insert_ne in Hk by done.
    destruct (decide (k = no2)) as [->|Hk2].
    + rewrite list_lookup_insert_eq in Hk by lia.
      right; left. split_and!; congruence.
    + rewrite list_lookup_insert_ne in Hk by done. auto.
Qed.

Lemma first_live_claim_global c dv bn b x l l1 l2 :
  linked c → chains_first_live c →
  heads c !! shard bn = Some l →
  (∀ j y, j ∈ l → bufs c !! j = Some y → ¬ is_id dv bn y) →
  bufs c !! b = Some x →
  shard (blockno x) ≠ shard bn →
  heads c !! shard (blockno x) = Some (l1 ++ b :: l2) →
  chains_first_live
    (upd b (claim dv bn)
       (relinked (shard bn) (shard (blockno x)) b l (l1 ++ l2) c)).
Proof.
  intros Hl Hfl Hchain Hnoid Hx Hne Hsrc k l' Hk p q x' y' Hb.
  assert (b ∈ l1 ++ b :: l2) as Hbsrc by (apply elem_of_app; right; by left).
  assert (b ∉ l) as Hbl.
  { intros Hb'.
    by destruct (linked_unique _ _ _ _ _ _ Hl Hchain Hb' Hsrc Hbsrc). }
  pose proof (linked_nodup _ Hl _ _ Hsrc) as Hnd.
  assert (b ∉ l1 ++ l2) as Hb12.
  { apply NoDup_app in Hnd as (Hnd1 & Hnd12 & Hnd2).
    apply NoDup_cons in Hnd2 as [Hb2 Hnd2].
    rewrite elem_of_app. intros [Hb'|Hb']; [|done].
    apply (Hnd12 _ Hb'). by left. }
  pose proof (before_elem _ _ _ Hb) as [Hp Hq].
  rewrite !lookup_upd. cbn [bufs relinked set_heads].
  apply relinked_lookup in Hk
    as [[-> ->]|[(-> & _ & ->)|(Hk1 & Hk2 & Hold)]];
    [| | |by apply (linked_len _ Hl)|apply shard_lt..].
  - (* the target chain, with [b] at its head *)
    simpl in Hb. destruct Hb as [[<- Hql]|Hb].
    + rewrite decide_True by done. rewrite decide_False
        by (intros <-; done).
      rewrite Hx. cbn. intros [= <-] Hy [Hd Hn]. cbn in Hd, Hn.
      exfalso. by apply (Hnoid _ _ Hql Hy).
    + pose proof (before_elem _ _ _ Hb) as [Hp' Hq'].
      rewrite !decide_False by (intros <-; done).
      intros Hx' Hy'. by eapply (Hfl _ l Hchain p q).
  - (* the source chain, without [b] *)
    rewrite !decide_False by (intros <-; done).
    intros Hx' Hy'. eapply (Hfl _ _ Hsrc p q); eauto.
    by apply before_app_drop.
  - (* any other chain *)
    assert (∀ m, m ∈ l' → b ≠ m) as Hother.
    { intros m Hm <-.
      by destruct (linked_unique _ _ _ _ _ _ Hl Hold Hm Hsrc Hbsrc). }
    rewrite !decide_False by auto.
    intros Hx' Hy'. by eapply (Hfl _ _ Hold p q).
Qed.

(** ** Use counts cover the references: preservation *)

Lemma waiting_cons i p j sl :
  waiting i ((p, j) :: sl) = (if decide (j = i) then 1 else 0) + waiting i sl.
Proof.
  unfold waiting. rewrite filter_cons. cbn.
  destruct (decide (j = i)); cbn [length]; lia.
Qed.

Lemma waiting_nonneg i sl : 0 ≤ waiting i sl.
Proof. unfold waiting. lia. Qed.

Lemma same_sleeper_true x y : same_sleeper x y = true ↔ x = y.
Proof.
  unfold same_sleeper. destruct x, y. cbn.
  rewrite andb_true_iff, !Nat.eqb_eq. split; [intros [-> ->]|intros [= -> ->]]; done.
Qed.

Lemma waiting_unsleep i p j sl sl' :
  unsleep (p, j) sl = Some sl' →
  waiting i sl = (if decide (j = i) then 1 else 0) + waiting i sl'.
Proof.
  revert sl'. induction sl as [|[q m] sl IH]; intros sl' H; simpl in H;
    [discriminate|].
  destruct (same_sleeper (p, j) (q, m)) eqn:Hs.
  - apply same_sleeper_true in Hs. injection Hs as <- <-. injection H as <-.
    apply waiting_cons.
  - destruct (unsleep (p, j) sl) as [sl0|]; [|discriminate].
    injection H as <-. rewrite !waiting_cons, (IH _ eq_refl). lia.
Qed.

Lemma wrap32_small z : 0 ≤ z < 4294967296 → wrap32 z = z.
Proof. intros. unfold wrap32. by apply Z.mod_small. Qed.

Lemma fetch_refs_eq s i b :
  bufs (mem s) !! i = Some b →
  fetch_refs s i
  = match lock b with Some _ => 1 | None => 0 end + waiting i (sleepers s).
Proof. intros H. unfold fetch_refs. by rewrite H. Qed.

(** A change of slot [i] and of the sleepers that keeps the balance of
    slot [i] and leaves the other slots alone. *)
Lemma counted_upd s i f sl x :
  counted s → bufs (mem s) !! i = Some x →
  (∀ j, j ≠ i → waiting j sl = waiting j (sleepers s)) →
  0 ≤ refcnt (f x) < 4294967296 →
  match lock (f x) with Some _ => 1 | None => 0 end + waiting i sl
    ≤ refcnt (f x) →
  counted (Sys (upd i f (mem s)) sl).
Proof.
  intros Hc Hx Hsl Hr Hbal j y. cbn [mem]. intros Hy.
  unfold fetch_refs. cbn [mem sleepers]. rewrite Hy.
  rewrite lookup_upd in Hy. destruct (decide (i = j)) as [<-|Hne].
  - rewrite Hx in Hy. cbn in Hy. injection Hy as <-. done.
  - destruct (Hc _ _ Hy) as [H1 H2]. rewrite (fetch_refs_eq _ _ _ Hy) in H2.
    rewrite Hsl by done. done.
Qed.

Lemma counted_ext s s' :
  sleepers s' = sleepers s →
  (∀ i, (λ b, (lock b, refcnt b)) <$> bufs (mem s') !! i
        = (λ b, (lock b, refcnt b)) <$> bufs (mem s) !! i) →
  counted s → counted s'.
Proof.
  intros Hsl Hb Hc i y Hy. rewrite (fetch_refs_eq _ _ _ Hy), Hsl.
  specialize (Hb i). rewrite Hy in Hb.
  destruct (bufs (mem s) !! i) as [x|] eqn:Hx; [|done].
  cbn in Hb. injection Hb as Hlk Hr. rewrite Hlk, Hr.
  destruct (Hc _ _ Hx) as [H1 H2]. by rewrite (fetch_refs_eq _ _ _ Hx) in H2.
Qed.

Lemma counted_free s i x :
  counted s → bufs (mem s) !! i = Some x → refcnt x = 0 →
  lock x = None ∧ waiting i (sleepers s) = 0.
Proof.
  intros Hc Hx Hr. destruct (Hc _ _ Hx) as [_ H].
  rewrite (fetch_refs_eq _ _ _ Hx), Hr in H.
  pose proof (waiting_nonneg i (sleepers s)).
  destruct (lock x); [lia|]. split; [done|lia].
Qed.

(** ** Well-behaved runs keep the invariant *)

Lemma wb_inv_fetch fuel pid dv bn s c i :
  wb_inv s → obeys (Fetch pid dv bn) s →
  bget_locked fuel pid dv bn (mem s) = Ok (c, i) →
  wb_inv (Sys c ((pid, i) :: sleepers s)).
Proof.
  intros [Hs Hfl Hc] Hob H. pose proof Hs as [Hq Hl].
  split; [by eapply bget_locked_struct| |]; cbn [mem].
  - pose proof (bget_locked_cases fuel pid dv bn _ Hq Hl) as Hcase.
    rewrite H in Hcase. inversion Hcase; subst.
    + eapply first_live_upd; eauto; [done|]. right.
      by eapply no_shadow_hit.
    + eapply first_live_claim_local; eauto.
      apply elem_of_app. right. by left.
    + by eapply first_live_claim_global.
  - pose proof (bget_locked_cases fuel pid dv bn _ Hq Hl) as Hcase.
    rewrite H in Hcase. cbn in Hob. inversion Hcase; subst.
    + (* hit *)
      destruct (Hc _ _ H3) as [Hr Hbal].
      rewrite (fetch_refs_eq _ _ _ H3) in Hbal.
      pose proof (Forall_lookup_1 _ _ _ _ Hob H3) as Hmax. cbn in Hmax.
      unfold UINT_MAX in Hmax.
      eapply counted_upd; eauto.
      * intros j Hj. rewrite waiting_cons. rewrite decide_False by done. lia.
      * cbn. rewrite wrap32_small by lia. lia.
      * cbn. rewrite wrap32_small by lia. rewrite waiting_cons.
        rewrite decide_True by done. lia.
    + (* a slot of the chain *)
      destruct (counted_free _ _ _ Hc H4 H5) as [Hlk Hw].
      eapply counted_upd; eauto.
      * intros j Hj. rewrite waiting_cons. rewrite decide_False by done. lia.
      * cbn. lia.
      * cbn. rewrite Hlk, waiting_cons. rewrite decide_True by done. lia.
    + (* a slot of another chain *)
      destruct (counted_free _ _ _ Hc H5 H6) as [Hlk Hw].
      apply (counted_upd
               (Sys (relinked (shard bn) (shard (blockno x)) i l (l1 ++ l2)
                       (mem s)) (sleepers s)) i (claim dv bn) _ x).
      * intros j y Hy. apply (Hc j y Hy).
      * done.
      * intros j Hj. cbn [sleepers].
        rewrite waiting_cons. rewrite decide_False by done. lia.
      * cbn. lia.
      * cbn. rewrite Hlk, waiting_cons. rewrite decide_True by done. lia.
Qed.

Lemma first_live_ext c c' :
  heads c' = heads c →
  (∀ i, (λ b, (dev b, blockno b, refcnt b)) <$> bufs c' !! i
        = (λ b, (dev b, blockno b, refcnt b)) <$> bufs c !! i) →
  chains_first_live c → chains_first_live c'.
Proof.
  intros Hh Hb Hfl k l Hk p q x' y' Hbef Hx' Hy' [Hd Hn]. rewrite Hh in Hk.
  pose proof (Hb p) as Hbp. pose proof (Hb q) as Hbq.
  rewrite Hx' in Hbp. rewrite Hy' in Hbq.
  destruct (bufs c !! p) as [x|] eqn:Hx; [|done].
  destruct (bufs c !! q) as [y|] eqn:Hy; [|done].
  cbn in Hbp, Hbq. injection Hbp as Hp1 Hp2 Hp3. injection Hbq as Hq1 Hq2 Hq3.
  rewrite Hq3. eapply (Hfl k l Hk p q x y); eauto. split; congruence.
Qed.

Lemma wb_inv_wake pid i s sl c c' :
  wb_inv s →
  unsleep (pid, i) (sleepers s) = Some sl →
  acquiresleep pid i (mem s) = Ok c →
  bread_tail i c = Ok (c', i) →
  wb_inv (Sys c' sl).
Proof.
  intros Hinv Hsl Ha Ht. pose proof Hinv as [Hs Hfl Hc].
  split; cbn [mem].
  - apply (step_struct s (Wake pid i) (Sys c' sl)); [done|].
    by eapply step_wake.
  - apply acquiresleep_Ok in Ha as (b & Hb & Hfree & ->).
    apply bread_tail_Ok in Ht as (_ & b' & Hb' & [[Hv ->]|[Hv ->]]).
    + eapply first_live_ext; [| |exact Hfl]; [done|]. intros j. cbn.
      rewrite !list_lookup_alter. destruct (decide (i = j)) as [->|]; [|done].
      rewrite decide_True by done. by destruct (bufs (mem s) !! j).
    + eapply first_live_ext; [| |exact Hfl]; [done|]. intros j.
      rewrite lookup_upd. destruct (decide (i = j)) as [->|]; [|done].
      by destruct (bufs (mem s) !! j).
  - apply acquiresleep_Ok in Ha as (b & Hb & Hfree & ->).
    assert (counted (Sys (upd i (set_lock (Some pid)) (mem s)) sl)) as Hc1.
    { destruct (Hc _ _ Hb) as [Hr Hbal].
      rewrite (fetch_refs_eq _ _ _ Hb), Hfree in Hbal.
      rewrite (waiting_unsleep i _ _ _ _ Hsl) in Hbal.
      rewrite decide_True in Hbal by done.
      eapply counted_upd; eauto.
      intros j Hj. rewrite (waiting_unsleep j _ _ _ _ Hsl).
      rewrite decide_False by done. lia. }
    apply bread_tail_Ok in Ht as (_ & b' & Hb' & [[Hv ->]|[Hv ->]]); [|done].
    eapply counted_ext; [| |exact Hc1]; [done|]. intros j. cbn.
    rewrite !list_lookup_alter. destruct (decide (i = j)) as [->|]; [|done].
    rewrite decide_True by done. by destruct (bufs (mem s) !! j).
Qed.

Lemma wb_inv_flush pid i s c :
  wb_inv s → bwrite pid i (mem s) = Ok c → wb_inv (Sys c (sleepers s)).
Proof.
  intros Hinv H. pose proof Hinv as [Hs Hfl Hc]. split; cbn [mem].
  - apply (step_struct s (Flush pid i) (Sys c (sleepers s))); [done|].
    by eapply step_flush.
  - apply bwrite_Ok in H as (b & Hb & Hh & H1 & H2 & H3 & H4).
    eapply first_live_ext; [| |exact Hfl]; [done|]. intros j. by rewrite H1.
  - apply bwrite_Ok in H as (b & Hb & Hh & H1 & H2 & H3 & H4).
    eapply counted_ext; [| |exact Hc]; [done|]. intros j. cbn. by rewrite H1.
Qed.

Lemma holdingsleep_lock pid b :
  holdingsleep pid b = true → lock b = Some pid.
Proof.
  unfold holdingsleep. destruct (lock b) as [p|]; [|done].
  intros H. apply Nat.eqb_eq in H. by subst.
Qed.

Lemma stamp_refcnt t b : refcnt (stamp t b) = refcnt b.
Proof. unfold stamp. by destruct (refcnt b =? 0). Qed.

Lemma stamp_lock t b : lock (stamp t b) = lock b.
Proof. unfold stamp. by destruct (refcnt b =? 0). Qed.

Lemma stamp_same_id t b : same_id (stamp t b) b.
Proof. unfold stamp, same_id. by destruct (refcnt b =? 0). Qed.

Lemma wb_inv_release pid i ticks s c :
  wb_inv s → brelse pid i ticks (mem s) = Ok c → wb_inv (Sys c (sleepers s)).
Proof.
  intros Hinv H. pose proof Hinv as [Hs Hfl Hc]. pose proof Hs as [Hq Hl].
  split; cbn [mem].
  - apply (step_struct s (Release pid i ticks) (Sys c (sleepers s))); [done|].
    by eapply step_release.
  - apply brelse_Ok in H as (b & Hb & Hh & ->); [|done].
    apply holdingsleep_lock in Hh.
    destruct (Hc _ _ Hb) as [Hr Hbal].
    rewrite (fetch_refs_eq _ _ _ Hb), Hh in Hbal.
    pose proof (waiting_nonneg i (sleepers s)).
    eapply first_live_upd; eauto.
    + eapply same_id_trans; [apply stamp_same_id|]. done.
    + right. eapply no_shadow; eauto. lia.
  - apply brelse_Ok in H as (b & Hb & Hh & ->); [|done].
    apply holdingsleep_lock in Hh.
    destruct (Hc _ _ Hb) as [Hr Hbal].
    rewrite (fetch_refs_eq _ _ _ Hb), Hh in Hbal.
    pose proof (waiting_nonneg i (sleepers s)).
    eapply counted_upd; eauto; cbn; rewrite ?stamp_refcnt, ?stamp_lock; cbn;
      rewrite wrap32_small by lia; lia.
Qed.

Lemma wb_inv_pin pid i s c :
  wb_inv s → obeys (Pin pid i) s → bpin pid i (mem s) = Ok c →
  wb_inv (Sys c (sleepers s)).
Proof.
  intros Hinv (b' & Hb' & Hpos) H. pose proof Hinv as [Hs Hfl Hc].
  pose proof Hs as [Hq Hl]. split; cbn [mem].
  - apply (step_struct s (Pin pid i) (Sys c (sleepers s))); [done|].
    by eapply step_pin.
  - apply bpin_Ok in H as (b & Hb & ->); [|done].
    assert (b' = b) as -> by congruence.
    eapply first_live_upd; eauto; [done|].
    right. eapply no_shadow; eauto. lia.
  - apply bpin_Ok in H as (b & Hb & ->); [|done].
    assert (b' = b) as -> by congruence.
    destruct (Hc _ _ Hb) as [Hr Hbal].
    rewrite (fetch_refs_eq _ _ _ Hb) in Hbal. unfold UINT_MAX in Hpos.
    eapply counted_upd; eauto; cbn; rewrite wrap32_small by lia; lia.
Qed.

Lemma wb_inv_unpin pid i s c :
  wb_inv s → obeys (Unpin pid i) s → bunpin pid i (mem s) = Ok c →
  wb_inv (Sys c (sleepers s)).
Proof.
  intros Hinv (b' & Hb' & Hpos) H. pose proof Hinv as [Hs Hfl Hc].
  pose proof Hs as [Hq Hl]. rewrite (fetch_refs_eq _ _ _ Hb') in Hpos.
  pose proof (waiting_nonneg i (sleepers s)).
  assert (0 < refcnt b') by (destruct (lock b'); lia).
  split; cbn [mem].
  - apply (step_struct s (Unpin pid i) (Sys c (sleepers s))); [done|].
    by eapply step_unpin.
  - apply bunpin_Ok in H as (b & Hb & ->); [|done].
    assert (b' = b) as -> by congruence.
    eapply first_live_upd; eauto; [done|].
    right. eapply no_shadow; eauto. lia.
  - apply bunpin_Ok in H as (b & Hb & ->); [|done].
    assert (b' = b) as -> by congruence.
    destruct (Hc _ _ Hb) as [Hr Hbal].
    eapply counted_upd; eauto; cbn; rewrite wrap32_small by lia; lia.
Qed.

Lemma wb_inv_boot NBUF : wb_inv (boot NBUF).
Proof.
  pose proof (binit_fresh NBUF) as Hf. split; cbn [mem boot].
  - apply binit_struct.
  - intros k l Hk p q x y Hb Hx Hy Hid.
    by destruct (Forall_lookup_1 _ _ _ _ Hf Hy) as (_ & _ & _ & Hr & _).
  - intros i b Hb. rewrite (fetch_refs_eq _ _ _ Hb). cbn.
    destruct (Forall_lookup_1 _ _ _ _ Hf Hb) as (_ & _ & -> & -> & _).
    unfold waiting. cbn. lia.
Qed.

Lemma wb_inv_step s e s' :
  wb_inv s → obeys e s → step s e s' → wb_inv s'.
Proof.
  intros Hinv Hob Hstep.
  destruct Hstep; eauto using wb_inv_fetch, wb_inv_wake, wb_inv_flush,
    wb_inv_release, wb_inv_pin, wb_inv_unpin.
Qed.

Lemma well_behaved_inv NBUF s : well_behaved NBUF s → wb_inv s.
Proof.
  induction 1 as [|s e s' _ IH Hob Hstep]; [apply wb_inv_boot|].
  by eapply wb_inv_step.
Qed.

Lemma well_behaved_reachable NBUF s : well_behaved NBUF s → reachable NBUF s.
Proof.
  induction 1 as [|s e s' _ IH Hob Hstep]; [apply reach_boot|].
  by eapply reach_step.
Qed.

(** ** Running scenarios *)

Lemma exec_step e s s' : exec e s = Some s' → step s e s'.
Proof.
  destruct e as [pid dv bn|pid i|pid i|pid i t|pid i|pid i]; unfold exec.
  - destruct (bget_locked 0 pid dv bn (mem s)) as [[c i]| | | |] eqn:H;
      try done.
    intros [= <-]. by eapply step_fetch.
  - destruct (unsleep (pid, i) (sleepers s)) as [sl|] eqn:Hsl; [|done].
    destruct (acquiresleep pid i (mem s)) as [c| | | |] eqn:Ha; try done.
    destruct (bread_tail i c) as [[c' j]| | | |] eqn:Ht; try done.
    intros [= <-]. destruct (bread_tail_Ok _ _ _ _ Ht) as [-> _].
    by eapply step_wake.
  - destruct (bwrite pid i (mem s)) eqn:H; try done.
    intros [= <-]. by apply step_flush.
  - destruct (brelse pid i t (mem s)) eqn:H; try done.
    intros [= <-]. by apply step_release.
  - destruct (bpin pid i (mem s)) eqn:H; try done.
    intros [= <-]. by apply step_pin.
  - destruct (bunpin pid i (mem s)) eqn:H; try done.
    intros [= <-]. by apply step_unpin.
Qed.

Lemma obeysb_obeys e s : obeysb e s = true → obeys e s.
Proof.
  destruct e as [pid dv bn|pid i|pid i|pid i t|pid i|pid i];
    unfold obeysb, obeys; try done.
  - intros H. apply Forall_forall. intros b Hb.
    rewrite forallb_forall in H. apply Z.ltb_lt, H.
    by apply list_elem_of_In.
  - destruct (bufs (mem s) !! i) as [b|]; [|done].
    rewrite andb_true_iff, !Z.ltb_lt. eauto.
  - destruct (bufs (mem s) !! i) as [b|]; [|done].
    rewrite Z.ltb_lt. eauto.
Qed.

Lemma run_reachable NBUF es : ∀ s s' check,
  reachable NBUF s → run check es s = Some s' → reachable NBUF s'.
Proof.
  induction es as [|e es IH]; intros s s' check Hr; simpl.
  { by intros [= <-]. }
  destruct (check && negb (obeysb e s)); [done|].
  destruct (exec e s) as [s1|] eqn:He; [|done]. cbn.
  apply IH. eapply reach_step; [done|]. by apply exec_step.
Qed.

Lemma run_well_behaved NBUF es : ∀ s s',
  well_behaved NBUF s → run true es s = Some s' → well_behaved NBUF s'.
Proof.
  induction es as [|e es IH]; intros s s' Hr; simpl.
  { by intros [= <-]. }
  destruct (obeysb e s) eqn:Hob; [|done]. cbn.
  destruct (exec e s) as [s1|] eqn:He; [|done]. cbn.
  apply IH. eapply wb_step; [done| |by apply exec_step].
  by apply obeysb_obeys.
Qed.

(** * The claims *)

(** Evaluates the conjuncts of a concrete scenario from left to right, so
    that each state is known before the next call is run on it. *)
Ltac run_scenario :=
  repeat match goal with
         | |- _ ∧ _ => split; [vm_compute; reflexivity|]
         end.

(** C1, as the code has it.  In every state reached from [binit] by
    callers that respect the interface, two different slots whose use count
    is positive never carry the same (device, block number) pair; so no two
    handles that are live at the same time stand for the same block. *)
Theorem in_use_identities_distinct NBUF s :
  well_behaved NBUF s → distinct_in_use (mem s).
Proof.
  intros Hwb. destruct (well_behaved_inv _ _ Hwb) as [[Hq Hl] Hfl _].
  intros i j x y Hx Hy Hne Hrx Hry Hsame.
  destruct (linked_all _ Hl _ _ Hx) as (l & Hchain & Hi).
  destruct (linked_all _ Hl _ _ Hy) as (l' & Hchain' & Hj).
  destruct Hsame as [Hd Hb]. rewrite Hb, Hchain' in Hchain.
  injection Hchain as ->.
  destruct (before_total _ _ _ Hi Hj Hne) as [Hbef|Hbef].
  - assert (refcnt y = 0); [|lia].
    eapply (Hfl _ _ Hchain' i j x y); eauto. by split.
  - assert (refcnt x = 0); [|lia].
    eapply (Hfl _ _ Hchain' j i y x); eauto. by split.
Qed.

Lemma in_use_identities_distinct_witness :
  ∃ s, run true two_held (boot 2) = Some s ∧ distinct_in_use (mem s).
Proof.
  eexists. split; [vm_compute; reflexivity|].
  apply (in_use_identities_distinct 2).
  apply (run_well_behaved 2 two_held (boot 2)); [apply wb_boot|].
  vm_compute; reflexivity.
Defined.

(** C1, as stated, fails.  Of fourteen slots, slots 0 and 13 both carry
    block 0 of device 0 after [binit].  A [bread] of that block takes
    slot 13; a [bunpin] of slot 0, which nobody has pinned, returns and
    leaves its use count at 2^32-1: two slots in use with one identity. *)
Lemma unmatched_bunpin_duplicates_a_block :
  ∃ s x y,
    run false [Fetch 1 0 0; Wake 1 13; Unpin 2 0] (boot 14) = Some s
    ∧ reachable 14 s
    ∧ bufs (mem s) !! 0%nat = Some x ∧ bufs (mem s) !! 13%nat = Some y
    ∧ 0 < refcnt x ∧ 0 < refcnt y ∧ same_id x y
    ∧ ¬ distinct_in_use (mem s).
Proof.
  do 3 eexists. split; [vm_compute; reflexivity|].
  split.
  { apply (run_reachable 14 [Fetch 1 0 0; Wake 1 13; Unpin 2 0] (boot 14)
             _ false); [apply reach_boot|vm_compute; reflexivity]. }
  do 2 (split; [vm_compute; reflexivity|]).
  do 2 (split; [reflexivity|]).
  split; [split; reflexivity|].
  intros H.
  apply (H 0%nat 13%nat (Buf 0 0 0 None 4294967295 0 [])
           (Buf 1 0 0 (Some 1%nat) 1 0 []));
    try (vm_compute; reflexivity); try done.
Qed.

Lemma held_in_use s i x :
  counted s → bufs (mem s) !! i = Some x →
  0 < refcnt x ∨ is_Some (lock x) → refcnt x ≠ 0.
Proof.
  intros Hc Hx [H|[p Hp]]; [lia|].
  destruct (Hc _ _ Hx) as [_ Hbal].
  rewrite (fetch_refs_eq _ _ _ Hx), Hp in Hbal.
  pose proof (waiting_nonneg i (sleepers s)). lia.
Qed.

(** What a call of [bget] that returns has done: a hit counts one more
    reference on the slot, a miss gives a free slot the new identity. *)
Lemma bget_locked_effect fuel pid dv bn c c' i :
  struct_inv c → bget_locked fuel pid dv bn c = Ok (c', i) →
  ∃ x, bufs c !! i = Some x ∧ io c' = io c ∧ disk c' = disk c
    ∧ ((is_id dv bn x ∧ c' = upd i refcnt_inc c)
       ∨ (refcnt x = 0 ∧ (∀ j y, j ∈ default [] (heads c !! shard bn) →
                             bufs c !! j = Some y → ¬ is_id dv bn y)
          ∧ bufs c' = alter (claim dv bn) i (bufs c))).
Proof.
  intros [Hq Hl] H.
  pose proof (bget_locked_cases fuel pid dv bn c Hq Hl) as Hc.
  rewrite H in Hc.
  inversion Hc as [i0 l1 l2 x Hh Hx Hix Hfirst Heq|
                   b x l1 l2 Hh Hno Hx Hr Ht Hlt Hle Heq|
                   b x l0 l1 l2 Hh Hno Hfull Hx Hr Ht Hne Hsrc Hlru Heq|];
    subst; exists x; split_and!; try done.
  - by left.
  - right. rewrite Hh. done.
  - right. rewrite Hh. done.
Qed.

(** What the second half of [bread], from [acquiresleep] on, has done when
    it returns. *)
Lemma wake_effect pid i c c1 c' :
  acquiresleep pid i c = Ok c1 → bread_tail i c1 = Ok (c', i) →
  ∃ x, bufs c !! i = Some x ∧ lock x = None
    ∧ heads c' = heads c ∧ disk c' = disk c
    ∧ bcache_lock c' = bcache_lock c ∧ bucket_lock c' = bucket_lock c
    ∧ ((valid x ≠ 0 ∧ io c' = io c
        ∧ bufs c' = alter (set_lock (Some pid)) i (bufs c))
       ∨ (valid x = 0
          ∧ io c' = io c ++ [DiskRead i (dev x) (blockno x)]
          ∧ bufs c' = alter (filled (disk c) ∘ set_lock (Some pid)) i (bufs c))).
Proof.
  intros Ha Ht.
  apply acquiresleep_Ok in Ha as (x & Hx & Hfree & ->).
  exists x.
  apply bread_tail_Ok in Ht as (_ & y & Hy & Hcase).
  rewrite lookup_upd, decide_True, Hx in Hy by done. injection Hy as <-.
  destruct Hcase as [[Hv ->]|[Hv ->]]; fields; split_and!; try done.
  - right. split_and!; try done. by rewrite list_alter_alter_eq.
  - by left.
Qed.








Lemma waits_on_bucket c k q pid :
  bucket_lock c !! k = Some (Some q) → acquire (Bucket k) pid c = Waits (Bucket k).
Proof. intros H. unfold acquire. by rewrite H. Qed.

(** C10. In every state reached from [binit], whatever the callers do, a
    slot is on the chain of bucket [k] exactly when its block number hashes
    to [k], and on no other chain; every call keeps it so.  [brelse], [bpin]
    and [bunpin] take the lock of bucket [blockno % N], which is therefore
    the lock of the chain the slot is on: while another holder has that
    lock, they wait for it. *)
Theorem slots_chained_by_hash NBUF s :
  reachable NBUF s →
  (∀ k l i, heads (mem s) !! k = Some l → i ∈ l →
     ∃ b, bufs (mem s) !! i = Some b ∧ shard (blockno b) = k)
  ∧ (∀ i b, bufs (mem s) !! i = Some b →
       ∃ l, heads (mem s) !! shard (blockno b) = Some l ∧ i ∈ l
            ∧ ∀ k l', heads (mem s) !! k = Some l' → i ∈ l' →
                k = shard (blockno b))
  ∧ (∀ e s', step s e s' → linked (mem s'))
  ∧ (∀ c pid i b q, bufs c !! i = Some b →
       bucket_lock c !! shard (blockno b) = Some (Some q) →
       bpin pid i c = Waits (Bucket (shard (blockno b)))
       ∧ bunpin pid i c = Waits (Bucket (shard (blockno b)))
       ∧ (holdingsleep pid b = true →
          ∀ ticks, brelse pid i ticks c = Waits (Bucket (shard (blockno b))))).
Proof.
  intros Hr. pose proof (reachable_struct _ _ Hr) as [Hq Hl]. split_and!.
  - apply (linked_shard _ Hl).
  - intros i b Hb. destruct (linked_all _ Hl _ _ Hb) as (l & Hchain & Hi).
    exists l. split_and!; try done. intros k l' Hk Hi'.
    by destruct (linked_unique _ _ _ _ _ _ Hl Hk Hi' Hchain Hi).
  - intros e s' Hstep.
    by destruct (step_struct _ _ _ (conj Hq Hl) Hstep).
  - intros c pid i b q Hb Hheld. unfold bpin, bunpin, brelse. rewrite Hb.
    rewrite (waits_on_bucket _ _ _ _ Hheld). split_and!; try done.
    intros -> ticks. cbn [negb].
    by rewrite (waits_on_bucket (releasesleep i c) _ q).
Qed.

Lemma slots_chained_by_hash_witness :
  ∃ s, run false [Fetch 1 0 5; Unpin 7 1; Wake 1 0] (boot 2) = Some s
    ∧ linked (mem s).
Proof.
  eexists. split; [vm_compute; reflexivity|].
  assert (reachable 2 (boot 2)) as H0 by apply reach_boot.
  pose proof (run_reachable 2 [Fetch 1 0 5; Unpin 7 1] (boot 2) _ false H0
                ltac:(vm_compute; reflexivity)) as H1.
  destruct (slots_chained_by_hash 2 _ H1) as (_ & _ & Hstep & _).
  apply (Hstep (Wake 1 0)). apply exec_step. vm_compute; reflexivity.
Defined.

(** C8. [brelse] panics exactly when the caller does not hold the slot's
    sleep-lock.  When the caller holds it, [brelse] waits while the lock of
    the slot's bucket is held, and with that lock free it returns after
    releasing the sleep-lock, decrementing the use count and setting [time]
    to the tick value exactly when the decremented count is zero; the other
    fields of the slot, the other slots, the chains and the locks are as
    before. *)
Theorem brelse_behaviour pid i ticks c b :
  bufs c !! i = Some b →
  (brelse pid i ticks c = Panic "brelse" ↔ holdingsleep pid b = false)
  ∧ (holdingsleep pid b = true →
     ∀ q, bucket_lock c !! shard (blockno b) = Some (Some q) →
     brelse pid i ticks c = Waits (Bucket (shard (blockno b))))
  ∧ (holdingsleep pid b = true →
     bucket_lock c !! shard (blockno b) = Some None →
     brelse pid i ticks c
     = Ok (Cache (bcache_lock c) (<[i := released ticks b]> (bufs c))
             (bucket_lock c) (heads c) (disk c) (io c))).
Proof.
  intros Hb. unfold brelse. rewrite Hb. split_and!.
  - destruct (holdingsleep pid b); cbn [negb]; [|done].
    split; [|done]. intros H. exfalso.
    unfold acquire in H.
    by destruct (bucket_lock (releasesleep i c) !! shard (blockno b))
      as [[q|]|].
  - intros -> q Hheld. cbn [negb].
    by rewrite (waits_on_bucket (releasesleep i c) _ q).
  - intros -> Hfree. cbn [negb].
    rewrite acquire_bucket_ok by done. rewrite bind_Ok.
    unfold release, releasesleep, release, upd, set_bufs, set_bucket_lock.
    cbn. rewrite list_insert_insert_eq, list_insert_id by done.
    rewrite !list_alter_alter_eq. do 2 f_equal.
    apply list_eq. intros j. rewrite list_lookup_alter, list_lookup_insert.
    destruct (decide (i = j)) as [->|Hne].
    + rewrite Hb. rewrite decide_True
        by (split; [done|by eapply lookup_lt_Some]).
      cbn. unfold stamp, released. cbn. by destruct (_ =? 0).
    + by rewrite decide_False by (intros [? _]; done).
Qed.

Lemma brelse_behaviour_witness :
  ∃ s, run true two_held (boot 2) = Some s
    ∧ (brelse 2 0 9 (mem s) = Panic "brelse"
       ↔ holdingsleep 2 (Buf 1 0 5 (Some 1%nat) 1 0 []) = false)
    ∧ brelse 1 0 9 (mem s)
      = Ok (Cache (bcache_lock (mem s))
              (<[0%nat := released 9 (Buf 1 0 5 (Some 1%nat) 1 0 [])]>
                 (bufs (mem s)))
              (bucket_lock (mem s)) (heads (mem s)) (disk (mem s))
              (io (mem s))).
Proof.
  eexists. split; [vm_compute; reflexivity|].
  match goal with |- context [brelse 2 0 9 ?c] =>
    destruct (brelse_behaviour 1 0 9 c (Buf 1 0 5 (Some 1%nat) 1 0 [])
                ltac:(vm_compute; reflexivity)) as (_ & _ & H3);
    destruct (brelse_behaviour 2 0 9 c (Buf 1 0 5 (Some 1%nat) 1 0 [])
                ltac:(vm_compute; reflexivity)) as (H1 & _ & _)
  end.
  split; [exact H1|]. apply H3; vm_compute; reflexivity.
Defined.

(** C9, as the code has it.  [bwrite] and [brelse] by a caller that does not
    hold the slot's sleep-lock panic at that call; this covers a second
    [brelse] after a first one that returned.  [bpin] and [bunpin] check
    nothing: on any slot, with the bucket lock free, they return and leave
    the use count one higher or one lower, modulo 2^32. *)
Theorem unheld_release_and_flush_panic pid i c b :
  bufs c !! i = Some b →
  (holdingsleep pid b = false →
   bwrite pid i c = Panic "bwrite" ∧ ∀ t, brelse pid i t c = Panic "brelse")
  ∧ (∀ t t' c', quiescent c → brelse pid i t c = Ok c' →
       brelse pid i t' c' = Panic "brelse")
  ∧ (quiescent c →
     bpin pid i c = Ok (upd i refcnt_inc c)
     ∧ bunpin pid i c = Ok (upd i refcnt_dec c)).
Proof.
  intros Hb. split_and!.
  - intros Hh. split.
    + by rewrite (bwrite_eq _ _ _ _ Hb), Hh.
    + intros t. unfold brelse. by rewrite Hb, Hh.
  - intros t t' c' Hq H. apply brelse_Ok in H as (b' & Hb' & Hh & ->); [|done].
    unfold brelse. rewrite lookup_upd, decide_True, Hb' by done. cbn.
    unfold stamp. cbn. by destruct (_ =? 0).
  - intros Hq. split; [by eapply bpin_eq|by eapply bunpin_eq].
Qed.

Lemma unheld_release_and_flush_panic_witness :
  ∃ s, run true two_held (boot 2) = Some s
    ∧ bwrite 2 0 (mem s) = Panic "bwrite"
    ∧ brelse 2 0 9 (mem s) = Panic "brelse".
Proof.
  eexists. split; [vm_compute; reflexivity|].
  match goal with |- context [bwrite 2 0 ?c] =>
    destruct (unheld_release_and_flush_panic 2 0 c
                (Buf 1 0 5 (Some 1%nat) 1 0 [])
                ltac:(vm_compute; reflexivity)) as (H1 & _ & _)
  end.
  destruct (H1 ltac:(vm_compute; reflexivity)) as [Hw Hr].
  split; [exact Hw|apply Hr].
Defined.

(** C9, as stated, fails: [bunpin] on a slot that was never fetched nor
    pinned returns normally, and the use count wraps from 0 to 2^32-1. *)
Lemma bunpin_unmatched_returns :
  ∃ c b, bunpin 1 0 (binit 1) = Ok c
    ∧ bufs (binit 1) !! 0%nat = Some zero_buf
    ∧ bufs c !! 0%nat = Some b ∧ refcnt b = UINT_MAX.
Proof. do 2 eexists. run_scenario. vm_compute; reflexivity. Qed.

(** C5 fails: [bunpin] that brings the use count to 0 leaves [time] as it
    was.  After a fetch, a pin and a release at tick 5, the pin is the only
    reference; the matching [bunpin] then frees the slot, and its [time] is
    still the 0 of [binit], not a tick value of 5 or more. *)
Lemma bunpin_to_zero_leaves_time :
  ∃ s s' b b',
    run true pinned_only (boot 1) = Some s
    ∧ bufs (mem s) !! 0%nat = Some b ∧ refcnt b = 1 ∧ time b = 0
    ∧ obeysb (Unpin 1 0) s = true
    ∧ exec (Unpin 1 0) s = Some s'
    ∧ bufs (mem s') !! 0%nat = Some b' ∧ refcnt b' = 0 ∧ time b' = 0.
Proof. do 4 eexists. run_scenario. vm_compute; reflexivity. Qed.

(** On every input [bunpin] leaves [time] alone. *)
Lemma bunpin_time pid i c c' b :
  bunpin pid i c = Ok c' → bufs c !! i = Some b →
  time <$> bufs c' !! i = Some (time b).
Proof.
  unfold bunpin. intros H Hb. rewrite Hb in H. unfold acquire in H.
  destruct (bucket_lock c !! shard (blockno b)) as [[q|]|]; try done.
  cbn in H. injection H as <-. cbn. rewrite list_lookup_alter_eq, Hb. done.
Qed.

(** C3, as the code has it.  On a miss, when the chain of the block's bucket
    has a slot with a zero use count and a [time] below [UINT_MAX], [bget]
    recycles a slot of that chain: its use count was zero, every free slot
    ahead of it on the chain has a strictly larger [time], and every free
    slot after it a [time] at least as large. *)
Theorem bget_recycles_local_lru fuel pid dv bn c l :
  struct_inv c →
  heads c !! shard bn = Some l →
  (∀ j y, j ∈ l → bufs c !! j = Some y → ¬ is_id dv bn y) →
  (∃ j y, j ∈ l ∧ bufs c !! j = Some y ∧ refcnt y = 0 ∧ time y < UINT_MAX) →
  ∃ b x l1 l2,
    bget_locked fuel pid dv bn c = Ok (upd b (claim dv bn) c, b)
    ∧ l = l1 ++ b :: l2 ∧ bufs c !! b = Some x
    ∧ refcnt x = 0 ∧ time x < UINT_MAX
    ∧ (∀ j y, j ∈ l1 → bufs c !! j = Some y → refcnt y = 0 → time x < time y)
    ∧ (∀ j y, j ∈ l2 → bufs c !! j = Some y → refcnt y = 0 → time x ≤ time y).
Proof.
  intros [Hq Hl] Hchain Hmiss (j & y & Hj & Hy & Hyr & Hyt).
  destruct (bget_locked_cases fuel pid dv bn c Hq Hl)
    as [i l1 l2 x Hc Hx Hid _|b x l1 l2 Hc Hnoid Hx Hxr Hxt Hb Ha|
        b x l' l1 l2 Hc Hnoid Hnone _ _ _ _ _ _|l' Hc Hnoid Hnone].
  - exfalso. rewrite Hchain in Hc. injection Hc as ->.
    apply (Hmiss i x); [|done..]. apply elem_of_app. right. by left.
  - rewrite Hchain in Hc. injection Hc as ->.
    exists b, x, l1, l2. by split_and!.
  - exfalso. rewrite Hchain in Hc. injection Hc as <-.
    specialize (Hnone _ _ Hj Hy Hyr). lia.
  - exfalso. specialize (Hnone _ _ Hy Hyr). lia.
Qed.

Lemma bget_recycles_local_lru_witness :
  ∃ b x l1 l2,
    bget_locked 0 1 0 14 (binit 30)
    = Ok (upd b (claim 0 14) (binit 30), b)
    ∧ [27; 14; 1]%nat = l1 ++ b :: l2 ∧ bufs (binit 30) !! b = Some x
    ∧ refcnt x = 0 ∧ time x < UINT_MAX
    ∧ (∀ j y, j ∈ l1 → bufs (binit 30) !! j = Some y → refcnt y = 0 →
         time x < time y)
    ∧ (∀ j y, j ∈ l2 → bufs (binit 30) !! j = Some y → refcnt y = 0 →
         time x ≤ time y).
Proof.
  apply (bget_recycles_local_lru 0 1 0 14 (binit 30) [27; 14; 1]%nat).
  - apply binit_struct.
  - vm_compute; reflexivity.
  - intros j y Hj Hy [_ Hbn].
    pose proof (Forall_lookup_1 _ _ _ _ (binit_fresh 30) Hy) as Hf.
    assert (j = 27 ∨ j = 14 ∨ j = 1)%nat as [->|[-> | ->]].
    { rewrite !elem_of_cons in Hj. destruct Hj as [?|[?|[?|Hj]]]; auto.
      by apply elem_of_nil in Hj. }
    all: vm_compute in Hy; injection Hy as <-; done.
  - exists 27%nat, (Buf 0 0 1 None 0 0 []).
    split_and!; [by left|vm_compute; reflexivity|done|done].
Defined.

(** C3, as stated, fails in two ways.  A free slot whose [time] is
    [UINT_MAX] is passed over: with one slot, released when the tick counter
    read [UINT_MAX], a miss in the slot's bucket finds the chain's only free
    slot and still ends in the panic.  And the slot recycled is the oldest of
    the chain, not of the pool: with slot 0 released at tick 5 and slot 1 at
    tick 9, a miss in bucket 1 recycles slot 1. *)
Lemma bget_lru_is_local_and_below_sentinel :
  (∃ c b, released_at_max = Ok c
     ∧ heads c !! shard 13 = Some [0%nat]
     ∧ bufs c !! 0%nat = Some b ∧ refcnt b = 0
     ∧ bget_locked 0 1 0 13 c = Panic "bget: no buffers"
     ∧ ¬ is_id 0 13 b)
  ∧ (∃ c c' b0 b1, two_released = Ok c
       ∧ bufs c !! 0%nat = Some b0 ∧ refcnt b0 = 0 ∧ time b0 = 5
       ∧ bufs c !! 1%nat = Some b1 ∧ refcnt b1 = 0 ∧ time b1 = 9
       ∧ bget_locked 0 1 0 14 c = Ok (c', 1%nat)).
Proof.
  split.
  - do 2 eexists. run_scenario. intros [_ H]. discriminate H.
  - do 4 eexists. run_scenario. vm_compute; reflexivity.
Qed.

(** ** Exhaustion *)

Lemma bread_Ok fuel pid dv bn c c' i :
  bread fuel pid dv bn c = Ok (c', i) →
  ∃ c1 c2, bget_locked fuel pid dv bn c = Ok (c1, i)
    ∧ acquiresleep pid i c1 = Ok c2 ∧ bread_tail i c2 = Ok (c', i).
Proof.
  unfold bread, bget. intros H.
  destruct (bget_locked fuel pid dv bn c) as [[c1 j]| | | |]; try done.
  rewrite bind_Ok in H. cbv beta iota in H.
  destruct (acquiresleep pid j c1) as [c2| | | |] eqn:Ha; try done.
  rewrite !bind_Ok in H. destruct (bread_tail_Ok _ _ _ _ H) as [-> _]. eauto.
Qed.

Lemma bread_compose fuel pid dv bn c c1 c2 r i :
  bget_locked fuel pid dv bn c = Ok (c1, i) →
  acquiresleep pid i c1 = Ok c2 → bread_tail i c2 = r →
  bread fuel pid dv bn c = r.
Proof.
  unfold bread, bget. intros -> Ha <-. rewrite bind_Ok. cbv beta iota.
  by rewrite Ha.
Qed.

Lemma bget_locked_panics fuel pid dv bn c :
  struct_inv c →
  (∀ j y, bufs c !! j = Some y → ¬ is_id dv bn y) →
  (∀ j y, bufs c !! j = Some y → refcnt y ≠ 0) →
  bget_locked fuel pid dv bn c = Panic "bget: no buffers".
Proof.
  intros [Hq Hl] Hmiss Hbusy.
  destruct (bget_locked_cases fuel pid dv bn c Hq Hl)
    as [i l1 l2 x Hc Hx Hid _|b x l1 l2 Hc Hnoid Hx Hxr Hxt Hb Ha|
        b x l' l1 l2 Hc Hnoid Hnone Hx Hxr _ _ _ _|l' Hc Hnoid Hnone];
    [by destruct (Hmiss _ _ Hx)|by destruct (Hbusy _ _ Hx)..|done].
Qed.

Lemma bget_locked_miss_free fuel pid dv bn c c' b :
  struct_inv c →
  (∀ j y, bufs c !! j = Some y → ¬ is_id dv bn y) →
  bget_locked fuel pid dv bn c = Ok (c', b) →
  ∃ x, bufs c !! b = Some x ∧ refcnt x = 0.
Proof.
  intros [Hq Hl] Hmiss H.
  pose proof (bget_locked_cases fuel pid dv bn c Hq Hl) as Hcase.
  rewrite H in Hcase. inversion Hcase; subst; eauto.
  by destruct (Hmiss _ _ H3).
Qed.

Lemma count_free_cons a bs :
  count_free (a :: bs)
  = if decide (refcnt a = 0) then S (count_free bs) else count_free bs.
Proof.
  unfold count_free. rewrite filter_cons. by destruct (decide (refcnt a = 0)).
Qed.

Lemma count_free_change bs : ∀ bs' b x z,
  length bs' = length bs →
  (∀ j, j ≠ b → bs' !! j = bs !! j) →
  bs !! b = Some x → refcnt x = 0 →
  bs' !! b = Some z → refcnt z ≠ 0 →
  (count_free bs' + 1 = count_free bs)%nat.
Proof.
  induction bs as [|a bs IH]; intros bs' b x z Hlen Hother Hx Hxr Hz Hzr;
    [done|].
  destruct bs' as [|a' bs']; [done|]. rewrite !count_free_cons.
  destruct b as [|b]; simpl in Hx, Hz.
  - injection Hx as ->. injection Hz as ->.
    rewrite (decide_False (P := refcnt z = 0)) by done.
    rewrite (decide_True (P := refcnt x = 0)) by done.
    assert (bs' = bs) as ->.
    { apply list_eq. intros j. apply (Hother (S j)). lia. }
    lia.
  - assert (a' = a) as ->.
    { specialize (Hother 0%nat ltac:(lia)). by injection Hother. }
    assert (count_free bs' + 1 = count_free bs)%nat as Hrec.
    { eapply (IH bs' b x z); eauto.
      intros j Hj. apply (Hother (S j)). lia. }
    destruct (decide (refcnt a = 0)); lia.
Qed.

Lemma count_free_pos bs :
  (0 < count_free bs)%nat → ∃ j y, bs !! j = Some y ∧ refcnt y = 0.
Proof.
  unfold count_free. intros H.
  destruct (filter (λ b, refcnt b = 0) bs) as [|y l] eqn:Hf;
    [cbn in H; lia|].
  assert (y ∈ filter (λ b, refcnt b = 0) bs) as Hy by (rewrite Hf; by left).
  apply list_elem_of_filter in Hy as [Hyr Hy].
  apply list_elem_of_lookup_1 in Hy as [j Hj]. eauto.
Qed.

Lemma count_free_zero bs j y :
  count_free bs = 0%nat → bs !! j = Some y → refcnt y ≠ 0.
Proof.
  unfold count_free. intros H Hy Hr.
  assert (y ∈ filter (λ b, refcnt b = 0) bs) as Hin.
  { apply list_elem_of_filter. split; [done|]. by eapply list_elem_of_lookup_2. }
  destruct (filter (λ b, refcnt b = 0) bs); [|done].
  by apply elem_of_nil in Hin.
Qed.

Lemma count_free_all bs :
  Forall (λ b, refcnt b = 0) bs → count_free bs = length bs.
Proof.
  induction 1 as [|a bs Ha _ IH]; [done|].
  rewrite count_free_cons, decide_True by done. cbn [length]. lia.
Qed.

Lemma filling_binit NBUF : filling [] (binit NBUF).
Proof.
  pose proof (binit_fresh NBUF) as Hf. split.
  - apply binit_struct.
  - eapply Forall_impl; [exact Hf|]. intros b (_ & _ & Hl & Hr & Ht).
    by left.
  - cbn [length]. rewrite Nat.add_0_r. apply count_free_all.
    eapply Forall_impl; [exact Hf|]. by intros b (_ & _ & _ & Hr & _).
Qed.

(** One more block is fetched while a slot is left. *)
Lemma filling_bread fuel pid dv bn fetched c :
  filling fetched c → (dv, bn) ∉ fetched →
  (length fetched < length (bufs c))%nat →
  ∃ c' i, bread fuel pid dv bn c = Ok (c', i)
    ∧ refcnt_at i c = Ok 0
    ∧ length (bufs c') = length (bufs c)
    ∧ filling ((dv, bn) :: fetched) c'.
Proof.
  intros [Hs Hok Hcnt] Hnew Hroom. pose proof Hs as [Hq Hl].
  destruct (count_free_pos (bufs c)) as (j0 & y0 & Hy0 & Hy0r); [lia|].
  assert (∀ j y, bufs c !! j = Some y → refcnt y = 0 →
            time y = 0 ∧ lock y = None) as Hfree.
  { intros j y Hy Hr.
    destruct (Forall_lookup_1 _ _ _ _ Hok Hy) as [(_ & ? & ?)|[? _]]; done. }
  assert (∀ j y, bufs c !! j = Some y → is_id dv bn y → refcnt y = 0) as Hid0.
  { intros j y Hy [Hd Hb].
    destruct (Forall_lookup_1 _ _ _ _ Hok Hy) as [(? & _)|[_ Hin]]; [done|].
    by rewrite Hd, Hb in Hin. }
  (* the slot [bget] returns was free, and comes back in use for the block *)
  assert (∃ c1 b x, bget_locked fuel pid dv bn c = Ok (c1, b)
            ∧ bufs c !! b = Some x ∧ refcnt x = 0
            ∧ ∃ g, bufs c1 = alter g b (bufs c)
                ∧ refcnt (g x) = 1 ∧ lock (g x) = None
                ∧ is_id dv bn (g x)) as (c1 & b & x & Hget & Hx & Hxr & g & Hc1 & Hg1 & Hg2 & Hg3).
  { destruct (bget_locked_cases fuel pid dv bn c Hq Hl)
      as [i l1 l2 x Hc Hx Hid _|b x l1 l2 Hc Hnoid Hx Hxr Hxt Hb Ha|
          b x l' l1 l2 Hc Hnoid Hnone Hx Hxr _ _ _ _|l' Hc Hnoid Hnone].
    - pose proof (Hid0 _ _ Hx Hid) as Hxr.
      destruct (Hfree _ _ Hx Hxr) as [_ Hlk].
      eexists _, i, x. split_and!; try done.
      exists refcnt_inc. cbn. rewrite Hxr. by split_and!.
    - destruct (Hfree _ _ Hx Hxr) as [_ Hlk].
      eexists _, b, x. split_and!; try done.
      exists (claim dv bn). by split_and!.
    - destruct (Hfree _ _ Hx Hxr) as [_ Hlk].
      eexists _, b, x. split_and!; try done.
      exists (claim dv bn). by split_and!.
    - destruct (Hfree _ _ Hy0 Hy0r) as [Ht _].
      specialize (Hnone _ _ Hy0 Hy0r). unfold UINT_MAX in Hnone. lia. }
  assert (bufs c1 !! b = Some (g x)) as Hb1
    by (by rewrite Hc1, list_lookup_alter_eq, Hx).
  pose proof (acquiresleep_eq pid b c1 _ Hb1) as Ha. rewrite Hg2 in Ha.
  set (c2 := upd b (set_lock (Some pid)) c1) in *.
  assert (bufs c2 !! b = Some (set_lock (Some pid) (g x))) as Hb2
    by (unfold c2; by rewrite lookup_upd, decide_True, Hb1).
  pose proof (bread_tail_eq b c2 _ Hb2) as Ht.
  assert (∃ c', bread_tail b c2 = Ok (c', b)
            ∧ ∃ h, bufs c' = alter h b (bufs c)
                ∧ refcnt (h x) = 1 ∧ is_id dv bn (h x))
    as (c' & Ht' & h & Hbufs' & Hh1 & Hh2).
  { destruct (valid (set_lock (Some pid) (g x)) =? 0).
    - eexists. split; [exact Ht|].
      exists (filled (disk c2) ∘ set_lock (Some pid) ∘ g). cbn.
      rewrite Hc1, !list_alter_alter_eq. by split_and!.
    - eexists. split; [exact Ht|].
      exists (set_lock (Some pid) ∘ g). cbn.
      rewrite Hc1, !list_alter_alter_eq. by split_and!. }
  exists c', b. split; [by eapply bread_compose|].
  split; [unfold refcnt_at; by rewrite Hx, Hxr|].
  split; [by rewrite Hbufs', length_alter|].
  split.
  - apply (step_struct (Sys c1 [(pid, b)]) (Wake pid b) (Sys c' [])).
    { by eapply bget_locked_struct. }
    eapply step_wake; [|exact Ha|exact Ht']. cbn.
    unfold same_sleeper. cbn. by rewrite !Nat.eqb_refl.
  - apply Forall_lookup. intros j y. rewrite Hbufs', list_lookup_alter.
    destruct (decide (b = j)) as [<-|Hne].
    + rewrite Hx. cbn. intros [= <-]. right. split; [lia|].
      destruct Hh2 as [-> ->]. by left.
    + intros Hy. destruct (Forall_lookup_1 _ _ _ _ Hok Hy) as [?|[? ?]].
      * by left.
      * right. split; [done|by right].
  - cbn [length].
    pose proof (count_free_change (bufs c) (bufs c') b x (h x)) as Hch.
    rewrite Hbufs', length_alter in *. rewrite <- Hcnt, <- Hch; try done.
    + lia.
    + intros j Hj. by rewrite list_lookup_alter_ne.
    + by rewrite list_lookup_alter_eq, Hx.
    + lia.
Qed.

Lemma filling_bread_all fuel reqs : ∀ fetched c,
  filling fetched c →
  NoDup (ident <$> reqs) →
  (∀ r, r ∈ reqs → ident r ∉ fetched) →
  (length fetched + length reqs ≤ length (bufs c))%nat →
  ∃ c' ps fetched',
    bread_all fuel reqs c = Ok (c', ps)
    ∧ Forall (λ p, p = 0) ps ∧ length ps = length reqs
    ∧ filling fetched' c'
    ∧ length fetched' = (length fetched + length reqs)%nat
    ∧ length (bufs c') = length (bufs c)
    ∧ (∀ k, k ∈ fetched' → k ∈ fetched ∨ k ∈ ident <$> reqs).
Proof.
  induction reqs as [|[[pid dv] bn] reqs IH]; intros fetched c Hf Hnd Hnew Hlen.
  { exists c, [], fetched. cbn [bread_all length].
    split_and!; try done; try lia. intros k Hk. by left. }
  cbn [fmap list_fmap] in Hnd. apply NoDup_cons in Hnd as [Hhd Hnd].
  cbn [length] in Hlen.
  destruct (filling_bread fuel pid dv bn fetched c Hf) as
    (c1 & i & Hbread & Hprior & Hlen1 & Hf1); [|lia|].
  { apply (Hnew (pid, dv, bn)). by left. }
  destruct (IH ((dv, bn) :: fetched) c1 Hf1 Hnd) as
    (c' & ps & fetched' & Hall & Hps & Hpslen & Hf' & Hflen & Hblen & Hsub).
  { intros r Hr. rewrite not_elem_of_cons. split.
    - intros Heq. apply Hhd. change (ident (pid, dv, bn)) with (dv, bn).
      rewrite <- Heq. apply list_elem_of_fmap. eauto.
    - apply Hnew. by right. }
  { cbn [length]. lia. }
  exists c', (0 :: ps), fetched'. split_and!.
  - cbn [bread_all]. rewrite Hbread. cbn. rewrite Hprior. cbn.
    by rewrite Hall.
  - by constructor.
  - cbn [length]. lia.
  - done.
  - cbn [length] in *. lia.
  - congruence.
  - intros k Hk. destruct (Hsub k Hk) as [Hk'|Hk'].
    + apply elem_of_cons in Hk' as [->|Hk']; [|by left].
      right. cbn. by left.
    + right. cbn. by right.
Qed.

(** X6. Exhaustion between calls.  When no slot has a zero use count, a
    [bget] that misses ends in [panic("bget: no buffers")], and so does
    [bread]; a [bget] that misses and returns has recycled a slot whose use
    count was zero.  From [binit], fetching [NBUF] different blocks without
    a release succeeds each time, every slot returned having had a zero use
    count, and fetching one more block then ends in the panic. *)
Theorem exhaustion_panics NBUF fuel :
  (∀ pid dv bn c,
     struct_inv c →
     (∀ j y, bufs c !! j = Some y → ¬ is_id dv bn y) →
     (∀ j y, bufs c !! j = Some y → refcnt y ≠ 0) →
     bget_locked fuel pid dv bn c = Panic "bget: no buffers"
     ∧ bread fuel pid dv bn c = Panic "bget: no buffers")
  ∧ (∀ pid dv bn c c' b,
       struct_inv c →
       (∀ j y, bufs c !! j = Some y → ¬ is_id dv bn y) →
       bget_locked fuel pid dv bn c = Ok (c', b) →
       ∃ x, bufs c !! b = Some x ∧ refcnt x = 0)
  ∧ (∀ reqs pid dv bn,
       length reqs = NBUF →
       NoDup (ident <$> reqs) →
       (dv, bn) ∉ ident <$> reqs →
       ∃ c ps, bread_all fuel reqs (binit NBUF) = Ok (c, ps)
         ∧ length ps = NBUF ∧ Forall (λ p, p = 0) ps
         ∧ bread fuel pid dv bn c = Panic "bget: no buffers").
Proof.
  assert (∀ pid dv bn c,
     struct_inv c →
     (∀ j y, bufs c !! j = Some y → ¬ is_id dv bn y) →
     (∀ j y, bufs c !! j = Some y → refcnt y ≠ 0) →
     bget_locked fuel pid dv bn c = Panic "bget: no buffers"
     ∧ bread fuel pid dv bn c = Panic "bget: no buffers") as Hpanic.
  { intros pid dv bn c Hs Hmiss Hbusy.
    pose proof (bget_locked_panics fuel pid dv bn c Hs Hmiss Hbusy) as H.
    split; [done|]. unfold bread, bget. by rewrite H. }
  split_and!; [done|intros; by eapply bget_locked_miss_free|].
  intros reqs pid dv bn Hlen Hnd Hnew.
  destruct (filling_bread_all fuel reqs [] (binit NBUF)) as
    (c & ps & fetched & Hall & Hps & Hpslen & Hf & Hflen & Hblen & Hsub).
  - apply filling_binit.
  - done.
  - intros r _. apply not_elem_of_nil.
  - rewrite binit_length. cbn [length]. lia.
  - exists c, ps. split_and!; try done; [lia|].
    destruct Hf as [Hs Hok Hcnt]. rewrite binit_length in Hblen.
    cbn [length] in Hflen.
    assert (count_free (bufs c) = 0%nat) as Hzero by lia.
    apply Hpanic; [done| |].
    + intros j y Hy [Hd Hb].
      destruct (Forall_lookup_1 _ _ _ _ Hok Hy) as [(Hr & _)|[_ Hin]].
      * by apply (count_free_zero _ _ _ Hzero Hy).
      * destruct (Hsub _ Hin) as [Hk|Hk]; [by apply elem_of_nil in Hk|].
        apply Hnew. by rewrite <- Hd, <- Hb.
    + intros j y Hy. by apply (count_free_zero _ _ _ Hzero Hy).
Qed.

Lemma exhaustion_panics_witness :
  ∃ c ps, bread_all 0 [(1%nat, 0, 5); (2%nat, 0, 18)] (binit 2) = Ok (c, ps)
    ∧ length ps = 2%nat ∧ Forall (λ p, p = 0) ps
    ∧ bread 0 3 0 31 c = Panic "bget: no buffers".
Proof.
  destruct (exhaustion_panics 2 0) as (_ & _ & H).
  apply (H [(1%nat, 0, 5); (2%nat, 0, 18)] 3%nat 0 31).
  - reflexivity.
  - cbn. apply NoDup_cons. split; [|apply NoDup_singleton].
    rewrite list_elem_of_singleton. discriminate.
  - cbn. rewrite !not_elem_of_cons. split_and!; try discriminate.
    apply not_elem_of_nil.
Defined.

(** ** A cached block is found again *)

Lemma holdsb_holds dv bn i c : holdsb dv bn i c = true → holds dv bn i c.
Proof.
  unfold holdsb, holds. destruct (bufs c !! i) as [x|]; [|done].
  intros H. exists x. split; [done|]. by apply is_id_test.
Qed.

Lemma keeps_trans dv bn i s s' s'' :
  keeps dv bn i s s' → keeps dv bn i s' s'' → keeps dv bn i s s''.
Proof.
  intros H1 H2. induction H2 as [|s' s1 s2 e H2 IH Hstep Hh]; [done|].
  exact (keeps_step dv bn i s s1 s2 e (IH H1) Hstep Hh).
Qed.

Lemma keeps_run_sound dv bn i es : ∀ s s',
  keeps_run dv bn i es s = Some s' → keeps dv bn i s s'.
Proof.
  induction es as [|e es IH]; intros s s'; simpl.
  { intros [= <-]. apply keeps_refl. }
  destruct (exec e s) as [s1|] eqn:He; [|done]. cbn.
  destruct (holdsb dv bn i (mem s1)) eqn:Hh; [|done]. intros H.
  eapply keeps_trans; [|by apply IH].
  eapply keeps_step; [apply keeps_refl|by apply exec_step|].
  by apply holdsb_holds.
Qed.

Lemma first_match_bget fuel pid dv bn c c' i :
  struct_inv c → bget_locked fuel pid dv bn c = Ok (c', i) →
  first_match dv bn i c'.
Proof.
  intros [Hq Hl] H.
  pose proof (bget_locked_cases fuel pid dv bn c Hq Hl) as Hcase.
  rewrite H in Hcase.
  inversion Hcase as [i0 l1 l2 x Hc Hx Hid Hbefore|
                      b x l1 l2 Hc Hnoid Hx Hxr Hxt Hb Ha|
                      b x l l1 l2 Hc Hnoid Hnone Hx Hxr Hxt Hne Hsrc Hmin|];
    subst.
  - exists (l1 ++ i :: l2), (refcnt_inc x). split_and!; try done.
    + apply elem_of_app. right. by left.
    + by rewrite lookup_upd, decide_True, Hx.
    + intros p z Hp. pose proof (linked_nodup _ Hl _ _ Hc) as Hnd.
      pose proof (before_neq _ _ _ Hnd Hp) as Hpi.
      rewrite lookup_upd, decide_False by done.
      apply before_split in Hp; [|done]. eauto.
  - exists (l1 ++ i :: l2), (claim dv bn x). split_and!; try done.
    + apply elem_of_app. right. by left.
    + by rewrite lookup_upd, decide_True, Hx.
    + intros p z Hp. pose proof (linked_nodup _ Hl _ _ Hc) as Hnd.
      pose proof (before_neq _ _ _ Hnd Hp) as Hpi.
      rewrite lookup_upd, decide_False by done.
      apply before_elem in Hp as [Hp _]. eauto.
  - exists (i :: l), (claim dv bn x). split_and!; try done.
    + cbn. apply list_lookup_insert_eq.
      rewrite length_insert, (linked_len _ Hl). apply shard_lt.
    + by left.
    + rewrite lookup_upd, decide_True by done. cbn. by rewrite Hx.
    + intros p z Hp. exfalso. simpl in Hp. destruct Hp as [[_ Hil]|Hp].
      * assert (i ∈ l1 ++ i :: l2) as Hi
          by (apply elem_of_app; right; by left).
        by destruct (linked_unique _ _ _ _ _ _ Hl Hc Hil Hsrc Hi).
      * apply before_elem in Hp as [_ Hil].
        assert (i ∈ l1 ++ i :: l2) as Hi
          by (apply elem_of_app; right; by left).
        by destruct (linked_unique _ _ _ _ _ _ Hl Hc Hil Hsrc Hi).
Qed.

Lemma first_match_hit fuel pid dv bn c i :
  struct_inv c → first_match dv bn i c →
  bget_locked fuel pid dv bn c = Ok (upd i refcnt_inc c, i).
Proof.
  intros [Hq Hl] (l & x & Hchain & Hi & Hx & Hid & Hfirst).
  destruct (bget_locked_cases fuel pid dv bn c Hq Hl)
    as [i0 l1 l2 x0 Hc Hx0 Hid0 Hbefore|b x0 l1 l2 Hc Hnoid _ _ _ _ _|
        b x0 l' l1 l2 Hc Hnoid _ _ _ _ _ _ _|l' Hc Hnoid _].
  - rewrite Hchain in Hc. injection Hc as ->.
    destruct (decide (i0 = i)) as [->|Hne]; [done|]. exfalso.
    assert (i0 ∈ l1 ++ i0 :: l2) as Hi0 by (apply elem_of_app; right; by left).
    destruct (before_total _ _ _ Hi0 Hi Hne) as [Hb|Hb].
    + by apply (Hfirst _ _ Hb Hx0).
    + apply before_split in Hb; [|by eapply linked_nodup].
      by apply (Hbefore _ _ Hb Hx).
  - exfalso. rewrite Hchain in Hc. injection Hc as ->. by apply (Hnoid i x).
  - exfalso. rewrite Hchain in Hc. injection Hc as ->. by apply (Hnoid i x).
  - exfalso. rewrite Hchain in Hc. injection Hc as ->. by apply (Hnoid i x).
Qed.

Lemma first_match_ext dv bn i c c' :
  heads c' = heads c →
  (∀ j, (λ b, (dev b, blockno b)) <$> bufs c' !! j
        = (λ b, (dev b, blockno b)) <$> bufs c !! j) →
  first_match dv bn i c → first_match dv bn i c'.
Proof.
  intros Hh Hb (l & x & Hchain & Hi & Hx & [Hd Hn] & Hfirst).
  pose proof (Hb i) as Hbi. rewrite Hx in Hbi.
  destruct (bufs c' !! i) as [x'|] eqn:Hx'; [|done].
  cbn in Hbi. injection Hbi as Hd' Hn'.
  exists l, x'. rewrite Hh. split_and!; try done; [split; congruence|].
  intros p z' Hp Hz' [Hzd Hzn]. pose proof (Hb p) as Hbp. rewrite Hz' in Hbp.
  destruct (bufs c !! p) as [z|] eqn:Hz; [|done].
  cbn in Hbp. injection Hbp as Hzd' Hzn'.
  apply (Hfirst p z Hp Hz). split; congruence.
Qed.


Lemma same_ids_upd i f c :
  (∀ x, dev (f x) = dev x ∧ blockno (f x) = blockno x) →
  same_ids c (upd i f c).
Proof.
  intros Hf. split; [done|]. intros j. rewrite lookup_upd.
  destruct (decide (i = j)); [|done].
  destruct (bufs c !! j) as [x|]; [|done]. cbn.
  destruct (Hf x) as [-> ->]. done.
Qed.

Lemma same_ids_trans c c' c'' :
  same_ids c c' → same_ids c' c'' → same_ids c c''.
Proof. intros [H1 H2] [H3 H4]. split; [congruence|]. intros j. by rewrite H4. Qed.

(** One step of a run that does not evict the block from slot [i]. *)
Lemma keeps_one dv bn i s e s' :
  struct_inv (mem s) → step s e s' →
  first_match dv bn i (mem s) → holds dv bn i (mem s') →
  first_match dv bn i (mem s')
  ∧ (∀ x, bufs (mem s) !! i = Some x → valid x ≠ 0 →
       ∃ x', bufs (mem s') !! i = Some x' ∧ valid x' ≠ 0).
Proof.
  intros Hs Hstep Hfm Hholds. pose proof Hs as [Hq Hl].
  assert (∀ j f,
            (∀ x, dev (f x) = dev x ∧ blockno (f x) = blockno x) →
            (∀ x, valid x ≠ 0 → valid (f x) ≠ 0) →
            first_match dv bn i (upd j f (mem s))
            ∧ (∀ x, bufs (mem s) !! i = Some x → valid x ≠ 0 →
                 ∃ x', bufs (upd j f (mem s)) !! i = Some x' ∧ valid x' ≠ 0))
    as Hsame.
  { intros j f Hf Hv. split.
    - destruct (same_ids_upd j f (mem s) Hf) as [H1 H2].
      by eapply first_match_ext.
    - intros x Hx Hxv. rewrite lookup_upd.
      destruct (decide (j = i)) as [->|]; [|eauto].
      rewrite Hx. cbn. eauto. }
  destruct Hstep as [fuel pid dv' bn' s c j H|pid j s sl c c' Hsl Ha Ht|
    pid j s c H|pid j ticks s c H|pid j s c H|pid j s c H]; cbn [mem] in *.
  - pose proof (bget_locked_cases fuel pid dv' bn' _ Hq Hl) as Hcase.
    rewrite H in Hcase.
    destruct Hfm as (l & x & Hchain & Hi & Hx & Hid & Hfirst).
    assert (first_match dv bn i (mem s)) as Hfm by (exists l, x; by split_and!).
    inversion Hcase as [i0 l1 l2 x0 Hc Hx0 Hid0 Hbefore|
                        b x0 l1 l2 Hc Hnoid Hx0 Hxr Hxt Hb Ha|
                        b x0 l0 l1 l2 Hc Hnoid Hnone Hx0 Hxr Hxt Hne Hsrc Hmin|];
      subst.
    + by apply Hsame.
    + (* a slot of the chain of [bn'] is recycled *)
      assert (j ≠ i) as Hji.
      { intros ->. destruct Hholds as (x' & Hx' & Hid').
        rewrite lookup_upd, decide_True, Hx in Hx' by done.
        cbn in Hx'. injection Hx' as <-. destruct Hid' as [Hd Hn].
        cbn in Hd, Hn. subst dv' bn'.
        rewrite Hchain in Hc. injection Hc as ->. by apply (Hnoid i x). }
      split.
      * exists l, x. split_and!; try done.
        { by rewrite lookup_upd, decide_False. }
        intros p z Hp. rewrite lookup_upd.
        destruct (decide (j = p)) as [<-|Hjp]; [|by apply Hfirst].
        rewrite Hx0. cbn. intros [= <-] [Hd Hn]. cbn in Hd, Hn. subst dv' bn'.
        rewrite Hchain in Hc. injection Hc as ->. by apply (Hnoid i x).
      * intros y Hy Hyv. rewrite lookup_upd, decide_False by done. eauto.
    + (* a slot of another chain is moved to the chain of [bn'] *)
      assert (j ≠ i) as Hji.
      { intros ->. destruct Hholds as (x' & Hx' & Hid').
        rewrite lookup_upd, decide_True in Hx' by done.
        cbn in Hx'. rewrite Hx in Hx'. cbn in Hx'. injection Hx' as <-.
        destruct Hid' as [Hd Hn]. cbn in Hd, Hn. subst dv' bn'.
        rewrite Hchain in Hc. injection Hc as ->. by apply (Hnoid i x). }
      assert (j ∈ l1 ++ j :: l2) as Hjsrc
        by (apply elem_of_app; right; by left).
      split.
      * destruct (decide (shard bn = shard bn')) as [Heq|Hneq].
        { (* the block's chain receives the slot at its head *)
          rewrite Heq, Hc in Hchain. injection Hchain as ->.
          exists (j :: l), x. split_and!; try done.
          - rewrite Heq. cbn. apply list_lookup_insert_eq.
            rewrite length_insert, (linked_len _ Hl). apply shard_lt.
          - by right.
          - by rewrite lookup_upd, decide_False.
          - intros p z Hp. rewrite lookup_upd. simpl in Hp.
            destruct Hp as [[<- _]|Hp].
            + rewrite decide_True by done. cbn. rewrite Hx0. cbn.
              intros [= <-] [Hd Hn]. cbn in Hd, Hn. subst dv' bn'.
              by apply (Hnoid i x).
            + destruct (decide (j = p)) as [<-|Hjp]; [|by apply Hfirst].
              apply before_elem in Hp as [Hjl _].
              by destruct (linked_unique _ _ _ _ _ _ Hl Hc Hjl Hsrc Hjsrc). }
        destruct (decide (shard bn = shard (blockno x0))) as [Heq2|Hneq2].
        { (* the block's chain loses the slot *)
          rewrite Heq2, Hsrc in Hchain. injection Hchain as <-.
          exists (l1 ++ l2), x. split_and!; try done.
          - rewrite Heq2. cbn. rewrite list_lookup_insert_ne by done.
            apply list_lookup_insert_eq. rewrite (linked_len _ Hl).
            apply shard_lt.
          - apply elem_of_app in Hi as [Hi|Hi]; apply elem_of_app;
              [by left|].
            apply elem_of_cons in Hi as [->|Hi]; [done|by right].
          - by rewrite lookup_upd, decide_False.
          - intros p z Hp. pose proof (before_app_drop _ _ j _ _ Hp) as Hp'.
            pose proof (linked_nodup _ Hl _ _ Hsrc) as Hnd.
            apply before_elem in Hp as [Hp _].
            assert (j ≠ p) as Hjp.
            { intros <-. apply NoDup_app in Hnd as (_ & Hnd & Hnd2).
              apply NoDup_cons in Hnd2 as [Hj2 _].
              apply elem_of_app in Hp as [Hp|Hp]; [|done].
              apply (Hnd _ Hp). by left. }
            rewrite lookup_upd, decide_False by done. by apply Hfirst. }
        exists l, x. split_and!; try done.
        { cbn. by rewrite !list_lookup_insert_ne. }
        { by rewrite lookup_upd, decide_False. }
        intros p z Hp. rewrite lookup_upd.
        destruct (decide (j = p)) as [<-|Hjp]; [|by apply Hfirst].
        apply before_elem in Hp as [Hjl _].
        by destruct (linked_unique _ _ _ _ _ _ Hl Hchain Hjl Hsrc Hjsrc).
      * intros y Hy Hyv. rewrite lookup_upd, decide_False by done. eauto.
  - apply acquiresleep_Ok in Ha as (b & Hb & Hfree & ->).
    destruct (Hsame j (set_lock (Some pid))) as [Hfm1 Hv1]; [done..|].
    apply bread_tail_Ok in Ht as (_ & b' & Hb' & [[Hv ->]|[Hv ->]]); [|done].
    split.
    + eapply first_match_ext; [| |exact Hfm1]; [done|]. intros k. cbn.
      rewrite list_lookup_alter. destruct (decide (j = k)) as [->|]; [|done].
      by destruct (alter (set_lock (Some pid)) k (bufs (mem s)) !! k).
    + intros x Hx Hxv. destruct (Hv1 x Hx Hxv) as (x' & Hx' & Hxv').
      cbn. rewrite list_lookup_alter.
      destruct (decide (j = i)) as [->|]; [|eauto].
      cbn in Hx'. rewrite Hx'. cbn. eauto.
  - apply bwrite_Ok in H as (b & Hb & Hh & H1 & H2 & H3 & H4). split.
    + eapply first_match_ext; [| |exact Hfm]; [done|]. intros k.
      by rewrite H1.
    + intros x Hx Hxv. rewrite H1. eauto.
  - apply brelse_Ok in H as (b & Hb & Hh & ->); [|done].
    apply Hsame; intros y; unfold stamp; cbn; by destruct (_ =? 0).
  - apply bpin_Ok in H as (b & Hb & ->); [|done]. by apply Hsame.
  - apply bunpin_Ok in H as (b & Hb & ->); [|done]. by apply Hsame.
Qed.

Lemma keeps_all dv bn i s s' :
  struct_inv (mem s) → first_match dv bn i (mem s) →
  keeps dv bn i s s' →
  struct_inv (mem s') ∧ first_match dv bn i (mem s')
  ∧ (∀ x, bufs (mem s) !! i = Some x → valid x ≠ 0 →
       ∃ x', bufs (mem s') !! i = Some x' ∧ valid x' ≠ 0).
Proof.
  intros Hs Hfm Hk. induction Hk as [s|s s' s'' e Hk IH Hstep Hh].
  - split_and!; eauto.
  - destruct (IH Hs Hfm) as (Hs' & Hfm' & Hv').
    destruct (keeps_one _ _ _ _ _ _ Hs' Hstep Hfm' Hh) as [Hfm'' Hv''].
    split_and!; [by eapply step_struct|done|].
    intros x Hx Hxv. destruct (Hv' x Hx Hxv) as (x' & Hx' & Hxv'). eauto.
Qed.

Lemma step_fetch_inv s pid dv bn s' i :
  step s (Fetch pid dv bn) s' → sleepers s' = (pid, i) :: sleepers s →
  ∃ fuel, bget_locked fuel pid dv bn (mem s) = Ok (mem s', i).
Proof.
  intros Hstep Hsl. inversion Hstep as [fuel ? ? ? ? c i0 H| | | | |]; subst.
  cbn in Hsl. injection Hsl as <-. eauto.
Qed.

Lemma wake_slot s pid i s' x :
  step s (Wake pid i) s' → bufs (mem s) !! i = Some x →
  ∃ x', bufs (mem s') !! i = Some x'
    ∧ dev x' = dev x ∧ blockno x' = blockno x ∧ valid x' ≠ 0.
Proof.
  intros Hw Hx.
  inversion Hw as [|? ? ? sl c c' Hun Ha Ht| | | |]; subst. cbn [mem].
  apply acquiresleep_Ok in Ha as (b & Hb & Hfree & ->).
  assert (b = x) as -> by congruence.
  assert (bufs (upd i (set_lock (Some pid)) (mem s)) !! i
          = Some (set_lock (Some pid) x)) as Hx1
    by (by rewrite lookup_upd, decide_True, Hx).
  apply bread_tail_Ok in Ht as (_ & b' & Hb' & [[Hv ->]|[Hv ->]]).
  - cbn [bufs]. rewrite list_lookup_alter_eq, Hx1. by eexists.
  - rewrite Hx1 in Hb'. injection Hb' as <-. rewrite Hx1. by eexists.
Qed.

(** C7. [bread] calls the disk read, and then sets [valid], exactly when the
    slot [bget] returned has [valid] clear; otherwise it changes nothing.
    And a block stays cached: when a [bread] of a block returned slot [i],
    then, whatever calls follow (its [brelse] among them), as long as slot
    [i] is not given another identity, a later [bread] of the same block
    gets slot [i] again, [valid] set, without a disk read. *)
Theorem bread_reads_once NBUF :
  (∀ fuel pid dv bn c c' i,
     bread fuel pid dv bn c = Ok (c', i) →
     ∃ c2 b, bget fuel pid dv bn c = Ok (c2, i) ∧ bufs c2 !! i = Some b
       ∧ (valid b = 0 →
          io c' = io c2 ++ [DiskRead i (dev b) (blockno b)]
          ∧ valid <$> bufs c' !! i = Some 1)
       ∧ (valid b ≠ 0 → c' = c2))
  ∧ (∀ s0 s1 s2 s3 s4 s5 pid pid' dv bn i,
       reachable NBUF s0 →
       step s0 (Fetch pid dv bn) s1 →
       sleepers s1 = (pid, i) :: sleepers s0 →
       keeps dv bn i s1 s2 →
       step s2 (Wake pid i) s3 →
       keeps dv bn i s3 s4 →
       step s4 (Fetch pid' dv bn) s5 →
       sleepers s5 = (pid', i) :: sleepers s4
       ∧ ∀ s6 s7,
           keeps dv bn i s5 s6 → step s6 (Wake pid' i) s7 →
           io (mem s7) = io (mem s6)
           ∧ ∃ x, bufs (mem s7) !! i = Some x ∧ is_id dv bn x ∧ valid x ≠ 0).
Proof.
  split.
  - intros fuel pid dv bn c c' i H. unfold bread in H.
    destruct (bget fuel pid dv bn c) as [[c2 j]| | | |] eqn:Hg; try done.
    rewrite bind_Ok in H. cbv beta iota in H.
    destruct (bread_tail_Ok _ _ _ _ H) as (-> & b & Hb & _).
    exists c2, b. split_and!; try done.
    + intros Hv. rewrite (bread_tail_eq _ _ _ Hb), Hv in H. cbn in H.
      injection H as <-. cbn.
      split; [done|]. by rewrite list_lookup_alter_eq, Hb.
    + intros Hv. apply Z.eqb_neq in Hv.
      rewrite (bread_tail_eq _ _ _ Hb), Hv in H. by injection H.
  - intros s0 s1 s2 s3 s4 s5 pid pid' dv bn i Hr Hf Hsl Hk1 Hw Hk2 Hf' .
    pose proof (reachable_struct _ _ Hr) as Hs0.
    destruct (step_fetch_inv _ _ _ _ _ _ Hf Hsl) as [fuel Hget].
    pose proof (first_match_bget _ _ _ _ _ _ _ Hs0 Hget) as Hfm1.
    pose proof (bget_locked_struct _ _ _ _ _ _ _ Hs0 Hget) as Hs1.
    destruct (keeps_all _ _ _ _ _ Hs1 Hfm1 Hk1) as (Hs2 & Hfm2 & _).
    (* the first call wakes up and reads the block if need be *)
    assert (holds dv bn i (mem s3)
            ∧ ∃ x, bufs (mem s3) !! i = Some x ∧ valid x ≠ 0) as [Hh3 Hv3].
    { destruct Hfm2 as (l & x & _ & _ & Hx & [Hd Hn] & _).
      destruct (wake_slot _ _ _ _ _ Hw Hx) as (x' & Hx' & Hd' & Hn' & Hv').
      split; exists x'; (split; [done|]); [split; congruence|done]. }
    destruct (keeps_one _ _ _ _ _ _ Hs2 Hw Hfm2 Hh3) as [Hfm3 _].
    pose proof (step_struct _ _ _ Hs2 Hw) as Hs3.
    destruct (keeps_all _ _ _ _ _ Hs3 Hfm3 Hk2) as (Hs4 & Hfm4 & Hv4).
    destruct Hv3 as (x3 & Hx3 & Hx3v).
    destruct (Hv4 _ Hx3 Hx3v) as (x4 & Hx4 & Hx4v).
    (* the second call finds the slot *)
    inversion Hf' as [fuel' ? ? ? ? c5 i5 Hget'| | | | |]; subst.
    rewrite (first_match_hit fuel' pid' dv bn _ i Hs4 Hfm4) in Hget'.
    injection Hget' as <- <-. split; [done|].
    intros s6 s7 Hk3 Hw'.
    set (s5 := Sys (upd i refcnt_inc (mem s4)) ((pid', i) :: sleepers s4)) in *.
    assert (struct_inv (mem s5)) as Hs5 by (by apply struct_upd).
    assert (first_match dv bn i (mem s5)) as Hfm5.
    { eapply first_match_ext; [| |exact Hfm4];
        by apply (same_ids_upd i refcnt_inc (mem s4)). }
    assert (bufs (mem s5) !! i = Some (refcnt_inc x4)) as Hx5
      by (unfold s5; cbn [mem]; by rewrite lookup_upd, decide_True, Hx4).
    destruct (keeps_all _ _ _ _ _ Hs5 Hfm5 Hk3) as (Hs6 & Hfm6 & Hv6).
    destruct (Hv6 _ Hx5 Hx4v) as (x6 & Hx6 & Hx6v).
    destruct Hfm6 as (l & x & _ & _ & Hx & Hid & _).
    assert (x6 = x) as -> by congruence.
    inversion Hw' as [|? ? ? sl c c' Hun Ha Ht| | | |]; subst. cbn [mem] in *.
    apply acquiresleep_Ok in Ha as (b & Hb & Hfree & ->).
    assert (b = x) as -> by congruence.
    apply bread_tail_Ok in Ht as (_ & b' & Hb' & [[Hv ->]|[Hv ->]]).
    + rewrite lookup_upd, decide_True, Hx in Hb' by done. cbn in Hb'.
      injection Hb' as <-. done.
    + split; [done|]. rewrite lookup_upd, decide_True, Hx by done. cbn.
      eexists. split; [done|]. by split.
Qed.

Lemma bread_reads_once_witness :
  sleepers again_5 = (2%nat, 0%nat) :: sleepers again_4
  ∧ io (mem again_7) = io (mem again_5)
  ∧ io (mem again_7) = [DiskRead 0 0 5; DiskRead 1 0 19].
Proof.
  destruct (bread_reads_once 2) as [_ H].
  destruct (H (boot 2) again_1 again_1 again_3 again_4 again_5
              1%nat 2%nat 0 5 0%nat) as [H1 H2].
  - apply reach_boot.
  - apply exec_step. vm_compute; reflexivity.
  - vm_compute; reflexivity.
  - apply keeps_refl.
  - apply exec_step. vm_compute; reflexivity.
  - apply (keeps_run_sound 0 5 0 then_release). vm_compute; reflexivity.
  - apply exec_step. vm_compute; reflexivity.
  - split; [exact H1|]. split; [|vm_compute; reflexivity].
    apply (H2 again_5 again_7); [apply keeps_refl|].
    apply exec_step. vm_compute; reflexivity.
Defined.

(** ** The source bucket and the target bucket *)

(** A call of [bget] that runs alone, from a state between calls, never
    waits for a lock, never takes [goto globalfind] and never follows a wild
    pointer: it returns or it panics.  In particular the bucket of the slot
    it moves is not its own. *)
Lemma bget_alone_returns_or_panics fuel pid dv bn c :
  struct_inv c →
  (∃ c' i, bget_locked fuel pid dv bn c = Ok (c', i))
  ∨ bget_locked fuel pid dv bn c = Panic "bget: no buffers".
Proof.
  intros [Hq Hl].
  destruct (bget_locked_cases fuel pid dv bn c Hq Hl); eauto.
Qed.

(** C2 fails when calls overlap.  In the schedule [race_schedule], call 0
    has moved the only free slot (slot 3) from bucket 3 to bucket 4 and has
    released [bcache.lock], but has not yet stored the new block number;
    call 1, which holds the lock of bucket 3, picks that slot in its walk
    over the array and computes [no2] from the old block number: bucket 3,
    its own.  It stands at line 115 about to acquire the lock it holds, and
    cannot move; it still cannot when call 0 has returned, and then no call
    can move. *)
Lemma overlapping_bget_reacquires_its_bucket_lock :
  ∃ c0 ps ks c k0 k1 ks' c' k0' k1',
    held_29 = Ok (c0, ps)
    ∧ schedule race_schedule racing c0 = Some (ks, c)
    ∧ ks = [k0; k1]
    ∧ c_pc k0 = AtClaim ∧ c_b k0 = Some 3%nat
    ∧ c_pc k1 = AtSource ∧ c_b k1 = Some 3%nat
    ∧ shard (c_blockno k1) = 3%nat ∧ c_no2 k1 = 3%nat
    ∧ bucket_lock c !! 3%nat = Some (Some (c_pid k1))
    ∧ bget_step k1 c = None
    ∧ schedule race_to_the_end racing c0 = Some (ks', c')
    ∧ ks' = [k0'; k1']
    ∧ c_pc k0' = Returned ∧ bget_step k0' c' = None
    ∧ c_pc k1' = AtSource ∧ bget_step k1' c' = None.
Proof. do 10 eexists. run_scenario. vm_compute; reflexivity. Qed.

(** ** The two models of [bget] agree on a call that runs alone *)

Lemma alone_step n k c k' c' :
  bget_step k c = Some (k', c') → alone (S n) k c = alone n k' c'.
Proof. intros H. cbn [alone]. by rewrite H. Qed.

Lemma try_acquire_Ok l p k c c' :
  acquire l (c_pid k) c = Ok c' → try_acquire l p k c = Some (goto p k, c').
Proof. intros H. unfold try_acquire. by rewrite H. Qed.

Lemma alone_globalfind fuel : ∀ pid dv bn tm b no2 c c' i,
  globalfind fuel pid dv bn tm b c = Ok (c', i) →
  ∃ n k', alone n (Call pid dv bn tm b no2 InPool) c = (k', c')
    ∧ c_pc k' = AtSleep ∧ c_b k' = Some i.
Proof.
  induction fuel as [|fuel IH]; intros pid dv bn tm b no2 c c' i H;
    rewrite globalfind_eq in H;
    destruct (scan_all (bufs c) 0 tm b) as [tm' [b'|]] eqn:Hscan; try done;
    destruct (blockno_at b' c) as [bno| | | |] eqn:Hbno; try done;
    rewrite bind_Ok in H; cbv zeta in H;
    destruct (acquire (Bucket (shard bno)) pid c) as [c1| | | |] eqn:Hacq;
    try done; rewrite bind_Ok in H;
    destruct (refcnt_at b' c1) as [r| | | |] eqn:Hr; try done;
    rewrite bind_Ok in H;
    destruct (negb (r =? 0)) eqn:Hz; try done.
  - (* no retry left, the slot is moved *)
    unfold migrate in H.
    destruct (chain (shard bno) c1) as [l2| | | |] eqn:Hl2; try done.
    rewrite bind_Ok in H.
    destruct (unlink b' l2) as [l2'|] eqn:Hun; try done.
    destruct (chain (shard bn) _) as [l| | | |] eqn:Hl in H; try done.
    rewrite bind_Ok in H. injection H as <- <-.
    exists 5%nat. eexists.
    rewrite (alone_step _ _ _ (Call pid dv bn tm' (Some b') (shard bno) AtSource) c)
      by (cbn [bget_step c_pc c_time c_b]; by rewrite Hscan, Hbno).
    rewrite (alone_step _ _ _ (Call pid dv bn tm' (Some b') (shard bno) InSource) c1)
      by (cbn [bget_step c_pc c_no2]; by apply try_acquire_Ok).
    erewrite alone_step
      by (cbn [bget_step c_pc c_b c_no2]; by rewrite Hr, Hz, Hl2, Hun).
    erewrite alone_step
      by (cbn [bget_step c_pc c_b c_blockno goto]; by rewrite Hl).
    erewrite alone_step by (cbn [bget_step c_pc c_b goto]; done).
    cbn [alone goto c_pc c_b c_dev c_blockno]. done.
  - (* the retry *)
    destruct (IH pid dv bn UINT_MAX (Some b') (shard bno) _ _ _ H)
      as (n & k' & Hn & Hpc & Hb).
    exists (S (S (S n))), k'.
    rewrite (alone_step _ _ _ (Call pid dv bn tm' (Some b') (shard bno) AtSource) c)
      by (cbn [bget_step c_pc c_time c_b]; by rewrite Hscan, Hbno).
    rewrite (alone_step _ _ _ (Call pid dv bn tm' (Some b') (shard bno) InSource) c1)
      by (cbn [bget_step c_pc c_no2]; by apply try_acquire_Ok).
    erewrite alone_step
      by (cbn [bget_step c_pc c_b c_no2]; by rewrite Hr, Hz).
    done.
  - (* the slot is moved *)
    unfold migrate in H.
    destruct (chain (shard bno) c1) as [l2| | | |] eqn:Hl2; try done.
    rewrite bind_Ok in H.
    destruct (unlink b' l2) as [l2'|] eqn:Hun; try done.
    destruct (chain (shard bn) _) as [l| | | |] eqn:Hl in H; try done.
    rewrite bind_Ok in H. injection H as <- <-.
    exists 5%nat. eexists.
    rewrite (alone_step _ _ _ (Call pid dv bn tm' (Some b') (shard bno) AtSource) c)
      by (cbn [bget_step c_pc c_time c_b]; by rewrite Hscan, Hbno).
    rewrite (alone_step _ _ _ (Call pid dv bn tm' (Some b') (shard bno) InSource) c1)
      by (cbn [bget_step c_pc c_no2]; by apply try_acquire_Ok).
    erewrite alone_step
      by (cbn [bget_step c_pc c_b c_no2]; by rewrite Hr, Hz, Hl2, Hun).
    erewrite alone_step
      by (cbn [bget_step c_pc c_b c_blockno goto]; by rewrite Hl).
    erewrite alone_step by (cbn [bget_step c_pc c_b goto]; done).
    cbn [alone goto c_pc c_b c_dev c_blockno]. done.
Qed.

(** Whatever a lone call of [bget] returns, the steps reach: the same slot
    and the same cache, at the entry of [acquiresleep]. *)
Lemma alone_bget_locked fuel pid dv bn c c' i :
  bget_locked fuel pid dv bn c = Ok (c', i) →
  ∃ n k', alone n (start pid dv bn) c = (k', c')
    ∧ c_pc k' = AtSleep ∧ c_b k' = Some i.
Proof.
  unfold bget_locked. intros H.
  destruct (acquire (Bucket (shard bn)) pid c) as [c1| | | |] eqn:Hacq;
    try done. rewrite bind_Ok in H.
  destruct (chain (shard bn) c1) as [l| | | |] eqn:Hl; try done.
  rewrite bind_Ok in H.
  destruct (scan_bucket (bufs c1) dv bn l UINT_MAX None)
    as [i0|tm [b|]|] eqn:Hscan; try done.
  - injection H as <- <-. exists 2%nat. eexists.
    rewrite (alone_step _ _ _ (Call pid dv bn UINT_MAX None 0 InBucket) c1)
      by (cbn [bget_step c_pc start c_blockno]; by apply try_acquire_Ok).
    erewrite alone_step
      by (cbn [bget_step c_pc c_blockno c_dev c_time c_b];
          by rewrite Hl, Hscan).
    done.
  - injection H as <- <-. exists 2%nat. eexists.
    rewrite (alone_step _ _ _ (Call pid dv bn UINT_MAX None 0 InBucket) c1)
      by (cbn [bget_step c_pc start c_blockno]; by apply try_acquire_Ok).
    erewrite alone_step
      by (cbn [bget_step c_pc c_blockno c_dev c_time c_b];
          by rewrite Hl, Hscan).
    done.
  - destruct (acquire Bcache pid c1) as [c2| | | |] eqn:Hacq2; try done.
    rewrite bind_Ok in H.
    destruct (alone_globalfind _ _ _ _ _ _ 0%nat _ _ _ H)
      as (n & k' & Hn & Hpc & Hb).
    exists (S (S (S n))), k'.
    rewrite (alone_step _ _ _ (Call pid dv bn UINT_MAX None 0 InBucket) c1)
      by (cbn [bget_step c_pc start c_blockno]; by apply try_acquire_Ok).
    rewrite (alone_step _ _ _ (Call pid dv bn tm None 0 AtPool) c1)
      by (cbn [bget_step c_pc c_blockno c_dev c_time c_b];
          by rewrite Hl, Hscan).
    rewrite (alone_step _ _ _ (Call pid dv bn tm None 0 InPool) c2)
      by (cbn [bget_step c_pc]; by apply try_acquire_Ok).
    done.
Qed.

(** ** The retry after a failed re-check *)

Lemma scan_all_busy bs : ∀ i tm b,
  (∀ j y, bs !! j = Some y → refcnt y ≠ 0) → scan_all bs i tm b = (tm, b).
Proof.
  induction bs as [|x bs IH]; intros i tm b Hbusy; [done|].
  cbn [scan_all].
  assert ((refcnt x =? 0) = false) as ->.
  { apply Z.eqb_neq. by apply (Hbusy 0%nat). }
  cbn. apply IH. intros j y Hy. by apply (Hbusy (S j)).
Qed.

Lemma release_acquire_bucket k pid c :
  bucket_lock c !! k = Some None →
  release (Bucket k) (set_bucket_lock (<[k := Some pid]> (bucket_lock c)) c) = c.
Proof.
  intros H. apply cache_ext; fields; try done.
  rewrite list_insert_insert_eq. by apply list_insert_id.
Qed.

(** [goto globalfind] resets [time] but leaves [b] as it was.  When the walk
    then finds no slot with a zero use count, [b] is still the slot that
    failed the test of line 116, and the call goes round again instead of
    reaching the panic, however often it may. *)
Lemma globalfind_keeps_its_candidate fuel pid dv bn b x c :
  bufs c !! b = Some x →
  (∀ j y, bufs c !! j = Some y → refcnt y ≠ 0) →
  bucket_lock c !! shard (blockno x) = Some None →
  globalfind fuel pid dv bn UINT_MAX (Some b) c = OutOfFuel.
Proof.
  intros Hb Hbusy Hfree.
  assert (negb (refcnt x =? 0) = true) as Hr.
  { apply negb_true_iff, Z.eqb_neq. by apply (Hbusy b). }
  induction fuel as [|fuel IH]; rewrite globalfind_eq;
    rewrite (scan_all_busy _ _ _ _ Hbusy);
    unfold blockno_at; rewrite Hb, bind_Ok; cbv zeta;
    rewrite (acquire_bucket_ok _ _ _ Hfree), bind_Ok;
    unfold refcnt_at; cbn [bufs set_bucket_lock]; rewrite Hb, bind_Ok, Hr;
    [done|].
  by rewrite (release_acquire_bucket _ _ _ Hfree).
Qed.

Lemma schedule_app s1 s2 ks c ks' c' :
  schedule s1 ks c = Some (ks', c') →
  schedule (s1 ++ s2) ks c = schedule s2 ks' c'.
Proof.
  revert ks c. induction s1 as [|t s1 IH]; intros ks c H.
  - by injection H as -> ->.
  - cbn [schedule app] in *. destruct (ks !! t) as [k|]; [|done].
    destruct (bget_step k c) as [[k1 c1]|]; [|done]. by apply IH.
Qed.

Lemma schedule_round s ks c n :
  schedule s ks c = Some (ks, c) →
  schedule (mjoin (replicate n s)) ks c = Some (ks, c).
Proof.
  intros H. induction n as [|n IH]; [done|].
  cbn [replicate mjoin list_join]. by rewrite (schedule_app _ _ _ _ _ _ H).
Qed.

(** C4 fails when calls overlap.  After [retry_schedule] every slot has a
    positive use count and call 0 is back at [globalfind] with [b] still
    set to slot 3, which call 1 has taken meanwhile.  Its walk finds no
    slot with a zero use count, yet it does not panic: one round (lines
    105-120) brings it back to the same state, so any number of rounds
    does, and with any number of retries allowed [globalfind] has not
    come to an end. *)
Lemma exhausted_retry_does_not_panic :
  ∃ c0 ps ks c k0 k1,
    held_29 = Ok (c0, ps)
    ∧ schedule retry_schedule retrying c0 = Some (ks, c)
    ∧ ks = [k0; k1]
    ∧ k0 = Call 101 1 30 UINT_MAX (Some 3%nat) 3 InPool
    ∧ c_pc k1 = Returned ∧ c_b k1 = Some 3%nat
    ∧ Forall (λ y, refcnt y ≠ 0) (bufs c)
    ∧ scan_all (bufs c) 0 UINT_MAX None = (UINT_MAX, None)
    ∧ schedule once_around ks c = Some (ks, c)
    ∧ (∀ n, schedule (mjoin (replicate n once_around)) ks c = Some (ks, c))
    ∧ (∀ fuel, globalfind fuel 101 1 30 UINT_MAX (Some 3%nat) c = OutOfFuel).
Proof.
  do 6 eexists.
  do 6 (split; [vm_compute; reflexivity|]).
  split; [apply (bool_decide_unpack _); vm_compute; reflexivity|].
  do 2 (split; [vm_compute; reflexivity|]).
  split.
  - intros n. apply schedule_round. vm_compute; reflexivity.
  - intros fuel. eapply globalfind_keeps_its_candidate.
    + vm_compute; reflexivity.
    + apply Forall_lookup. apply (bool_decide_unpack _); vm_compute; reflexivity.
    + vm_compute; reflexivity.
Qed.

(** * Further properties of the code *)

(** ** The layout [binit] builds *)

Lemma bucket_at_next i j m :
  bucket_at (S i) ((j + 1) mod N) m = bucket_at i j m.
Proof.
  unfold bucket_at, N.
  replace (j + Z.of_nat m - Z.of_nat i) with ((j + 1) + (Z.of_nat m - Z.of_nat (S i))) by lia.
  rewrite <- Z.add_sub_assoc. by rewrite Z.add_mod_idemp_l.
Qed.

Lemma binit_loop_lookup n : ∀ i j c m,
  0 ≤ j < N →
  bufs (binit_loop n i j c) !! m
  = if decide (i ≤ m < i + n)%nat
    then set_blockno (bucket_at i j m) <$> bufs c !! m
    else bufs c !! m.
Proof.
  induction n as [|n IH]; intros i j c m Hj; cbn [binit_loop].
  { rewrite decide_False by lia. done. }
  rewrite IH by (apply Z.mod_pos_bound; done).
  rewrite bucket_at_next. unfold push_head. cbn [bufs set_heads].
  rewrite lookup_upd.
  destruct (decide (i = m)) as [->|Hne].
  - rewrite decide_False by lia. rewrite decide_True by lia.
    unfold bucket_at. replace (j + Z.of_nat m - Z.of_nat m) with j by lia.
    by rewrite Z.mod_small.
  - destruct (decide (S i ≤ m < S i + n)%nat).
    + rewrite decide_True by lia. done.
    + rewrite decide_False by lia. done.
Qed.

Lemma binit_loop_heads n : ∀ i j c k,
  0 ≤ j < N →
  heads (binit_loop n i j c) !! k
  = (λ l, reverse (filter (λ m, Z.to_nat (bucket_at i j m) = k) (seq i n)) ++ l)
      <$> heads c !! k.
Proof.
  induction n as [|n IH]; intros i j c k Hj; cbn [binit_loop seq].
  { cbn. by destruct (heads c !! k). }
  rewrite IH by (apply Z.mod_pos_bound; done).
  rewrite (list_filter_iff _ (λ m, Z.to_nat (bucket_at i j m) = k))
    by (intros m; by rewrite bucket_at_next).
  unfold push_head. cbn [heads set_heads upd set_bufs].
  rewrite list_lookup_alter.
  assert (bucket_at i j i = j) as Hi.
  { unfold bucket_at. replace (j + Z.of_nat i - Z.of_nat i) with j by lia.
    by apply Z.mod_small. }
  destruct (decide (Z.to_nat j = k)) as [Hk|Hk].
  - rewrite filter_cons_True by (by rewrite Hi). rewrite Hk.
    rewrite reverse_cons. destruct (heads c !! k); [|done]. cbn [fmap option_fmap option_map].
    by rewrite <- app_assoc.
  - rewrite filter_cons_False by (by rewrite Hi). done.
Qed.

Lemma binit_loop_io n : ∀ i j c,
  io (binit_loop n i j c) = io c ∧ disk (binit_loop n i j c) = disk c.
Proof.
  induction n as [|n IH]; intros i j c; cbn [binit_loop]; [done|].
  destruct (IH (S i) ((j + 1) mod N)
              (push_head (Z.to_nat j) i (upd i (set_blockno j) c))) as [-> ->].
  done.
Qed.

(** X1. After [binit], slot [i] carries block number [i % N] and is
    otherwise zero (no device, not valid, use count and time 0, unlocked);
    the chain of bucket [k] holds the slots whose index is [k] modulo [N],
    the highest index at the head, since each slot is linked in at the
    head; and no lock is held. *)
Theorem binit_layout NBUF i k :
  (i < NBUF)%nat → (k < Z.to_nat N)%nat →
  bufs (binit NBUF) !! i = Some (Buf 0 0 (Z.of_nat i mod N) None 0 0 [])
  ∧ heads (binit NBUF) !! k
    = Some (reverse (filter (λ m, shard (Z.of_nat m) = k) (seq 0 NBUF)))
  ∧ length (bufs (binit NBUF)) = NBUF
  ∧ length (heads (binit NBUF)) = Z.to_nat N
  ∧ bcache_lock (binit NBUF) = None
  ∧ bucket_lock (binit NBUF) = replicate (Z.to_nat N) None
  ∧ io (binit NBUF) = [].
Proof.
  intros Hi Hk. destruct (binit_struct NBUF) as [[Hq1 Hq2] Hl].
  split_and!; try done.
  - unfold binit. rewrite binit_loop_lookup by done.
    rewrite decide_True by lia. cbn. rewrite lookup_replicate_2 by done.
    cbn. unfold bucket_at, set_blockno. cbn. do 2 f_equal. f_equal. lia.
  - unfold binit. rewrite binit_loop_heads by done. cbn.
    rewrite lookup_replicate_2 by done. cbn. rewrite app_nil_r.
    do 2 f_equal. apply list_filter_iff. intros m. unfold bucket_at, shard.
    by replace (0 + Z.of_nat m - Z.of_nat 0) with (Z.of_nat m) by lia.
  - apply binit_length.
  - apply Hl.
  - unfold binit. by destruct (binit_loop_io NBUF 0 0 (zeroed NBUF)) as [-> _].
Qed.

Lemma binit_layout_witness :
  bufs (binit 30) !! 14%nat = Some (Buf 0 0 1 None 0 0 [])
  ∧ heads (binit 30) !! 1%nat = Some [27; 14; 1]%nat.
Proof.
  destruct (binit_layout 30 14 1 ltac:(lia) ltac:(vm_compute; lia))
    as (H1 & H2 & _).
  split; [exact H1|exact H2].
Defined.

(** ** What a call has done when it returns *)

Lemma wake_struct pid i c1 c2 c' :
  struct_inv c1 → acquiresleep pid i c1 = Ok c2 → bread_tail i c2 = Ok (c', i) →
  struct_inv c'.
Proof.
  intros Hs Ha Ht.
  apply (step_struct (Sys c1 [(pid, i)]) (Wake pid i) (Sys c' []) Hs).
  eapply step_wake; [|exact Ha|exact Ht].
  cbn. unfold same_sleeper. cbn. by rewrite !Nat.eqb_refl.
Qed.

Lemma bread_struct fuel pid dv bn c c' i :
  struct_inv c → bread fuel pid dv bn c = Ok (c', i) → struct_inv c'.
Proof.
  intros Hs H.
  destruct (bread_Ok _ _ _ _ _ _ _ H) as (c1 & c2 & Hget & Ha & Ht).
  pose proof (bget_locked_struct _ _ _ _ _ _ _ Hs Hget) as Hs1.
  by apply (wake_struct _ _ _ _ _ Hs1 Ha Ht).
Qed.

Lemma alter_time {f : buf → buf} (i j : nat) (bs : list buf) b b' :
  (∀ x, time (f x) = time x) →
  bs !! j = Some b → alter f i bs !! j = Some b' → time b' = time b.
Proof.
  intros Hf Hb. rewrite list_lookup_alter. destruct (decide (i = j)) as [->|].
  - rewrite Hb. cbn. intros [= <-]. apply Hf.
  - congruence.
Qed.

Lemma upd_same i f c b :
  bufs c !! i = Some b → f b = b → upd i f c = c.
Proof.
  intros Hb Hf. apply cache_ext; fields; try done.
  apply list_eq. intros j. rewrite list_lookup_alter.
  destruct (decide (i = j)) as [<-|]; [|done]. rewrite Hb. cbn. by rewrite Hf.
Qed.

Lemma upd_ext i f g c b :
  bufs c !! i = Some b → f b = g b → upd i f c = upd i g c.
Proof.
  intros Hb Hfg. apply cache_ext; fields; try done.
  apply list_alter_ext; [|done]. intros x Hx. congruence.
Qed.

Lemma quiescent_upd i f c : quiescent c → quiescent (upd i f c).
Proof. by intros [? ?]. Qed.

Lemma step_length s e s' :
  struct_inv (mem s) → step s e s' →
  length (bufs (mem s')) = length (bufs (mem s)).
Proof.
  intros Hs Hstep. pose proof Hs as [Hq Hl].
  destruct Hstep as [fuel pid dv bn s c i H|pid i s sl c c' Hsl Ha Ht|
    pid i s c H|pid i ticks s c H|pid i s c H|pid i s c H]; cbn [mem] in *.
  - destruct (bget_locked_effect _ _ _ _ _ _ _ Hs H)
      as (x & Hx & _ & _ & [[_ ->]|(_ & _ & ->)]); fields;
      by rewrite length_alter.
  - destruct (wake_effect _ _ _ _ _ Ha Ht)
      as (x & Hx & _ & _ & _ & _ & _ & [(_ & _ & ->)|(_ & _ & ->)]);
      by rewrite length_alter.
  - apply bwrite_Ok in H as (x & _ & _ & -> & _). done.
  - apply brelse_Ok in H as (x & Hx & Hh & ->); [|done]. fields.
    by rewrite length_alter.
  - apply bpin_Ok in H as (x & _ & ->); [|done]. fields.
    by rewrite length_alter.
  - apply bunpin_Ok in H as (x & _ & ->); [|done]. fields.
    by rewrite length_alter.
Qed.

Lemma reachable_length NBUF s :
  reachable NBUF s → length (bufs (mem s)) = NBUF.
Proof.
  induction 1 as [|s e s' Hr IH Hstep]; [apply binit_length|].
  rewrite (step_length _ _ _ (reachable_struct _ _ Hr) Hstep). done.
Qed.

Lemma held_state_well_behaved : well_behaved 2 held_state.
Proof.
  apply (run_well_behaved 2 two_held (boot 2)); [apply wb_boot|].
  vm_compute; reflexivity.
Qed.

Lemma held_state_reachable : reachable 2 held_state.
Proof. apply well_behaved_reachable, held_state_well_behaved. Qed.

Lemma held_state_first_match : first_match 0 5 0 (mem held_state).
Proof.
  exists [1; 0]%nat. eexists. split_and!.
  - vm_compute; reflexivity.
  - right. by left.
  - vm_compute; reflexivity.
  - split; reflexivity.
  - intros p z [[<- _]|[[_ H]|[]]] Hz; [|by apply elem_of_nil in H].
    vm_compute in Hz. injection Hz as <-. intros [_ Hb]. discriminate Hb.
Qed.

Lemma recycled_state_struct : struct_inv recycled_state.
Proof.
  unfold recycled_state, two_released.
  destruct (bread 0 1 0 0 (binit 2)) as [[c1 i]| | | |] eqn:H1;
    try apply binit_struct.
  rewrite bind_Ok.
  pose proof (bread_struct _ _ _ _ _ _ _ (binit_struct 2) H1) as Hs1.
  destruct (brelse 1 i 5 c1) as [c2| | | |] eqn:H2; try apply binit_struct.
  rewrite bind_Ok.
  assert (struct_inv c2) as Hs2.
  { apply (step_struct (Sys c1 []) (Release 1 i 5) (Sys c2 [])); [done|].
    by apply step_release. }
  destruct (bread 0 1 0 1 c2) as [[c3 j]| | | |] eqn:H3; try apply binit_struct.
  rewrite bind_Ok.
  pose proof (bread_struct _ _ _ _ _ _ _ Hs2 H3) as Hs3.
  destruct (brelse 1 j 9 c3) as [c4| | | |] eqn:H4; try apply binit_struct.
  apply (step_struct (Sys c3 []) (Release 1 j 9) (Sys c4 [])); [done|].
  by apply step_release.
Qed.

Lemma recycled_state_first_match : first_match 0 0 0 recycled_state.
Proof.
  exists [0%nat]. eexists. split_and!.
  - vm_compute; reflexivity.
  - by left.
  - vm_compute; reflexivity.
  - split; reflexivity.
  - intros p z [[_ H]|[]]. by apply elem_of_nil in H.
Qed.

(** X2. The buffer [bread] returns is the one asked for: it carries the
    device and block number of the call, its sleep-lock is held by the
    caller, its contents are marked valid, and it is on the chain of the
    block's bucket; the chains and locks are again as they are between
    calls. *)
Theorem bread_returns_locked_block fuel pid dv bn c c' i :
  struct_inv c →
  bread fuel pid dv bn c = Ok (c', i) →
  ∃ b l, bufs c' !! i = Some b
    ∧ dev b = dv ∧ blockno b = bn ∧ lock b = Some pid ∧ valid b ≠ 0
    ∧ heads c' !! shard bn = Some l ∧ i ∈ l
    ∧ struct_inv c'.
Proof.
  intros Hs H. pose proof (bread_struct _ _ _ _ _ _ _ Hs H) as Hs'.
  destruct (bread_Ok _ _ _ _ _ _ _ H) as (c1 & c2 & Hget & Ha & Ht).
  destruct (first_match_bget _ _ _ _ _ _ _ Hs Hget)
    as (l & x & Hl & Hil & Hx & [Hd Hb] & _).
  apply acquiresleep_Ok in Ha as (x' & Hx' & Hfree & ->).
  assert (x' = x) as -> by congruence.
  assert (bufs (upd i (set_lock (Some pid)) c1) !! i
          = Some (set_lock (Some pid) x)) as Hx2.
  { rewrite lookup_upd, decide_True, Hx by done. done. }
  apply bread_tail_Ok in Ht as (_ & y & Hy & [[Hv ->]|[Hv ->]]);
    rewrite Hx2 in Hy; injection Hy as <-.
  - exists (filled (disk c1) (set_lock (Some pid) x)), l. cbn [bufs heads].
    rewrite list_lookup_alter_eq, Hx2. split_and!; try done.
  - exists (set_lock (Some pid) x), l. split_and!; try done.
Qed.

Lemma bread_returns_locked_block_witness :
  ∃ c' i, bread 0 1 0 5 (binit 2) = Ok (c', i)
    ∧ ∃ b l, bufs c' !! i = Some b
      ∧ dev b = 0 ∧ blockno b = 5 ∧ lock b = Some 1%nat ∧ valid b ≠ 0
      ∧ heads c' !! shard 5 = Some l ∧ i ∈ l ∧ struct_inv c'.
Proof.
  do 2 eexists. split; [vm_compute; reflexivity|].
  apply (bread_returns_locked_block 0 1 0 5 (binit 2));
    [apply binit_struct|vm_compute; reflexivity].
Defined.

(** X3. A block that some slot caches is found: [bget] counts one more
    reference on a slot of that identity and changes nothing else; it
    neither recycles a slot nor panics, whatever the use counts are. *)
Theorem bget_finds_cached_block fuel pid dv bn c j y :
  struct_inv c → bufs c !! j = Some y → is_id dv bn y →
  ∃ i x, bget_locked fuel pid dv bn c = Ok (upd i refcnt_inc c, i)
    ∧ bufs c !! i = Some x ∧ is_id dv bn x.
Proof.
  intros [Hq Hl] Hy Hid.
  destruct (linked_all _ Hl _ _ Hy) as (l & Hchain & Hj).
  destruct Hid as [Hd Hb]. rewrite Hb in Hchain.
  pose proof (bget_locked_cases fuel pid dv bn c Hq Hl) as Hc.
  inversion Hc as [i l1 l2 x Hh Hx Hix Hfirst Heq|b x l1 l2 Hh Hno|
                   b x l0 l1 l2 Hh Hno|l0 Hh Hno].
  - exists i, x. done.
  - rewrite Hh in Hchain. injection Hchain as <-.
    by destruct (Hno _ _ Hj Hy).
  - rewrite Hh in Hchain. injection Hchain as <-.
    by destruct (Hno _ _ Hj Hy).
  - rewrite Hh in Hchain. injection Hchain as <-.
    by destruct (Hno _ _ Hj Hy).
Qed.

Lemma bget_finds_cached_block_witness :
  ∃ i x, bget_locked 0 1 0 5 (binit 30) = Ok (upd i refcnt_inc (binit 30), i)
    ∧ bufs (binit 30) !! i = Some x ∧ is_id 0 5 x.
Proof.
  apply (bget_finds_cached_block 0 1 0 5 (binit 30) 5 (Buf 0 0 5 None 0 0 []));
    [apply binit_struct|vm_compute; reflexivity|split; reflexivity].
Defined.

(** X4. A miss that the chain of the block's bucket cannot serve (no slot
    of that chain is free with a [time] below [UINT_MAX]) takes, of all the
    free slots of the array with a [time] below [UINT_MAX], the one with
    the smallest [time], the lowest index first among equals.  The slot
    comes from another bucket; it is taken out of that bucket's chain, put
    at the head of the block's chain and given the new identity. *)
Theorem bget_recycles_global_lru fuel pid dv bn c l :
  struct_inv c → heads c !! shard bn = Some l →
  (∀ j y, j ∈ l → bufs c !! j = Some y → ¬ is_id dv bn y) →
  (∀ j y, j ∈ l → bufs c !! j = Some y → refcnt y = 0 → UINT_MAX ≤ time y) →
  (∃ j y, bufs c !! j = Some y ∧ refcnt y = 0 ∧ time y < UINT_MAX) →
  ∃ b x l1 l2,
    bufs c !! b = Some x ∧ refcnt x = 0 ∧ time x < UINT_MAX
    ∧ shard (blockno x) ≠ shard bn
    ∧ heads c !! shard (blockno x) = Some (l1 ++ b :: l2)
    ∧ (∀ j y, bufs c !! j = Some y → refcnt y = 0 →
         time x ≤ time y ∧ ((j < b)%nat → time x < time y))
    ∧ bget_locked fuel pid dv bn c
      = Ok (upd b (claim dv bn)
              (relinked (shard bn) (shard (blockno x)) b l (l1 ++ l2) c), b).
Proof.
  intros [Hq Hl] Hchain Hmiss Hbusy (j & y & Hy & Hfree & Hty).
  pose proof (bget_locked_cases fuel pid dv bn c Hq Hl) as Hc.
  inversion Hc as [i l1 l2 x Hh Hx Hix Hfirst Heq|
                   b x l1 l2 Hh Hno Hx Hr Ht Hlt Hle Heq|
                   b x l0 l1 l2 Hh Hno Hfull Hx Hr Ht Hne Hsrc Hlru Heq|
                   l0 Hh Hno Hnone Heq].
  - rewrite Hh in Hchain. injection Hchain as <-.
    destruct (Hmiss i x); [|done..]. apply elem_of_app. right. by left.
  - rewrite Hh in Hchain. injection Hchain as <-.
    assert (b ∈ l1 ++ b :: l2) as Hin by (apply elem_of_app; right; by left).
    pose proof (Hbusy _ _ Hin Hx Hr). lia.
  - rewrite Hh in Hchain. injection Hchain as <-.
    exists b, x, l1, l2. split_and!; done.
  - pose proof (Hnone _ _ Hy Hfree). lia.
Qed.

Lemma bget_recycles_global_lru_witness :
  ∃ b x l1 l2,
    bufs (binit 2) !! b = Some x ∧ refcnt x = 0 ∧ time x < UINT_MAX
    ∧ shard (blockno x) ≠ shard 15
    ∧ heads (binit 2) !! shard (blockno x) = Some (l1 ++ b :: l2)
    ∧ (∀ j y, bufs (binit 2) !! j = Some y → refcnt y = 0 →
         time x ≤ time y ∧ ((j < b)%nat → time x < time y))
    ∧ bget_locked 0 1 0 15 (binit 2)
      = Ok (upd b (claim 0 15)
              (relinked (shard 15) (shard (blockno x)) b [] (l1 ++ l2)
                 (binit 2)), b).
Proof.
  apply (bget_recycles_global_lru 0 1 0 15 (binit 2) []).
  - apply binit_struct.
  - vm_compute; reflexivity.
  - intros j y Hj. by apply elem_of_nil in Hj.
  - intros j y Hj. by apply elem_of_nil in Hj.
  - exists 0%nat, (Buf 0 0 0 None 0 0 []). split_and!; [vm_compute; reflexivity|reflexivity|reflexivity].
Defined.

(** X5. Between calls, [bget] ends in [panic("bget: no buffers")] exactly
    when no slot caches the block and no slot is free with a [time] below
    [UINT_MAX]. *)
Theorem bget_panics_exactly_when fuel pid dv bn c :
  struct_inv c →
  (bget_locked fuel pid dv bn c = Panic "bget: no buffers"
   ↔ ∀ j y, bufs c !! j = Some y →
       ¬ is_id dv bn y ∧ (refcnt y = 0 → UINT_MAX ≤ time y)).
Proof.
  intros [Hq Hl].
  pose proof (bget_locked_cases fuel pid dv bn c Hq Hl) as Hc.
  split.
  - intros H. rewrite H in Hc.
    inversion Hc as [| | |l Hh Hno Hnone]. intros j y Hy. split; [|eauto].
    intros [Hd Hb]. destruct (linked_all _ Hl _ _ Hy) as (l' & Hl' & Hj).
    rewrite Hb, Hh in Hl'. injection Hl' as <-.
    by destruct (Hno _ _ Hj Hy).
  - intros Hall.
    inversion Hc as [i l1 l2 x Hh Hx Hix Hfirst Heq|
                     b x l1 l2 Hh Hno Hx Hr Ht Hlt Hle Heq|
                     b x l0 l1 l2 Hh Hno Hfull Hx Hr Ht Hne Hsrc Hlru Heq|
                     l0 Hh Hno Hnone Heq]; [| | |done].
    + by destruct (Hall _ _ Hx).
    + destruct (Hall _ _ Hx) as [_ Hmax]. specialize (Hmax Hr). lia.
    + destruct (Hall _ _ Hx) as [_ Hmax]. specialize (Hmax Hr). lia.
Qed.

Lemma bget_panics_exactly_when_witness :
  bget_locked 0 3 0 31 (mem held_state) = Panic "bget: no buffers"
  ↔ ∀ j y, bufs (mem held_state) !! j = Some y →
      ¬ is_id 0 31 y ∧ (refcnt y = 0 → UINT_MAX ≤ time y).
Proof.
  apply (bget_panics_exactly_when 0 3 0 31 (mem held_state)).
  apply (reachable_struct 2), held_state_reachable.
Defined.

(** X7. A [bread] of a block that no slot caches returns a slot whose use
    count was 0, now with the new identity, use count 1, the caller as
    holder of the sleep-lock, [valid] set and the contents read from the
    disk by exactly one transfer, for that block; the slot keeps its
    [time]. *)
Theorem bread_miss_reads_the_block fuel pid dv bn c c' i :
  struct_inv c → (∀ j y, bufs c !! j = Some y → ¬ is_id dv bn y) →
  bread fuel pid dv bn c = Ok (c', i) →
  ∃ x, bufs c !! i = Some x ∧ refcnt x = 0
    ∧ bufs c' !! i
      = Some (Buf 1 dv bn (Some pid) 1 (time x) (disk_lookup (disk c) dv bn))
    ∧ io c' = io c ++ [DiskRead i dv bn].
Proof.
  intros Hs Hmiss H.
  destruct (bread_Ok _ _ _ _ _ _ _ H) as (c1 & c2 & Hget & Ha & Ht).
  destruct (bget_locked_effect _ _ _ _ _ _ _ Hs Hget)
    as (x & Hx & Hio & Hdisk & [[Hid _]|(Hr & _ & Hbufs)]).
  { by destruct (Hmiss _ _ Hx). }
  destruct (wake_effect _ _ _ _ _ Ha Ht)
    as (x1 & Hx1 & Hfree & _ & _ & _ & _ & Hcase).
  rewrite Hbufs, list_lookup_alter_eq, Hx in Hx1. injection Hx1 as <-.
  exists x. destruct Hcase as [(Hv & _)|(_ & Hio' & Hbufs')]; [done|].
  split_and!; try done.
  - rewrite Hbufs', Hbufs, list_alter_alter_eq, list_lookup_alter_eq, Hx.
    cbn. by rewrite Hdisk.
  - by rewrite Hio', Hio.
Qed.

Lemma bread_miss_reads_the_block_witness :
  ∃ c' i x, bread 0 1 7 5 (binit 2) = Ok (c', i)
    ∧ bufs (binit 2) !! i = Some x ∧ refcnt x = 0
    ∧ bufs c' !! i
      = Some (Buf 1 7 5 (Some 1%nat) 1 (time x)
                (disk_lookup (disk (binit 2)) 7 5))
    ∧ io c' = io (binit 2) ++ [DiskRead i 7 5].
Proof.
  assert (∃ c' i, bread 0 1 7 5 (binit 2) = Ok (c', i)) as (c' & i & H)
    by (do 2 eexists; vm_compute; reflexivity).
  exists c', i.
  destruct (bread_miss_reads_the_block 0 1 7 5 (binit 2) c' i) as (x & Hx);
    [apply binit_struct| |exact H|].
  - intros j y Hy [Hd _].
    pose proof (Forall_lookup_1 _ _ _ _ (binit_fresh 2) Hy) as (_ & Hdev & _).
    lia.
  - exists x. split; [exact H|exact Hx].
Defined.

(** X8. [bread] followed by [brelse] on a block that is cached, valid and
    unlocked leaves the cache as it was, but for the [time] of the slot,
    which is set to the tick of the release when the use count is back
    at 0: no disk transfer, no slot moved. *)
Theorem bread_brelse_round_trip fuel pid dv bn t c i b :
  struct_inv c → first_match dv bn i c → bufs c !! i = Some b →
  valid b ≠ 0 → lock b = None → 0 ≤ refcnt b < UINT_MAX →
  (bread fuel pid dv bn c ≫= λ '(c1, j), brelse pid j t c1)
  = Ok (upd i (stamp t) c).
Proof.
  intros Hs Hfm Hb Hv Hfree Hr. pose proof Hs as [Hq Hl].
  pose proof (first_match_hit fuel pid _ _ _ _ Hs Hfm) as Hget.
  assert (bufs (upd i refcnt_inc c) !! i = Some (refcnt_inc b)) as Hb1
    by (by rewrite lookup_upd, decide_True, Hb).
  assert (bufs (upd i (set_lock (Some pid)) (upd i refcnt_inc c)) !! i
          = Some (set_lock (Some pid) (refcnt_inc b))) as Hb2
    by (by rewrite lookup_upd, decide_True, Hb1).
  erewrite bread_compose; [|exact Hget| |reflexivity].
  2:{ rewrite (acquiresleep_eq _ _ _ _ Hb1). cbn. by rewrite Hfree. }
  rewrite (bread_tail_eq _ _ _ Hb2). cbn [valid set_lock refcnt_inc set_refcnt].
  apply Z.eqb_neq in Hv. rewrite Hv, bind_Ok.
  rewrite (brelse_eq _ _ _ _ _ (quiescent_upd _ _ _ (quiescent_upd _ _ _ Hq)) Hb2).
  cbn [holdingsleep lock set_lock]. rewrite Nat.eqb_refl.
  rewrite !upd_upd. f_equal. apply (upd_ext _ _ _ _ _ Hb).
  destruct b as [v d n lk r tm dt]. cbn in *. subst lk.
  unfold stamp, refcnt_dec, refcnt_inc, set_refcnt, set_lock, set_time. cbn.
  unfold UINT_MAX in Hr.
  rewrite (wrap32_small (r + 1)) by lia.
  replace (r + 1 - 1) with r by lia. rewrite (wrap32_small r) by lia. done.
Qed.

Lemma bread_brelse_round_trip_witness :
  (bread 0 2 0 0 recycled_state ≫= λ '(c1, j), brelse 2 j 11 c1)
  = Ok (upd 0 (stamp 11) recycled_state).
Proof.
  apply (bread_brelse_round_trip 0 2 0 0 11 recycled_state 0
           (Buf 1 0 0 None 0 5 [])).
  - apply recycled_state_struct.
  - apply recycled_state_first_match.
  - vm_compute; reflexivity.
  - cbn. lia.
  - reflexivity.
  - cbn. unfold UINT_MAX. lia.
Defined.

(** X9. A [bread] of a block whose buffer is locked by a process waits for
    the sleep-lock of that buffer: it gets no second buffer for the block
    and does not panic. *)
Theorem bread_waits_for_the_holder fuel pid dv bn c i b q :
  struct_inv c → first_match dv bn i c →
  bufs c !! i = Some b → lock b = Some q →
  bread fuel pid dv bn c = Waits (Sleeplock i).
Proof.
  intros Hs Hfm Hb Hlk.
  unfold bread, bget. rewrite (first_match_hit fuel pid _ _ _ _ Hs Hfm), !bind_Ok.
  erewrite acquiresleep_eq by (by rewrite lookup_upd, decide_True, Hb).
  cbn. by rewrite Hlk.
Qed.

Lemma bread_waits_for_the_holder_witness :
  bread 0 2 0 5 (mem held_state) = Waits (Sleeplock 0).
Proof.
  apply (bread_waits_for_the_holder 0 2 0 5 (mem held_state) 0
           (Buf 1 0 5 (Some 1%nat) 1 0 []) 1).
  - apply (reachable_struct 2), held_state_reachable.
  - apply held_state_first_match.
  - vm_compute; reflexivity.
  - reflexivity.
Defined.

(** ** Pins *)

Lemma wrap32_inc_dec r : 0 ≤ r < 4294967296 → wrap32 (wrap32 (r + 1) - 1) = r.
Proof.
  intros Hr. unfold wrap32.
  destruct (decide (r = 4294967295)) as [->|Hne]; [done|].
  rewrite (Z.mod_small (r + 1)) by lia. rewrite Z.mod_small by lia. lia.
Qed.

Lemma wrap32_dec_inc r : 0 ≤ r < 4294967296 → wrap32 (wrap32 (r - 1) + 1) = r.
Proof.
  intros Hr. unfold wrap32.
  destruct (decide (r = 0)) as [->|Hne]; [done|].
  rewrite (Z.mod_small (r - 1)) by lia. rewrite Z.mod_small by lia. lia.
Qed.

(** X10. [bpin] and [bunpin] undo each other, in either order and by
    whatever processes: after both the cache is as before. *)
Theorem bpin_bunpin_cancel pid pid' i c b :
  quiescent c → bufs c !! i = Some b → 0 ≤ refcnt b < 4294967296 →
  (bpin pid i c ≫= bunpin pid' i) = Ok c
  ∧ (bunpin pid i c ≫= bpin pid' i) = Ok c.
Proof.
  intros Hq Hb Hr. split.
  - rewrite (bpin_eq _ _ _ _ Hq Hb), bind_Ok.
    erewrite bunpin_eq; [|done|by rewrite lookup_upd, decide_True, Hb].
    rewrite upd_upd. f_equal. apply (upd_same _ _ _ b Hb).
    destruct b. cbn in *. unfold refcnt_dec, refcnt_inc, set_refcnt. cbn.
    by rewrite wrap32_inc_dec.
  - rewrite (bunpin_eq _ _ _ _ Hq Hb), bind_Ok.
    erewrite bpin_eq; [|done|by rewrite lookup_upd, decide_True, Hb].
    rewrite upd_upd. f_equal. apply (upd_same _ _ _ b Hb).
    destruct b. cbn in *. unfold refcnt_dec, refcnt_inc, set_refcnt. cbn.
    by rewrite wrap32_dec_inc.
Qed.

Lemma bpin_bunpin_cancel_witness :
  (bpin 1 0 (binit 1) ≫= bunpin 2 0) = Ok (binit 1)
  ∧ (bunpin 1 0 (binit 1) ≫= bpin 2 0) = Ok (binit 1).
Proof.
  apply (bpin_bunpin_cancel 1 2 0 (binit 1) zero_buf).
  - apply binit_struct.
  - vm_compute; reflexivity.
  - cbn. lia.
Defined.

(** ** What a call leaves alone *)

(** X11. The [time] of a slot is written by [brelse] alone, and only when
    the release brings the use count to 0: across any other call, a
    recycling [bget] included, every slot keeps its [time]. *)
Theorem only_brelse_stamps NBUF s e s' j b b' :
  reachable NBUF s → step s e s' →
  bufs (mem s) !! j = Some b → bufs (mem s') !! j = Some b' →
  time b' = time b
  ∨ ∃ pid t, e = Release pid j t ∧ time b' = t ∧ refcnt b' = 0.
Proof.
  intros Hr Hstep Hb Hb'.
  pose proof (reachable_struct _ _ Hr) as Hs. pose proof Hs as [Hq Hl].
  destruct Hstep as [fuel pid dv bn s c i H|pid i s sl c c' Hsl Ha Ht|
    pid i s c H|pid i ticks s c H|pid i s c H|pid i s c H]; cbn [mem] in *.
  - left.
    destruct (bget_locked_effect _ _ _ _ _ _ _ Hs H)
      as (x & Hx & _ & _ & [[_ ->]|(_ & _ & Heq)]).
    + by apply (alter_time (f := refcnt_inc) i j _ _ _ ltac:(done) Hb).
    + rewrite Heq in Hb'.
      by apply (alter_time (f := claim dv bn) i j _ _ _ ltac:(done) Hb).
  - left.
    destruct (wake_effect _ _ _ _ _ Ha Ht)
      as (x & Hx & _ & _ & _ & _ & _ & [(_ & _ & Heq)|(_ & _ & Heq)]);
      rewrite Heq in Hb'.
    + by apply (alter_time (f := set_lock (Some pid)) i j _ _ _ ltac:(done) Hb).
    + by apply (alter_time (f := filled (disk (mem s)) ∘ set_lock (Some pid))
                  i j _ _ _ ltac:(done) Hb).
  - left. apply bwrite_Ok in H as (x & _ & _ & Heq & _). congruence.
  - apply brelse_Ok in H as (x & Hx & Hh & ->); [|done].
    rewrite lookup_upd in Hb'. destruct (decide (i = j)) as [->|Hne].
    + rewrite Hb in Hb'. injection Hb' as <-. cbn. unfold stamp. cbn.
      destruct (wrap32 (refcnt b - 1) =? 0) eqn:Hz; [|by left].
      right. exists pid, ticks. split_and!; try done. cbn.
      by apply Z.eqb_eq.
    + left. congruence.
  - left. apply bpin_Ok in H as (x & _ & ->); [|done].
    by apply (alter_time (f := refcnt_inc) i j _ _ _ ltac:(done) Hb).
  - left. apply bunpin_Ok in H as (x & _ & ->); [|done].
    by apply (alter_time (f := refcnt_dec) i j _ _ _ ltac:(done) Hb).
Qed.

Lemma only_brelse_stamps_witness :
  time (Buf 1 0 5 None 0 9 []) = time (Buf 1 0 5 (Some 1%nat) 1 0 [])
  ∨ ∃ pid t, Release 1 0 9 = Release pid 0 t
      ∧ time (Buf 1 0 5 None 0 9 []) = t ∧ refcnt (Buf 1 0 5 None 0 9 []) = 0.
Proof.
  apply (only_brelse_stamps 2 held_state (Release 1 0 9) held_then_released 0).
  - apply held_state_reachable.
  - apply exec_step. vm_compute; reflexivity.
  - vm_compute; reflexivity.
  - vm_compute; reflexivity.
Defined.

(** X12. Only [bget] moves slots or gives them an identity: the second
    half of [bread], [bwrite], [brelse], [bpin] and [bunpin] leave every
    chain, the number of slots and the device and block number of every
    slot as they are. *)
Theorem only_bget_moves_slots NBUF s e s' :
  reachable NBUF s → step s e s' →
  (∀ pid dv bn, e ≠ Fetch pid dv bn) →
  heads (mem s') = heads (mem s)
  ∧ length (bufs (mem s')) = length (bufs (mem s))
  ∧ ∀ j b, bufs (mem s) !! j = Some b →
      ∃ b', bufs (mem s') !! j = Some b'
        ∧ dev b' = dev b ∧ blockno b' = blockno b.
Proof.
  intros Hr Hstep Hne.
  pose proof (reachable_struct _ _ Hr) as [Hq Hl].
  assert (∀ i f, (∀ x, dev (f x) = dev x ∧ blockno (f x) = blockno x) →
            ∀ j b, bufs (mem s) !! j = Some b →
              ∃ b', alter f i (bufs (mem s)) !! j = Some b'
                ∧ dev b' = dev b ∧ blockno b' = blockno b) as Hkeep.
  { intros i f Hf j b Hb. rewrite list_lookup_alter.
    destruct (decide (i = j)) as [->|]; rewrite Hb; cbn; eexists;
      (split; [done|]); [apply Hf|done]. }
  destruct Hstep as [fuel pid dv bn s c i H|pid i s sl c c' Hsl Ha Ht|
    pid i s c H|pid i ticks s c H|pid i s c H|pid i s c H]; cbn [mem] in *.
  - by destruct (Hne pid dv bn).
  - destruct (wake_effect _ _ _ _ _ Ha Ht)
      as (x & Hx & _ & Hh & _ & _ & _ & [(_ & _ & Heq)|(_ & _ & Heq)]);
      rewrite Heq, length_alter; split_and!; try done; by apply Hkeep.
  - apply bwrite_Ok in H as (x & _ & _ & Heq & Hh & _). rewrite Heq.
    split_and!; try done. eauto.
  - apply brelse_Ok in H as (x & Hx & Hh & ->); [|done]. fields.
    rewrite length_alter. split_and!; try done. apply Hkeep.
    intros y. cbn. unfold stamp. cbn. by destruct (_ =? 0).
  - apply bpin_Ok in H as (x & _ & ->); [|done]. fields.
    rewrite length_alter. split_and!; try done. by apply Hkeep.
  - apply bunpin_Ok in H as (x & _ & ->); [|done]. fields.
    rewrite length_alter. split_and!; try done. by apply Hkeep.
Qed.

Lemma only_bget_moves_slots_witness :
  heads (mem held_then_released) = heads (mem held_state)
  ∧ length (bufs (mem held_then_released)) = length (bufs (mem held_state))
  ∧ ∀ j b, bufs (mem held_state) !! j = Some b →
      ∃ b', bufs (mem held_then_released) !! j = Some b'
        ∧ dev b' = dev b ∧ blockno b' = blockno b.
Proof.
  apply (only_bget_moves_slots 2 held_state (Release 1 0 9)).
  - apply held_state_reachable.
  - apply exec_step. vm_compute; reflexivity.
  - discriminate.
Defined.

(** X13. Disk transfers: the second half of [bread] reads the slot's block
    once when the slot is not valid and not at all when it is; [bwrite]
    writes the slot's block once; [bget], [brelse], [bpin] and [bunpin]
    transfer nothing. *)
Theorem disk_traffic NBUF s e s' :
  reachable NBUF s → step s e s' →
  match e with
  | Wake pid i =>
      ∃ b, bufs (mem s) !! i = Some b
        ∧ io (mem s') = io (mem s)
                        ++ (if valid b =? 0
                            then [DiskRead i (dev b) (blockno b)] else [])
  | Flush pid i =>
      ∃ b, bufs (mem s) !! i = Some b
        ∧ io (mem s') = io (mem s) ++ [DiskWrite i (dev b) (blockno b) (data b)]
  | _ => io (mem s') = io (mem s)
  end.
Proof.
  intros Hr Hstep.
  pose proof (reachable_struct _ _ Hr) as Hs. pose proof Hs as [Hq Hl].
  destruct Hstep as [fuel pid dv bn s c i H|pid i s sl c c' Hsl Ha Ht|
    pid i s c H|pid i ticks s c H|pid i s c H|pid i s c H]; cbn [mem] in *.
  - by destruct (bget_locked_effect _ _ _ _ _ _ _ Hs H) as (x & _ & -> & _).
  - destruct (wake_effect _ _ _ _ _ Ha Ht)
      as (x & Hx & _ & _ & _ & _ & _ & [(Hv & -> & _)|(Hv & -> & _)]);
      exists x; split; try done.
    + apply Z.eqb_neq in Hv. rewrite Hv. by rewrite app_nil_r.
    + apply Z.eqb_eq in Hv. by rewrite Hv.
  - destruct (bufs (mem s) !! i) as [x|] eqn:Hx.
    + rewrite (bwrite_eq _ _ _ _ Hx) in H. destruct (holdingsleep pid x); [|done].
      injection H as <-. exists x. done.
    + unfold bwrite in H. by rewrite Hx in H.
  - by apply brelse_Ok in H as (x & Hx & Hh & ->).
  - by apply bpin_Ok in H as (x & _ & ->).
  - by apply bunpin_Ok in H as (x & _ & ->).
Qed.

Lemma disk_traffic_witness :
  (∃ b, bufs (mem held_state) !! 1%nat = Some b
     ∧ io (mem held_then_flushed)
       = io (mem held_state) ++ [DiskWrite 1 (dev b) (blockno b) (data b)])
  ∧ io (mem held_then_flushed)
    = [DiskRead 0 0 5; DiskRead 1 0 18; DiskWrite 1 0 18 []].
Proof.
  split; [|vm_compute; reflexivity].
  apply (disk_traffic 2 held_state (Flush 2 1) held_then_flushed).
  - apply held_state_reachable.
  - apply exec_step. vm_compute; reflexivity.
Defined.

(** X14. The contents of a slot change only when [bread] reads the slot's
    block into a slot that is not valid, which then becomes valid; and
    [valid] is cleared only by a [bget] that recycles the slot, whose use
    count was 0. *)
Theorem contents_change_only_by_disk_read NBUF s e s' j b b' :
  reachable NBUF s → step s e s' →
  bufs (mem s) !! j = Some b → bufs (mem s') !! j = Some b' →
  (data b' = data b
   ∧ (valid b' = valid b
      ∨ ∃ pid dv bn, e = Fetch pid dv bn ∧ refcnt b = 0 ∧ valid b' = 0))
  ∨ (∃ pid, e = Wake pid j ∧ valid b = 0 ∧ valid b' = 1
       ∧ data b' = disk_lookup (disk (mem s)) (dev b) (blockno b)).
Proof.
  intros Hr Hstep Hb Hb'.
  pose proof (reachable_struct _ _ Hr) as Hs. pose proof Hs as [Hq Hl].
  assert (∀ i f, (∀ x, data (f x) = data x ∧ valid (f x) = valid x) →
            alter f i (bufs (mem s)) !! j = Some b' →
            data b' = data b ∧ valid b' = valid b) as Hkeep.
  { intros i f Hf. rewrite list_lookup_alter.
    destruct (decide (i = j)) as [->|]; rewrite Hb; cbn; intros [= <-];
      [apply Hf|done]. }
  destruct Hstep as [fuel pid dv bn s c i H|pid i s sl c c' Hsl Ha Ht|
    pid i s c H|pid i ticks s c H|pid i s c H|pid i s c H]; cbn [mem] in *.
  - left.
    destruct (bget_locked_effect _ _ _ _ _ _ _ Hs H)
      as (x & Hx & _ & _ & [[_ ->]|(Hfree & _ & Heq)]).
    + destruct (Hkeep i refcnt_inc ltac:(done) Hb') as [-> ->]. auto.
    + rewrite Heq, list_lookup_alter in Hb'.
      destruct (decide (i = j)) as [->|].
      * rewrite Hb in Hb'. injection Hb' as <-. split; [done|]. right.
        exists pid, dv, bn. split_and!; try done. congruence.
      * rewrite Hb in Hb'. injection Hb' as <-. auto.
  - destruct (wake_effect _ _ _ _ _ Ha Ht)
      as (x & Hx & _ & _ & _ & _ & _ & [(_ & _ & Heq)|(Hv & _ & Heq)]);
      rewrite Heq in Hb'.
    + left.
      destruct (Hkeep i (set_lock (Some pid)) ltac:(done) Hb') as [-> ->].
      auto.
    + rewrite list_lookup_alter in Hb'.
      destruct (decide (i = j)) as [->|].
      * rewrite Hb in Hb', Hx. injection Hx as <-. injection Hb' as <-.
        right. exists pid. done.
      * rewrite Hb in Hb'. injection Hb' as <-. auto.
  - left. apply bwrite_Ok in H as (x & _ & _ & Heq & _).
    rewrite Heq, Hb in Hb'. injection Hb' as <-. auto.
  - left. apply brelse_Ok in H as (x & Hx & Hh & ->); [|done].
    destruct (Hkeep i (stamp ticks ∘ refcnt_dec ∘ set_lock None)
                ltac:(intros y; cbn; unfold stamp; cbn; by destruct (_ =? 0))
                Hb') as [-> ->].
    auto.
  - left. apply bpin_Ok in H as (x & _ & ->); [|done].
    destruct (Hkeep i refcnt_inc ltac:(done) Hb') as [-> ->]. auto.
  - left. apply bunpin_Ok in H as (x & _ & ->); [|done].
    destruct (Hkeep i refcnt_dec ltac:(done) Hb') as [-> ->]. auto.
Qed.

Lemma contents_change_only_by_disk_read_witness :
  (data (Buf 1 0 5 (Some 1%nat) 1 0 []) = data (Buf 0 0 5 None 1 0 [])
   ∧ (valid (Buf 1 0 5 (Some 1%nat) 1 0 []) = valid (Buf 0 0 5 None 1 0 [])
      ∨ ∃ pid dv bn, Wake 1 0 = Fetch pid dv bn
          ∧ refcnt (Buf 0 0 5 None 1 0 []) = 0
          ∧ valid (Buf 1 0 5 (Some 1%nat) 1 0 []) = 0))
  ∨ (∃ pid, Wake 1 0 = Wake pid 0 ∧ valid (Buf 0 0 5 None 1 0 []) = 0
       ∧ valid (Buf 1 0 5 (Some 1%nat) 1 0 []) = 1
       ∧ data (Buf 1 0 5 (Some 1%nat) 1 0 [])
         = disk_lookup (disk (mem fetched_5)) (dev (Buf 0 0 5 None 1 0 []))
             (blockno (Buf 0 0 5 None 1 0 []))).
Proof.
  apply (contents_change_only_by_disk_read 2 fetched_5 (Wake 1 0) woken_5 0).
  - apply (run_reachable 2 [Fetch 1 0 5] (boot 2) _ true); [apply reach_boot|].
    vm_compute; reflexivity.
  - apply exec_step. vm_compute; reflexivity.
  - vm_compute; reflexivity.
  - vm_compute; reflexivity.
Defined.

(** ** No wild pointer *)

(** X15. In every state reached from [binit], no call follows a null or
    wild pointer, waits for a spinlock or takes [goto globalfind]: [bread]
    returns a slot of the array, panics for want of a buffer, or waits for
    the sleep-lock of a slot of the array; [bpin] and [bunpin] return;
    [brelse] and [bwrite] return or panic on the sleep-lock test. *)
Theorem calls_never_fault NBUF s fuel pid dv bn i t :
  reachable NBUF s → (i < NBUF)%nat →
  ((∃ c j, bread fuel pid dv bn (mem s) = Ok (c, j) ∧ (j < NBUF)%nat)
   ∨ bread fuel pid dv bn (mem s) = Panic "bget: no buffers"
   ∨ (∃ j, bread fuel pid dv bn (mem s) = Waits (Sleeplock j) ∧ (j < NBUF)%nat))
  ∧ (∃ c, bpin pid i (mem s) = Ok c)
  ∧ (∃ c, bunpin pid i (mem s) = Ok c)
  ∧ ((∃ c, brelse pid i t (mem s) = Ok c)
     ∨ brelse pid i t (mem s) = Panic "brelse")
  ∧ ((∃ c, bwrite pid i (mem s) = Ok c)
     ∨ bwrite pid i (mem s) = Panic "bwrite").
Proof.
  intros Hr Hi. pose proof (reachable_struct _ _ Hr) as Hs.
  pose proof Hs as [Hq Hl]. pose proof (reachable_length _ _ Hr) as Hlen.
  destruct (lookup_lt_is_Some_2 (bufs (mem s)) i) as [b Hb]; [lia|].
  split_and!.
  - destruct (bget_alone_returns_or_panics fuel pid dv bn _ Hs)
      as [(c & j & Hget)|Hp].
    2:{ right. left. unfold bread, bget. by rewrite Hp. }
    destruct (bget_locked_effect _ _ _ _ _ _ _ Hs Hget) as (x & Hx & _).
    assert (j < NBUF)%nat as Hj.
    { apply lookup_lt_Some in Hx. lia. }
    pose proof (bget_locked_struct _ _ _ _ _ _ _ Hs Hget) as [Hq1 Hl1].
    assert (is_Some (bufs c !! j)) as [x1 Hx1].
    { apply lookup_lt_is_Some.

      destruct (bget_locked_effect _ _ _ _ _ _ _ Hs Hget)
        as (? & ? & _ & _ & [[_ ->]|(_ & _ & ->)]); fields;
        rewrite length_alter; lia. }
    unfold bread, bget. rewrite Hget, !bind_Ok.
    rewrite (acquiresleep_eq _ _ _ _ Hx1).
    destruct (lock x1) as [p|] eqn:Hlk.
    + right. right. exists j. done.
    + left. rewrite !bind_Ok.
      erewrite bread_tail_eq
        by (by rewrite lookup_upd, decide_True, Hx1).
      destruct (valid _ =? 0); eauto.
  - rewrite (bpin_eq _ _ _ _ Hq Hb). eauto.
  - rewrite (bunpin_eq _ _ _ _ Hq Hb). eauto.
  - rewrite (brelse_eq _ _ _ _ _ Hq Hb). destruct (holdingsleep pid b); eauto.
  - rewrite (bwrite_eq _ _ _ _ Hb). destruct (holdingsleep pid b); eauto.
Qed.

Lemma calls_never_fault_witness :
  bread 0 3 0 31 (mem held_state) = Panic "bget: no buffers"
  ∧ bread 0 3 0 5 (mem held_state) = Waits (Sleeplock 0)
  ∧ (∃ c, bpin 3 1 (mem held_state) = Ok c)
  ∧ brelse 3 1 9 (mem held_state) = Panic "brelse".
Proof.
  destruct (calls_never_fault 2 held_state 0 3 0 31 1 9 held_state_reachable
              ltac:(lia)) as (_ & Hpin & _).
  split_and!; [vm_compute; reflexivity..|exact Hpin|vm_compute; reflexivity].
Defined.

(** ** Holders and use counts *)

Lemma wb_inv_distinct s : wb_inv s → distinct_in_use (mem s).
Proof.
  intros [[Hq Hl] Hfl _] i j x y Hx Hy Hne Hrx Hry Hsame.
  destruct (linked_all _ Hl _ _ Hx) as (l & Hchain & Hi).
  destruct (linked_all _ Hl _ _ Hy) as (l' & Hchain' & Hj).
  destruct Hsame as [Hd Hb]. rewrite Hb, Hchain' in Hchain.
  injection Hchain as ->.
  destruct (before_total _ _ _ Hi Hj Hne) as [Hbef|Hbef].
  - assert (refcnt y = 0); [|lia].
    eapply (Hfl _ _ Hchain' i j x y); eauto. by split.
  - assert (refcnt x = 0); [|lia].
    eapply (Hfl _ _ Hchain' j i y x); eauto. by split.
Qed.

(** X16. No block is held twice: in a well-behaved run, two slots whose
    sleep-locks are held never carry the same device and block number, and
    a slot whose sleep-lock is held has a positive use count. *)
Theorem one_holder_per_block NBUF s i j x y :
  well_behaved NBUF s →
  bufs (mem s) !! i = Some x → bufs (mem s) !! j = Some y →
  is_Some (lock x) → is_Some (lock y) → same_id x y →
  i = j ∧ 0 < refcnt x.
Proof.
  intros Hwb Hx Hy Hlx Hly Hsame.
  pose proof (well_behaved_inv _ _ Hwb) as Hinv.
  pose proof (wb_counted _ Hinv) as Hc.
  pose proof (held_in_use _ _ _ Hc Hx (or_intror Hlx)) as Hrx.
  pose proof (held_in_use _ _ _ Hc Hy (or_intror Hly)) as Hry.
  destruct (Hc _ _ Hx) as [Hx0 _]. destruct (Hc _ _ Hy) as [Hy0 _].
  split; [|lia].
  destruct (decide (i = j)) as [|Hne]; [done|].
  destruct (wb_inv_distinct _ Hinv i j x y); try done; lia.
Qed.

Lemma one_holder_per_block_witness :
  0%nat = 0%nat ∧ 0 < refcnt (Buf 1 0 5 (Some 1%nat) 1 0 []).
Proof.
  apply (one_holder_per_block 2 held_state 0 0
           (Buf 1 0 5 (Some 1%nat) 1 0 []) (Buf 1 0 5 (Some 1%nat) 1 0 [])).
  - apply held_state_well_behaved.
  - vm_compute; reflexivity.
  - vm_compute; reflexivity.
  - by eexists.
  - by eexists.
  - split; reflexivity.
Defined.

Lemma traced_well_behaved NBUF es s : traced NBUF es s → well_behaved NBUF s.
Proof.
  induction 1; [apply wb_boot|]. by eapply wb_step.
Qed.

Lemma waiting_nil i : waiting i [] = 0.
Proof. done. Qed.

Lemma run_traced NBUF es : ∀ tr s s',
  traced NBUF tr s → run true es s = Some s' →
  traced NBUF (reverse es ++ tr) s'.
Proof.
  induction es as [|e es IH]; intros tr s s' Ht Hrun; cbn [run] in Hrun.
  { injection Hrun as <-. done. }
  destruct (obeysb e s) eqn:Hob; [|done]. cbn in Hrun.
  destruct (exec e s) as [s1|] eqn:He; [|done]. cbn in Hrun.
  rewrite reverse_cons, <- app_assoc. apply (IH (e :: tr) s1); [|done].
  eapply traced_step; [done|by apply obeysb_obeys|by apply exec_step].
Qed.

(** X17. The use count is exact: in a well-behaved run, the use count of a
    slot is the number of processes that hold or await its sleep-lock plus
    the number of outstanding pins. *)
Theorem use_count_is_exact NBUF es s i b :
  traced NBUF es s → bufs (mem s) !! i = Some b →
  refcnt b = fetch_refs s i + net_pins i es ∧ 0 ≤ net_pins i es.
Proof.
  intros Ht. revert i b.
  induction Ht as [|es s e s' Ht IH Hob Hstep]; intros j b' Hb'.
  { cbn [net_pins]. rewrite (fetch_refs_eq _ _ _ Hb'). cbn [sleepers boot].
    rewrite waiting_nil.
    pose proof (Forall_lookup_1 _ _ _ _ (binit_fresh NBUF) Hb')
      as (_ & _ & -> & -> & _). done. }
  pose proof (traced_well_behaved _ _ _ Ht) as Hwb.
  pose proof (well_behaved_inv _ _ Hwb) as [Hs Hfl Hc].
  pose proof Hs as [Hq Hl].
  rewrite (fetch_refs_eq _ _ _ Hb').
  assert (∀ k x, bufs (mem s) !! k = Some x →
            refcnt x = match lock x with Some _ => 1 | None => 0 end
                       + waiting k (sleepers s) + net_pins k es
            ∧ 0 ≤ net_pins k es ∧ 0 ≤ refcnt x < 4294967296) as IH'.
  { intros k x Hx. destruct (IH _ _ Hx) as [H1 H2].
    rewrite (fetch_refs_eq _ _ _ Hx) in H1. destruct (Hc _ _ Hx) as [H3 _].
    done. }
  clear IH.
  destruct Hstep as [fuel pid dv bn s c i H|pid i s sl c c' Hsl Ha Htl|
    pid i s c H|pid i ticks s c H|pid i s c H|pid i s c H];
    cbn [mem sleepers net_pins] in *.
  - (* bget *)
    rewrite waiting_cons.
    destruct (bget_locked_effect _ _ _ _ _ _ _ Hs H)
      as (x & Hx & _ & _ & [[_ ->]|(Hr & _ & Heq)]).
    + rewrite lookup_upd in Hb'. destruct (decide (i = j)) as [->|Hne].
      * rewrite Hx in Hb'. injection Hb' as <-.
        destruct (IH' _ _ Hx) as (H1 & H2 & H3).
        pose proof (Forall_lookup_1 _ _ _ _ Hob Hx) as Hmax. cbn in Hmax.
        unfold UINT_MAX in Hmax. cbn [refcnt_inc set_refcnt refcnt lock].
        rewrite wrap32_small by lia. lia.
      * destruct (IH' _ _ Hb') as (H1 & H2 & H3). lia.
    + rewrite Heq, list_lookup_alter in Hb'.
      destruct (decide (i = j)) as [->|Hne].
      * rewrite Hx in Hb'. injection Hb' as <-.
        destruct (IH' _ _ Hx) as (H1 & H2 & H3).
        pose proof (waiting_nonneg j (sleepers s)).
        cbn [claim refcnt lock]. destruct (lock x); lia.
      * destruct (IH' _ _ Hb') as (H1 & H2 & H3). lia.
  - (* the wake-up *)
    destruct (wake_effect _ _ _ _ _ Ha Htl)
      as (x & Hx & Hfree & _ & _ & _ & _ & Hcase).
    pose proof (waiting_unsleep j _ _ _ _ Hsl) as Hw.
    assert (∃ f, bufs c' = alter f i (bufs (mem s))
              ∧ ∀ y, refcnt (f y) = refcnt y ∧ lock (f y) = Some pid)
      as (f & Heq & Hf).
    { destruct Hcase as [(_ & _ & ->)|(_ & _ & ->)]; eexists; split; done. }
    rewrite Heq, list_lookup_alter in Hb'.
    destruct (decide (i = j)) as [->|Hne].
    + rewrite Hx in Hb'. injection Hb' as <-.
      destruct (IH' _ _ Hx) as (H1 & H2 & H3).
      destruct (Hf x) as [-> ->]. rewrite Hfree in H1. lia.
    + destruct (IH' _ _ Hb') as (H1 & H2 & H3). lia.
  - (* bwrite *)
    apply bwrite_Ok in H as (x & _ & _ & Heq & _). rewrite Heq in Hb'.
    destruct (IH' _ _ Hb') as (H1 & H2 & H3). lia.
  - (* brelse *)
    apply brelse_Ok in H as (x & Hx & Hh & ->); [|done].
    apply holdingsleep_lock in Hh.
    rewrite lookup_upd in Hb'. destruct (decide (i = j)) as [->|Hne].
    + rewrite Hx in Hb'. injection Hb' as <-.
      destruct (IH' _ _ Hx) as (H1 & H2 & H3). rewrite Hh in H1.
      pose proof (waiting_nonneg j (sleepers s)).
      cbn. rewrite stamp_refcnt, stamp_lock. cbn.
      rewrite wrap32_small by lia. lia.
    + destruct (IH' _ _ Hb') as (H1 & H2 & H3). lia.
  - (* bpin *)
    apply bpin_Ok in H as (x & Hx & ->); [|done].
    destruct Hob as (x0 & Hx0 & Hpos & Hmax). unfold UINT_MAX in Hmax.
    rewrite lookup_upd in Hb'. destruct (decide (i = j)) as [->|Hne].
    + rewrite Hx in Hb'. injection Hb' as <-.
      assert (x0 = x) as -> by congruence.
      destruct (IH' _ _ Hx) as (H1 & H2 & H3).
      cbn [refcnt_inc set_refcnt refcnt lock].
      rewrite wrap32_small by lia. lia.
    + destruct (IH' _ _ Hb') as (H1 & H2 & H3). lia.
  - (* bunpin *)
    apply bunpin_Ok in H as (x & Hx & ->); [|done].
    destruct Hob as (x0 & Hx0 & Hlt).
    rewrite lookup_upd in Hb'. destruct (decide (i = j)) as [->|Hne].
    + rewrite Hx in Hb'. injection Hb' as <-.
      assert (x0 = x) as -> by congruence.
      destruct (IH' _ _ Hx) as (H1 & H2 & H3).
      rewrite (fetch_refs_eq _ _ _ Hx) in Hlt.
      pose proof (waiting_nonneg j (sleepers s)).
      cbn [refcnt_dec set_refcnt refcnt lock].
      rewrite wrap32_small by (destruct (lock x); lia). lia.
    + destruct (IH' _ _ Hb') as (H1 & H2 & H3). lia.
Qed.

Lemma use_count_is_exact_witness :
  ∃ s, run true pinned_only (boot 1) = Some s
    ∧ refcnt (Buf 1 0 0 None 1 0 [])
      = fetch_refs s 0 + net_pins 0 (reverse pinned_only)
    ∧ 0 ≤ net_pins 0 (reverse pinned_only).
Proof.
  eexists. split; [vm_compute; reflexivity|].
  eapply (use_count_is_exact 1 (reverse pinned_only)).
  - rewrite <- (app_nil_r (reverse pinned_only)).
    apply (run_traced 1 pinned_only [] (boot 1)); [apply traced_boot|].
    vm_compute; reflexivity.
  - vm_compute; reflexivity.
Defined.

(** ** Calls that stay within their bucket *)

Lemma release_acquire_locks k pid c :
  bucket_lock c !! k = Some None →
  <[k := None]> (<[k := Some pid]> (bucket_lock c)) = bucket_lock c.
Proof.
  intros H. rewrite list_insert_insert_eq. by apply list_insert_id.
Qed.

(** X18. A hit, and a miss that finds a free slot on the chain of the
    block's bucket, take and release the lock of that bucket and no other:
    they return whoever holds [bcache.lock] or the locks of other buckets,
    and leave all locks and chains as they were.  A miss that the chain
    cannot serve waits while [bcache.lock] is held. *)
Theorem bget_local_paths_need_only_their_bucket fuel pid dv bn c l :
  linked c → bucket_lock c !! shard bn = Some None →
  heads c !! shard bn = Some l →
  ((∃ j y, j ∈ l ∧ bufs c !! j = Some y
           ∧ (is_id dv bn y ∨ (refcnt y = 0 ∧ time y < UINT_MAX))) →
   ∃ c' i, bget_locked fuel pid dv bn c = Ok (c', i)
     ∧ bcache_lock c' = bcache_lock c ∧ bucket_lock c' = bucket_lock c
     ∧ heads c' = heads c)
  ∧ ((∀ j y, j ∈ l → bufs c !! j = Some y →
        ¬ is_id dv bn y ∧ (refcnt y = 0 → UINT_MAX ≤ time y)) →
     ∀ q, bcache_lock c = Some q →
       bget_locked fuel pid dv bn c = Waits Bcache).
Proof.
  intros Hl Hfree Hchain.
  assert (∀ j, j ∈ l → is_Some (bufs c !! j)) as Hin.
  { intros j Hj. destruct (linked_shard _ Hl _ _ _ Hchain Hj) as (b & -> & _).
    done. }
  unfold bget_locked. rewrite (acquire_bucket_ok _ _ _ Hfree), bind_Ok.
  unfold chain. cbn [heads set_bucket_lock]. rewrite Hchain, bind_Ok.
  change (bufs (set_bucket_lock (<[shard bn:=Some pid]> (bucket_lock c)) c))
    with (bufs c).
  destruct (scan_bucket (bufs c) dv bn l UINT_MAX None)
    as [i|tm [b|]|] eqn:Hscan.
  - split.
    + intros _. do 2 eexists. split; [reflexivity|]. fields.
      by rewrite release_acquire_locks.
    + intros Hno. destruct (scan_bucket_hit _ _ _ _ _ _ _ Hscan)
        as (l1 & l2 & x & -> & Hx & Hid & _).
      destruct (Hno i x); [|done..]. apply elem_of_app. right. by left.
  - split.
    + intros _. do 2 eexists. split; [reflexivity|]. fields.
      by rewrite release_acquire_locks.
    + intros Hno. destruct (scan_bucket_lru _ _ _ _ _ _ _ _ Hscan)
        as [(Heq & _)|(b0 & x & l1 & l2 & Heq & -> & Hx & Hr & Ht & Hlt & _)];
        [done|].
      destruct (Hno b0 x) as [_ Hmax]; [|done|].
      { apply elem_of_app. right. by left. }
      specialize (Hmax Hr). lia.
  - split.
    + intros (j & y & Hj & Hy & [Hid|[Hr Ht]]).
      * destruct (scan_bucket_miss _ _ _ _ _ _ _ _ Hscan j Hj) as (y' & Hy' & Hn).
        rewrite Hy in Hy'. injection Hy' as <-. done.
      * destruct (scan_bucket_lru _ _ _ _ _ _ _ _ Hscan)
          as [(_ & _ & Hall)|(b0 & ? & ? & ? & Heq & _)]; [|done].
        pose proof (Hall _ _ Hj Hy Hr). lia.
    + intros _ q Hq. unfold acquire. cbn [bcache_lock set_bucket_lock].
      by rewrite Hq.
  - destruct (scan_bucket_not_wild _ dv bn _ UINT_MAX None Hin Hscan).
Qed.

Lemma bget_local_paths_need_only_their_bucket_witness :
  ∃ c' i, bget_locked 0 1 0 14 (set_bcache_lock (Some 9%nat) (binit 30))
          = Ok (c', i)
    ∧ bcache_lock c' = Some 9%nat
    ∧ bucket_lock c' = bucket_lock (binit 30)
    ∧ heads c' = heads (binit 30).
Proof.
  destruct (bget_local_paths_need_only_their_bucket 0 1 0 14
              (set_bcache_lock (Some 9%nat) (binit 30)) [27; 14; 1]%nat)
    as [H _].
  - destruct (binit_struct 30) as [_ [H1 H2 H3 H4]]. by split.
  - vm_compute; reflexivity.
  - vm_compute; reflexivity.
  - apply H. exists 27%nat, (Buf 0 0 1 None 0 0 []).
    split_and!; [by left|vm_compute; reflexivity|].
    right. split; [reflexivity|]. cbn. unfold UINT_MAX. lia.
Defined.

Lemma scan_bucket_ext bs bs' dv bn l : ∀ tm b,
  (∀ j, j ∈ l → bs' !! j = bs !! j) →
  scan_bucket bs' dv bn l tm b = scan_bucket bs dv bn l tm b.
Proof.
  induction l as [|i l IH]; intros tm b Heq; [done|]. cbn [scan_bucket].
  rewrite (Heq i) by (by left).
  destruct (bs !! i) as [x|]; [|done].
  destruct ((dev x =? dv) && (blockno x =? bn)); [done|].
  destruct ((refcnt x =? 0) && (time x <? tm)); apply IH;
    intros j Hj; apply Heq; by right.
Qed.

Lemma served_locally_slot dv bn c i f :
  served_locally dv bn c i f →
  ∃ l, heads c !! shard bn = Some l ∧ i ∈ l.
Proof.
  intros (l & Hl & [[Hscan _]|(tm & Hscan & _)]); exists l; (split; [done|]).
  - destruct (scan_bucket_hit _ _ _ _ _ _ _ Hscan) as (l1 & l2 & x & -> & _).
    apply elem_of_app. right. by left.
  - destruct (scan_bucket_lru _ _ _ _ _ _ _ _ Hscan)
      as [(Heq & _)|(b0 & x & l1 & l2 & Heq & -> & _)]; [done|].
    injection Heq as ->. apply elem_of_app. right. by left.
Qed.

Lemma served_locally_ext dv bn c c2 i f :
  served_locally dv bn c i f →
  heads c2 = heads c →
  (bufs c2 = bufs c
   ∨ ∃ j g, bufs c2 = alter g j (bufs c)
       ∧ ∀ l, heads c !! shard bn = Some l → j ∉ l) →
  served_locally dv bn c2 i f.
Proof.
  intros (l & Hl & Hscan) Hh Hb. exists l. rewrite Hh. split; [done|].
  rewrite (scan_bucket_ext (bufs c)); [done|].
  intros j Hj. destruct Hb as [->|(j' & g & -> & Hout)]; [done|].
  rewrite list_lookup_alter_ne; [done|]. intros ->. by apply (Hout l).
Qed.

Lemma entry_step p dv bn c :
  bucket_lock c !! shard bn = Some None →
  bget_step (start p dv bn) c
  = Some (goto InBucket (start p dv bn),
          set_bucket_lock (<[shard bn := Some p]> (bucket_lock c)) c).
Proof.
  intros H. unfold bget_step. cbn [c_pc start c_blockno].
  apply try_acquire_Ok. cbn [c_pid]. by apply acquire_bucket_ok.
Qed.

Lemma bget_locked_served fuel p dv bn c i f :
  bucket_lock c !! shard bn = Some None →
  served_locally dv bn c i f →
  bget_locked fuel p dv bn c = Ok (upd i f c, i).
Proof.
  intros Hfree (l & Hl & Hscan). unfold bget_locked.
  rewrite (acquire_bucket_ok _ _ _ Hfree), bind_Ok.
  unfold chain. cbn [heads set_bucket_lock]. rewrite Hl, bind_Ok.
  change (bufs (set_bucket_lock (<[shard bn:=Some p]> (bucket_lock c)) c))
    with (bufs c).
  assert (∀ g, release (Bucket (shard bn))
                 (upd i g (set_bucket_lock
                             (<[shard bn:=Some p]> (bucket_lock c)) c))
               = upd i g c) as Hback.
  { intros g. apply cache_ext; fields; try done.
    by apply release_acquire_locks. }
  destruct Hscan as [[-> ->]|(tm & -> & ->)]; by rewrite Hback.
Qed.

Lemma schedule_0 sch k0 k1 c k0' c' :
  bget_step k0 c = Some (k0', c') →
  schedule (0%nat :: sch) [k0; k1] c = schedule sch [k0'; k1] c'.
Proof. intros H. cbn [schedule lookup list_lookup]. by rewrite H. Qed.

Lemma schedule_1 sch k0 k1 c k1' c' :
  bget_step k1 c = Some (k1', c') →
  schedule (1%nat :: sch) [k0; k1] c = schedule sch [k0; k1'] c'.
Proof. intros H. cbn [schedule lookup list_lookup]. by rewrite H. Qed.

Lemma bucket_step_stable p dv bn c i f :
  served_locally dv bn c i f →
  ∃ k', c_pc k' = AtSleep ∧ c_b k' = Some i
    ∧ ∀ c2, heads c2 = heads c →
        (bufs c2 = bufs c
         ∨ ∃ j g, bufs c2 = alter g j (bufs c)
             ∧ ∀ l, heads c !! shard bn = Some l → j ∉ l) →
        bget_step (goto InBucket (start p dv bn)) c2
        = Some (k', release (Bucket (shard bn)) (upd i f c2)).
Proof.
  intros (l & Hl & Hscan).
  assert (∀ c2, heads c2 = heads c →
            (bufs c2 = bufs c
             ∨ ∃ j g, bufs c2 = alter g j (bufs c)
                 ∧ ∀ l, heads c !! shard bn = Some l → j ∉ l) →
            scan_bucket (bufs c2) dv bn l UINT_MAX None
            = scan_bucket (bufs c) dv bn l UINT_MAX None) as Hsame.
  { intros c2 Hh Hb. apply scan_bucket_ext. intros j Hj.
    destruct Hb as [->|(j' & g & -> & Hout)]; [done|].
    rewrite list_lookup_alter_ne; [done|]. intros ->. by apply (Hout l). }
  destruct Hscan as [[Hscan ->]|(tm & Hscan & ->)];
    [exists (goto AtSleep
               (with_b UINT_MAX (Some i) (goto InBucket (start p dv bn))))
    |exists (goto AtSleep
               (with_b tm (Some i) (goto InBucket (start p dv bn))))];
    (split; [done|split; [done|]]);
    intros c2 Hh Hb; unfold bget_step;
    cbn [c_pc goto start c_blockno c_dev c_time c_b]; unfold chain;
    rewrite Hh, Hl, (Hsame c2 Hh Hb), Hscan; reflexivity.
Qed.

(** A lock of the bucket array, looked up through the locks taken and
    released since. *)
Ltac locks_at :=
  fields; rewrite ?list_lookup_insert_ne by done; assumption.

(** The slots of a chain, looked up after a call that changed a slot of
    another chain. *)
Ltac slots_at :=
  fields;
  first [by left
        |right; do 2 eexists; split; [reflexivity|assumption]].

(** All locks taken have been released. *)
Ltac locks_back A B :=
  apply list_eq; intros k;
  destruct (decide (k = A)) as [->|?];
    [|destruct (decide (k = B)) as [->|?]];
  repeat first
    [rewrite list_lookup_insert_ne by done
    |rewrite list_lookup_insert_eq
       by (rewrite ?length_insert; eapply lookup_lt_Some; eassumption)];
  first [done|by symmetry].

(** X19. Two calls of [bget] for blocks of different buckets, each served
    within its bucket, do not disturb each other: they settle on different
    slots, either order of the two calls gives the same cache, and so does
    every way of interleaving their steps (taking the bucket lock; walking
    the chain, updating the slot and releasing the lock). *)
Theorem calls_on_different_buckets_commute
    fuel p0 p1 dv0 bn0 dv1 bn1 c i0 f0 i1 f1 sch :
  linked c → shard bn0 ≠ shard bn1 →
  bucket_lock c !! shard bn0 = Some None →
  bucket_lock c !! shard bn1 = Some None →
  served_locally dv0 bn0 c i0 f0 →
  served_locally dv1 bn1 c i1 f1 →
  sch ∈ two_by_two →
  i0 ≠ i1
  ∧ (bget_locked fuel p0 dv0 bn0 c
       ≫= λ '(c0, _), bget_locked fuel p1 dv1 bn1 c0)
    = Ok (upd i1 f1 (upd i0 f0 c), i1)
  ∧ (bget_locked fuel p1 dv1 bn1 c
       ≫= λ '(c1, _), bget_locked fuel p0 dv0 bn0 c1)
    = Ok (upd i1 f1 (upd i0 f0 c), i0)
  ∧ ∃ k0 k1,
      schedule sch [start p0 dv0 bn0; start p1 dv1 bn1] c
      = Some ([k0; k1], upd i1 f1 (upd i0 f0 c))
      ∧ c_pc k0 = AtSleep ∧ c_b k0 = Some i0
      ∧ c_pc k1 = AtSleep ∧ c_b k1 = Some i1.
Proof.
  intros Hl Hne HA HB S0 S1 Hsch.
  assert (shard bn1 ≠ shard bn0) as Hne' by done.
  destruct (served_locally_slot _ _ _ _ _ S0) as (l0 & Hl0 & Hi0).
  destruct (served_locally_slot _ _ _ _ _ S1) as (l1 & Hl1 & Hi1).
  assert (∀ l, heads c !! shard bn0 = Some l → i1 ∉ l) as Hout1.
  { intros l Hh Hin.
    by destruct (linked_unique _ _ _ _ _ _ Hl Hh Hin Hl1 Hi1). }
  assert (∀ l, heads c !! shard bn1 = Some l → i0 ∉ l) as Hout0.
  { intros l Hh Hin.
    by destruct (linked_unique _ _ _ _ _ _ Hl Hh Hin Hl0 Hi0). }
  assert (i0 ≠ i1) as Hi by (intros ->; by apply (Hout1 l0)).
  assert (i1 ≠ i0) as Hi' by done.
  split; [done|]. split; [|split].
  - rewrite (bget_locked_served _ _ _ _ _ _ _ HA S0), bind_Ok.
    rewrite (bget_locked_served fuel p1 dv1 bn1 (upd i0 f0 c) i1 f1);
      [done|locks_at|].
    apply (served_locally_ext _ _ c); [done|fields; done|slots_at].
  - rewrite (bget_locked_served _ _ _ _ _ _ _ HB S1), bind_Ok.
    rewrite (bget_locked_served fuel p0 dv0 bn0 (upd i1 f1 c) i0 f0);
      [|locks_at|].
    + f_equal. f_equal. apply cache_ext; fields; try done.
      by apply list_alter_alter_ne.
    + apply (served_locally_ext _ _ c); [done|fields; done|slots_at].
  - destruct (bucket_step_stable p0 _ _ _ _ _ S0) as (k0 & Hpc0 & Hb0 & H0).
    destruct (bucket_step_stable p1 _ _ _ _ _ S1) as (k1 & Hpc1 & Hb1 & H1).
    exists k0, k1. split; [|done].
    repeat (apply elem_of_cons in Hsch as [->|Hsch]);
      [..|by apply elem_of_nil in Hsch];
      repeat first
        [erewrite schedule_0 by (apply entry_step; locks_at)
        |erewrite schedule_1 by (apply entry_step; locks_at)
        |erewrite schedule_0 by (apply H0; [fields; done|slots_at])
        |erewrite schedule_1 by (apply H1; [fields; done|slots_at])];
      cbn [schedule]; do 2 f_equal; apply cache_ext; fields; try done;
      first [by apply list_alter_alter_ne
            |locks_back (shard bn0) (shard bn1)].
Qed.

Lemma calls_on_different_buckets_commute_witness :
  27%nat ≠ 18%nat
  ∧ (bget_locked 0 1 0 14 (binit 30)
       ≫= λ '(c0, _), bget_locked 0 2 0 5 c0)
    = Ok (upd 18 refcnt_inc (upd 27 (claim 0 14) (binit 30)), 18%nat)
  ∧ (bget_locked 0 2 0 5 (binit 30)
       ≫= λ '(c1, _), bget_locked 0 1 0 14 c1)
    = Ok (upd 18 refcnt_inc (upd 27 (claim 0 14) (binit 30)), 27%nat)
  ∧ ∃ k0 k1,
      schedule [0; 1; 1; 0]%nat [start 1 0 14; start 2 0 5] (binit 30)
      = Some ([k0; k1], upd 18 refcnt_inc (upd 27 (claim 0 14) (binit 30)))
      ∧ c_pc k0 = AtSleep ∧ c_b k0 = Some 27%nat
      ∧ c_pc k1 = AtSleep ∧ c_b k1 = Some 18%nat.
Proof.
  apply (calls_on_different_buckets_commute 0 1 2 0 14 0 5 (binit 30)).
  - apply binit_struct.
  - vm_compute. discriminate.
  - vm_compute; reflexivity.
  - vm_compute; reflexivity.
  - exists [27; 14; 1]%nat. split; [vm_compute; reflexivity|].
    right. exists 0. split; [vm_compute; reflexivity|reflexivity].
  - exists [18; 5]%nat. split; [vm_compute; reflexivity|].
    left. split; [vm_compute; reflexivity|reflexivity].
  - apply (list_elem_of_lookup_2 _ 2%nat). reflexivity.
Defined.

(** ** Sleep-locks *)

(** X20. The sleep-lock of a slot changes hands only in two ways: a
    wake-up takes it when it is free, and [brelse] by its holder frees it.
    No other call, and no call of another process, takes it away from its
    holder; a [bget] that recycles a slot leaves its sleep-lock alone. *)
Theorem sleep_lock_changes_only_by_holder NBUF s e s' i b b' :
  reachable NBUF s → step s e s' →
  bufs (mem s) !! i = Some b → bufs (mem s') !! i = Some b' →
  lock b' = lock b
  ∨ (∃ pid, e = Wake pid i ∧ lock b = None ∧ lock b' = Some pid)
  ∨ (∃ pid t, e = Release pid i t ∧ lock b = Some pid ∧ lock b' = None).
Proof.
  intros Hr Hstep Hb Hb'.
  pose proof (reachable_struct _ _ Hr) as Hs. pose proof Hs as [Hq Hl].
  assert (∀ j f, (∀ x, lock (f x) = lock x) →
            alter f j (bufs (mem s)) !! i = Some b' → lock b' = lock b)
    as Hkeep.
  { intros j f Hf. rewrite list_lookup_alter.
    destruct (decide (j = i)) as [->|]; rewrite Hb; cbn; intros [= <-];
      [apply Hf|done]. }
  destruct Hstep as [fuel pid dv bn s c j H|pid j s sl c c' Hsl Ha Ht|
    pid j s c H|pid j ticks s c H|pid j s c H|pid j s c H]; cbn [mem] in *.
  - left.
    destruct (bget_locked_effect _ _ _ _ _ _ _ Hs H)
      as (x & Hx & _ & _ & [[_ ->]|(_ & _ & Heq)]).
    + by apply (Hkeep j refcnt_inc).
    + rewrite Heq in Hb'. by apply (Hkeep j (claim dv bn)).
  - destruct (wake_effect _ _ _ _ _ Ha Ht)
      as (x & Hx & Hfree & _ & _ & _ & _ & Hcase).
    assert (∃ f, bufs c' = alter f j (bufs (mem s))
              ∧ ∀ y, lock (f y) = Some pid) as (f & Heq & Hf).
    { destruct Hcase as [(_ & _ & ->)|(_ & _ & ->)]; eexists; split; done. }
    rewrite Heq, list_lookup_alter in Hb'.
    destruct (decide (j = i)) as [->|].
    + rewrite Hb in Hb', Hx. injection Hx as <-. injection Hb' as <-.
      right. left. exists pid. by rewrite Hf.
    + left. congruence.
  - left. apply bwrite_Ok in H as (x & _ & _ & Heq & _). congruence.
  - apply brelse_Ok in H as (x & Hx & Hh & ->); [|done].
    apply holdingsleep_lock in Hh.
    rewrite lookup_upd in Hb'. destruct (decide (j = i)) as [->|].
    + rewrite Hb in Hb', Hx. injection Hx as <-. injection Hb' as <-.
      right. right. exists pid, ticks. split_and!; try done.
      cbn. by rewrite stamp_lock.
    + left. congruence.
  - left. apply bpin_Ok in H as (x & _ & ->); [|done].
    by apply (Hkeep j refcnt_inc).
  - left. apply bunpin_Ok in H as (x & _ & ->); [|done].
    by apply (Hkeep j refcnt_dec).
Qed.

Lemma sleep_lock_changes_only_by_holder_witness :
  lock (Buf 1 0 5 None 0 9 []) = lock (Buf 1 0 5 (Some 1%nat) 1 0 [])
  ∨ (∃ pid, Release 1 0 9 = Wake pid 0
       ∧ lock (Buf 1 0 5 (Some 1%nat) 1 0 []) = None
       ∧ lock (Buf 1 0 5 None 0 9 []) = Some pid)
  ∨ (∃ pid t, Release 1 0 9 = Release pid 0 t
       ∧ lock (Buf 1 0 5 (Some 1%nat) 1 0 []) = Some pid
       ∧ lock (Buf 1 0 5 None 0 9 []) = None).
Proof.
  apply (sleep_lock_changes_only_by_holder 2 held_state (Release 1 0 9)
           held_then_released 0).
  - apply held_state_reachable.
  - apply exec_step. vm_compute; reflexivity.
  - vm_compute; reflexivity.
  - vm_compute; reflexivity.
Defined.

Lemma parked_well_behaved NBUF pid i s s' :
  well_behaved NBUF s → parked pid i s s' → well_behaved NBUF s'.
Proof.
  intros Hwb Hp.
  induction Hp as [s|s s' s'' e Hp IH Hob Hne Hstep]; [done|].
  eapply wb_step; [by apply IH|done|done].
Qed.

Lemma unsleep_other x y sl sl' :
  x ≠ y → unsleep x sl = Some sl' → y ∈ sl → y ∈ sl'.
Proof.
  intros Hne. revert sl'. induction sl as [|z sl IH]; intros sl' H Hy; [done|].
  cbn in H. destruct (same_sleeper x z) eqn:Hz.
  - injection H as <-. apply same_sleeper_true in Hz as <-.
    apply elem_of_cons in Hy as [->|]; done.
  - destruct (unsleep x sl) as [sl0|]; [|done]. injection H as <-.
    apply elem_of_cons in Hy as [->|Hy]; [by left|]. right. by apply IH.
Qed.

Lemma waiting_elem p i sl : (p, i) ∈ sl → 0 < waiting i sl.
Proof.
  induction sl as [|[q j] sl IH]; intros H; [by apply elem_of_nil in H|].
  rewrite waiting_cons. pose proof (waiting_nonneg i sl).
  apply elem_of_cons in H as [[= <- <-]|H].
  - rewrite decide_True by done. lia.
  - specialize (IH H). destruct (decide (j = i)); lia.
Qed.

(** A slot that a process is parked on keeps its identity. *)
Lemma parked_step_holds pid i dv bn s e s' :
  wb_inv s → step s e s' → e ≠ Wake pid i →
  (pid, i) ∈ sleepers s → holds dv bn i (mem s) →
  (pid, i) ∈ sleepers s' ∧ holds dv bn i (mem s').
Proof.
  intros [Hs Hfl Hc] Hstep Hne Hin (x & Hx & Hid).
  pose proof Hs as [Hq Hl].
  assert (refcnt x ≠ 0) as Hrx.
  { destruct (Hc _ _ Hx) as [_ Hle]. rewrite (fetch_refs_eq _ _ _ Hx) in Hle.
    pose proof (waiting_elem _ _ _ Hin). destruct (lock x); lia. }
  assert (∀ j f, (∀ y, dev (f y) = dev y ∧ blockno (f y) = blockno y) →
            ∃ x', alter f j (bufs (mem s)) !! i = Some x' ∧ is_id dv bn x')
    as Hkeep.
  { intros j f Hf. rewrite list_lookup_alter.
    destruct (decide (j = i)) as [->|]; rewrite Hx; cbn; eexists;
      (split; [reflexivity|]); [|done].
    destruct Hid as [<- <-]. split; apply Hf. }
  destruct Hstep as [fuel p dv' bn' s c j H|p j s sl c c' Hsl Ha Ht|
    p j s c H|p j ticks s c H|p j s c H|p j s c H]; cbn [mem sleepers] in *.
  - split; [by right|].
    destruct (bget_locked_effect _ _ _ _ _ _ _ Hs H)
      as (y & Hy & _ & _ & [[_ ->]|(Hfree & _ & Heq)]).
    + by apply (Hkeep j refcnt_inc).
    + unfold holds. rewrite Heq, list_lookup_alter.
      destruct (decide (j = i)) as [->|]; [congruence|eauto].
  - split.
    + apply (unsleep_other (p, j) (pid, i) _ _ ltac:(congruence) Hsl Hin).
    + destruct (wake_effect _ _ _ _ _ Ha Ht)
        as (y & Hy & _ & _ & _ & _ & _ & [(_ & _ & Heq)|(_ & _ & Heq)]);
        unfold holds; rewrite Heq.
      * by apply (Hkeep j (set_lock (Some p))).
      * by apply (Hkeep j (filled (disk (mem s)) ∘ set_lock (Some p))).
  - split; [done|]. apply bwrite_Ok in H as (y & _ & _ & Heq & _).
    unfold holds. rewrite Heq. eauto.
  - split; [done|]. apply brelse_Ok in H as (y & Hy & Hh & ->); [|done].
    apply (Hkeep j (stamp ticks ∘ refcnt_dec ∘ set_lock None)).
    intros z. cbn. unfold stamp. cbn. by destruct (_ =? 0).
  - split; [done|]. apply bpin_Ok in H as (y & _ & ->); [|done].
    by apply (Hkeep j refcnt_inc).
  - split; [done|]. apply bunpin_Ok in H as (y & _ & ->); [|done].
    by apply (Hkeep j refcnt_dec).
Qed.

(** X21. A [bread] that had to wait gets the block it asked for: from the
    moment [bget] has counted its reference, whatever well-behaved calls
    other processes make before the caller obtains the sleep-lock, the
    slot is not recycled, and when [bread] returns the slot carries the
    device and block number asked for, is locked by the caller and is
    valid. *)
Theorem parked_bread_gets_its_block NBUF s0 s1 s2 s3 pid dv bn i :
  well_behaved NBUF s0 → obeys (Fetch pid dv bn) s0 →
  step s0 (Fetch pid dv bn) s1 → sleepers s1 = (pid, i) :: sleepers s0 →
  parked pid i s1 s2 → step s2 (Wake pid i) s3 →
  ∃ b, bufs (mem s3) !! i = Some b
    ∧ dev b = dv ∧ blockno b = bn ∧ lock b = Some pid ∧ valid b ≠ 0.
Proof.
  intros Hwb0 Hob Hfetch Hsl Hpark Hwake.
  assert (well_behaved NBUF s1) as Hwb1 by (by eapply wb_step).
  assert ((pid, i) ∈ sleepers s1 ∧ holds dv bn i (mem s1)) as H1.
  { rewrite Hsl. split; [by left|].
    destruct (step_fetch_inv _ _ _ _ _ _ Hfetch Hsl) as (fuel & Hget).
    pose proof (well_behaved_inv _ _ Hwb0) as [Hs0 _ _].
    destruct (first_match_bget _ _ _ _ _ _ _ Hs0 Hget)
      as (l & x & _ & _ & Hx & Hid & _).
    by exists x. }
  assert ((pid, i) ∈ sleepers s2 ∧ holds dv bn i (mem s2)) as [_ Hh].
  { clear Hwake. induction Hpark as [|s s' s'' e Hp IH Hobe Hne Hstep];
      [done|].
    destruct (IH Hfetch Hsl Hwb1 H1) as [Hin Hh].
    apply (parked_step_holds _ _ _ _ s' e); try done.
    apply (well_behaved_inv NBUF). by apply (parked_well_behaved _ pid i s). }
  destruct Hh as (x & Hx & [Hd Hb]).
  inversion Hwake as [|p j s sl c c' Hun Ha Ht| | | |]; subst.
  destruct (wake_effect _ _ _ _ _ Ha Ht)
    as (y & Hy & _ & _ & _ & _ & _ & [(Hv & _ & Heq)|(Hv & _ & Heq)]);
    rewrite Hx in Hy; injection Hy as <-; cbn [mem]; rewrite Heq;
    rewrite list_lookup_alter_eq, Hx; cbn; eexists; (split; [done|]);
    cbn; split_and!; done.
Qed.

Lemma parked_bread_gets_its_block_witness :
  ∃ b, bufs (mem parked_3) !! 0%nat = Some b
    ∧ dev b = 0 ∧ blockno b = 5 ∧ lock b = Some 2%nat ∧ valid b ≠ 0.
Proof.
  apply (parked_bread_gets_its_block 2 woken_5 parked_1 parked_2 parked_3
           2 0 5 0).
  - apply (run_well_behaved 2 [Fetch 1 0 5; Wake 1 0] (boot 2));
      [apply wb_boot|vm_compute; reflexivity].
  - apply obeysb_obeys. vm_compute; reflexivity.
  - apply exec_step. vm_compute; reflexivity.
  - vm_compute; reflexivity.
  - apply (parked_step 2 0 parked_1 parked_1 parked_2 (Release 1 0 7)).
    + apply parked_refl.
    + exact I.
    + discriminate.
    + apply exec_step. vm_compute; reflexivity.
  - apply exec_step. vm_compute; reflexivity.
Defined.

